(** * Chronos result bridge: extraction, parsing and chunking

    A shallow embedding of the two event handlers that turn the standard
    output of the Chronos pipeline into chat messages:

    - [Telegram]: the [TELEGRAM_MESSAGE_RECEIVED] handler of
      [src/plugin.ts] (result regex, [---] groups, paragraph messages);
    - [Discord]: the [DISCORD_MESSAGE_RECEIVED] handler of
      [DISCORD_CHRONOS_INTEGRATION_INSTRUCTIONS.md] (same regex, line scan,
      length-bounded splitting of long answers).

    JavaScript strings are sequences of UTF-16 code units; they are modelled
    as lists of [N].  JavaScript numbers that hold lengths and indices are
    modelled as [Z] ([lastIndexOf] answers [-1]). *)

From Stdlib Require Import String Ascii.
From Stdlib Require Import List NArith ZArith Lia Bool Arith.
From Stdlib Require Import Floats.
Import ListNotations.

Set Implicit Arguments.

(** ** JavaScript string primitives *)

Module JS.

Definition char16 := N.
Definition jsstring := list char16.

(** An ASCII literal as a sequence of code units. *)
Definition lit (s : String.string) : jsstring :=
  map N_of_ascii (String.list_ascii_of_string s).

Arguments lit s%_string.

Definition LF : char16 := 10%N.
Definition nl : jsstring := [LF].

(** [s.length] *)
Definition len (s : jsstring) : Z := Z.of_nat (length s).

(** A string is truthy when it is not empty. *)
Definition truthy (s : jsstring) : bool :=
  match s with [] => false | _ :: _ => true end.

(** ECMAScript WhiteSpace and LineTerminator code points, the ones
    [String.prototype.trim] strips (all of them lie in the BMP). *)
Definition isWhiteSpace (c : char16) : bool :=
  ((c =? 9) || (c =? 10) || (c =? 11) || (c =? 12) || (c =? 13)
   || (c =? 32) || (c =? 160) || (c =? 5760)
   || ((8192 <=? c) && (c <=? 8202))
   || (c =? 8232) || (c =? 8233) || (c =? 8239) || (c =? 8287)
   || (c =? 12288) || (c =? 65279))%N.

Fixpoint trimStart (s : jsstring) : jsstring :=
  match s with
  | [] => []
  | c :: s' => if isWhiteSpace c then trimStart s' else s
  end.

Definition trimEnd (s : jsstring) : jsstring := rev (trimStart (rev s)).

(** [s.trim()] *)
Definition trim (s : jsstring) : jsstring := trimEnd (trimStart s).

Definition eqb16 (a b : char16) : bool := (a =? b)%N.

(** [s.startsWith(p)] *)
Fixpoint startsWith (p s : jsstring) : bool :=
  match p, s with
  | [], _ => true
  | _ :: _, [] => false
  | a :: p', b :: s' => eqb16 a b && startsWith p' s'
  end.

(** [s.substring(a, b)]: both ends are clamped to [0 .. s.length] and
    swapped when out of order. *)
Definition substring (s : jsstring) (a b : Z) : jsstring :=
  let n := len s in
  let a' := Z.min (Z.max a 0) n in
  let b' := Z.min (Z.max b 0) n in
  let lo := Z.min a' b' in
  let hi := Z.max a' b' in
  firstn (Z.to_nat (hi - lo)) (skipn (Z.to_nat lo) s).

(** [s.substring(a)] *)
Definition substringFrom (s : jsstring) (a : Z) : jsstring :=
  substring s a (len s).

(** [s.lastIndexOf(p)]: the greatest index at which [p] occurs, [-1]
    when there is none. *)
Fixpoint lastIndexOfFrom (p s : jsstring) (i best : Z) : Z :=
  match s with
  | [] => if startsWith p [] then i else best
  | _ :: s' =>
      lastIndexOfFrom p s' (i + 1) (if startsWith p s then i else best)
  end.

Definition lastIndexOf (p s : jsstring) : Z := lastIndexOfFrom p s 0 (-1).

(** [s.split(sep)] for a non-empty separator: the pieces between the
    leftmost, non-overlapping occurrences of [sep].  [skip] counts the
    code units of a matched separator that are still to be passed over,
    [acc] is the current piece, reversed. *)
Fixpoint splitAux (sep : jsstring) (skip : nat) (acc s : jsstring)
  : list jsstring :=
  match s with
  | [] => [rev acc]
  | c :: s' =>
      match skip with
      | S k => splitAux sep k acc s'
      | O =>
          if startsWith sep s
          then rev acc :: splitAux sep (length sep - 1) [] s'
          else splitAux sep 0 (c :: acc) s'
      end
  end.

Definition split (sep s : jsstring) : list jsstring := splitAux sep 0 [] s.

(** [a.join(sep)] *)
Fixpoint join (sep : jsstring) (a : list jsstring) : jsstring :=
  match a with
  | [] => []
  | [x] => x
  | x :: rest => x ++ sep ++ join sep rest
  end.

(** [a[i]], [None] standing for [undefined]. *)
Definition index {A} (a : list A) (i : nat) : option A := nth_error a i.

(** Decimal rendering of a non-negative integer, as a template literal
    does it. *)
Definition digitChar (d : N) : char16 := (48 + d)%N.

Fixpoint toDigits (fuel : nat) (n : N) (acc : jsstring) : jsstring :=
  match fuel with
  | O => acc
  | S f =>
      if (n <? 10)%N then digitChar n :: acc
      else toDigits f (n / 10)%N (digitChar (n mod 10)%N :: acc)
  end.

Definition numberToString (n : N) : jsstring :=
  toDigits (S (N.size_nat n)) n [].

End JS.

Import JS.

(** ** Messages handed to the delivery callback *)

Inductive Source := telegram | discord.

Record Content := { text : jsstring; source : Source }.

(** [if (params.callback) await params.callback(c)]: one call when the
    callback is present, none otherwise. *)
Definition callback (present : bool) (c : Content) : list Content :=
  if present then [c] else [].

(** ** The result regex

    [/X_RESULTS_START\n={80}\n([\s\S]*?)\n={80}\nX_RESULTS_END/]: a literal
    opening, a lazy capture of arbitrary code units, a literal closing. *)

Section ResultRegex.

Variable marker : jsstring.

Definition rule80 : jsstring := repeat 61%N 80.

Definition openLit : jsstring :=
  marker ++ lit "_RESULTS_START" ++ nl ++ rule80 ++ nl.

Definition closeLit : jsstring :=
  nl ++ rule80 ++ nl ++ marker ++ lit "_RESULTS_END".

(** The lazy group followed by the closing literal: the shortest capture
    is tried first, one more code unit on each backtrack. *)
Fixpoint lazyCapture (s : jsstring) : option jsstring :=
  if startsWith closeLit s then Some []
  else match s with
       | [] => None
       | c :: s' => option_map (cons c) (lazyCapture s')
       end.

Definition matchAt (s : jsstring) : option jsstring :=
  if startsWith openLit s
  then lazyCapture (skipn (length openLit) s)
  else None.

(** [stdout.match(re)]: start positions are tried from left to right;
    the result is capture group 1 of the first match. *)
Fixpoint regexMatch (s : jsstring) : option jsstring :=
  match matchAt s with
  | Some body => Some body
  | None => match s with
            | [] => None
            | _ :: s' => regexMatch s'
            end
  end.

(** [resultsMatch && resultsMatch[1]]: an empty capture is falsy. *)
Definition extract (stdout : jsstring) : option jsstring :=
  match regexMatch stdout with
  | Some body => if truthy body then Some body else None
  | None => None
  end.

End ResultRegex.

(** ** Telegram: [---] groups and paragraph messages *)

Module Telegram.

Definition marker : jsstring := lit "TELEGRAM".

(** The mutable locals of one pass over a group's lines. *)
Record GroupState := {
  currentQuestion : jsstring;
  currentAnswerLines : list jsstring;
  inAnswer : bool
}.

Definition initGroup : GroupState :=
  {| currentQuestion := []; currentAnswerLines := []; inAnswer := false |}.

(** [line.split(':::')[1]] *)
Definition field (line : jsstring) : option jsstring :=
  index (split (lit ":::") line) 1.

Definition pushAnswer (st : GroupState) (s : jsstring) : GroupState :=
  {| currentQuestion := currentQuestion st;
     currentAnswerLines := currentAnswerLines st ++ [s];
     inAnswer := inAnswer st |}.

Definition setInAnswer (st : GroupState) : GroupState :=
  {| currentQuestion := currentQuestion st;
     currentAnswerLines := currentAnswerLines st;
     inAnswer := true |}.

(** The body of [for (const line of lines)]. *)
Definition scanLine (st : GroupState) (line : jsstring) : GroupState :=
  if startsWith (lit "QUESTION_") line then
    match field line with
    | Some question =>
        if truthy question
        then {| currentQuestion := trim question;
                currentAnswerLines := currentAnswerLines st;
                inAnswer := inAnswer st |}
        else st
    | None => st
    end
  else if startsWith (lit "ANSWER_") line then
    setInAnswer
      match field line with
      | Some answerFirstLine =>
          if truthy answerFirstLine
          then pushAnswer st (trim answerFirstLine)
          else st
      | None => st
      end
  else if inAnswer st && truthy (trim line) then pushAnswer st (trim line)
  else st.

Definition scanGroup (pair : jsstring) : GroupState :=
  fold_left scanLine (split nl (trim pair)) initGroup.

(** [resultsBlock.split('---').filter(pair => pair.trim().length > 0)] *)
Definition qaPairs (resultsBlock : jsstring) : list jsstring :=
  filter (fun pair => (len (trim pair) >? 0)%Z)
         (split (lit "---") resultsBlock).

(** The body of [for (const pair of qaPairs)]: two independent pushes
    onto the [questions] and [answers] arrays. *)
Definition collect (qa : list jsstring * list jsstring) (pair : jsstring)
  : list jsstring * list jsstring :=
  let st := scanGroup pair in
  let questions :=
    if truthy (currentQuestion st)
    then fst qa ++ [currentQuestion st] else fst qa in
  let answers :=
    if (Z.of_nat (length (currentAnswerLines st)) >? 0)%Z
    then snd qa ++ [join (nl ++ nl) (currentAnswerLines st)] else snd qa in
  (questions, answers).

Definition parse (resultsBlock : jsstring)
  : list jsstring * list jsstring :=
  fold_left collect (qaPairs resultsBlock) ([], []).

Definition say (t : jsstring) : Content :=
  {| text := t; source := telegram |}.

Definition ordinal (i : nat) : jsstring :=
  numberToString (N.of_nat (i + 1)).

(** The messages of record [i]. *)
Definition sendRecord (cb : bool) (i : nat) (question answer : jsstring)
  : list Content :=
  let paragraphs :=
    filter (fun p => (len (trim p) >? 0)%Z) (split (nl ++ nl) answer) in
  match paragraphs with
  | [] =>
      callback cb
        (say (nl ++ ordinal i ++ lit ". " ++ question ++ nl ++ nl
              ++ lit "Answer: " ++ answer))
  | first :: rest =>
      callback cb
        (say (nl ++ ordinal i ++ lit ". " ++ question ++ nl ++ nl
              ++ lit "Answer: " ++ first))
      ++ flat_map
           (fun p => callback cb (say (lit "Continuation: " ++ p))) rest
  end.

(** [for (let i = 0; i < Math.min(questions.length, answers.length); i++)] *)
Fixpoint sendRecords (cb : bool) (i : nat) (questions answers : list jsstring)
  : list Content :=
  match questions, answers with
  | question :: questions', answer :: answers' =>
      sendRecord cb i question answer
      ++ sendRecords cb (S i) questions' answers'
  | _, _ => []
  end.

Definition warningSign : jsstring := [9888%N; 65039%N].

Definition noResultsNotice : jsstring :=
  warningSign
  ++ lit " Processing completed but no hypothesis results were generated."
  ++ nl ++ nl ++ lit "This might happen if:"
  ++ nl ++ lit "- No patterns were found in the image"
  ++ nl ++ lit "- The image text was too short"
  ++ nl ++ lit "- OCR extraction failed"
  ++ nl ++ nl ++ lit "Check the server logs for details.".

Definition noBlockNotice : jsstring :=
  warningSign
  ++ lit " Processing completed but results could not be parsed."
  ++ nl ++ nl ++ lit "Check the logs for detailed output.".

(** What the handler sends once the pipeline's [stdout] is known, as the
    sequence of arguments of the awaited [params.callback] calls. *)
Definition deliver (cb : bool) (stdout : jsstring) : list Content :=
  match extract marker stdout with
  | Some resultsBlock =>
      let (questions, answers) := parse resultsBlock in
      if ((Z.of_nat (length questions) >? 0)
          && (Z.of_nat (length answers) >? 0))%Z
      then sendRecords cb 0 questions answers
      else callback cb (say noResultsNotice)
  | None => callback cb (say noBlockNotice)
  end.

End Telegram.

(** ** Discord: line scan and length-bounded splitting *)

Section LengthBounded.

(** [DISCORD_MAX_LENGTH - 50] *)
Variable chunkSize : Z.

(** [breakPoint > chunkSize * 0.7], written in exact arithmetic: for the
    chunk size of the source the double product is the integer 1295. *)
Definition pastFraction (breakPoint : Z) : bool :=
  (10 * breakPoint >? 7 * chunkSize)%Z.

(** One turn of the [while] loop, up to [answerChunks.push(chunk)]. *)
Definition nextChunk (remainingAnswer : jsstring) : jsstring :=
  let chunk := substring remainingAnswer 0 chunkSize in
  if (len remainingAnswer >? chunkSize)%Z then
    let lastPeriod := lastIndexOf (lit ". ") chunk in
    let lastNewline := lastIndexOf nl chunk in
    let breakPoint := Z.max lastPeriod lastNewline in
    if pastFraction breakPoint
    then substring chunk 0 (breakPoint + 1)
    else chunk
  else chunk.

(** [remainingAnswer.substring(chunk.length).trim()] *)
Definition advance (remainingAnswer chunk : jsstring) : jsstring :=
  trim (substringFrom remainingAnswer (len chunk)).

(** [while (remainingAnswer.length > 0) ...]; [None] when the fuel runs
    out before the loop condition fails. *)
Fixpoint splitLoop (fuel : nat) (answerChunks : list jsstring)
         (remainingAnswer : jsstring) : option (list jsstring) :=
  if (len remainingAnswer >? 0)%Z then
    match fuel with
    | O => None
    | S fuel' =>
        let chunk := nextChunk remainingAnswer in
        splitLoop fuel' (answerChunks ++ [chunk])
                  (advance remainingAnswer chunk)
    end
  else Some answerChunks.

Definition splitAnswer (answer : jsstring) : option (list jsstring) :=
  splitLoop (length answer) [] answer.

End LengthBounded.

Module Discord.

Definition marker : jsstring := lit "DISCORD".

Definition DISCORD_MAX_LENGTH : Z := 1900.

Definition chunkSize : Z := DISCORD_MAX_LENGTH - 50.

Definition field (line : jsstring) : option jsstring :=
  index (split (lit ":::") line) 1.

(** The body of [for (const line of lines)]. *)
Definition scanLine (qa : list jsstring * list jsstring) (line : jsstring)
  : list jsstring * list jsstring :=
  if startsWith (lit "QUESTION_") line then
    match field line with
    | Some question =>
        if truthy question then (fst qa ++ [trim question], snd qa) else qa
    | None => qa
    end
  else if startsWith (lit "ANSWER_") line then
    match field line with
    | Some answer =>
        if truthy answer then (fst qa, snd qa ++ [trim answer]) else qa
    | None => qa
    end
  else qa.

Definition parse (resultsBlock : jsstring)
  : list jsstring * list jsstring :=
  fold_left scanLine (split nl resultsBlock) ([], []).

Definition say (t : jsstring) : Content :=
  {| text := t; source := discord |}.

Definition ordinal (i : nat) : jsstring :=
  numberToString (N.of_nat (i + 1)).

Definition messageText (i : nat) (question answer : jsstring) : jsstring :=
  (nl ++ ordinal i ++ lit ". " ++ question ++ nl ++ nl)
  ++ lit "Answer: " ++ answer.

Definition partOneHeader (i : nat) (question : jsstring) : jsstring :=
  nl ++ ordinal i ++ lit ". " ++ question ++ nl ++ nl
  ++ lit "Answer (part 1):".

(** [j === 0 ? '' : `Answer (part ${j + 1}): `] *)
Definition prefix (j : nat) : jsstring :=
  match j with
  | O => []
  | S _ => lit "Answer (part " ++ numberToString (N.of_nat (j + 1))
           ++ lit "): "
  end.

(** [for (let j = 0; j < answerChunks.length; j++)] *)
Fixpoint sendChunks (cb : bool) (j : nat) (answerChunks : list jsstring)
  : list Content :=
  match answerChunks with
  | [] => []
  | chunk :: rest =>
      callback cb (say (prefix j ++ chunk)) ++ sendChunks cb (S j) rest
  end.

(** The messages of record [i], without the separator. *)
Definition sendRecord (cb : bool) (i : nat) (question answer : jsstring)
  : option (list Content) :=
  if (len (messageText i question answer) >? DISCORD_MAX_LENGTH)%Z then
    match splitAnswer chunkSize answer with
    | Some answerChunks =>
        Some (callback cb (say (partOneHeader i question))
              ++ sendChunks cb 0 answerChunks)
    | None => None
    end
  else Some (callback cb (say (messageText i question answer))).

(** [if (i < questions.length - 1 && params.callback)]: [total] is
    [questions.length]. *)
Definition separator (cb : bool) (total : nat) (i : nat) : list Content :=
  if (Z.of_nat i <? Z.of_nat total - 1)%Z
  then callback cb (say (lit "---")) else [].

(** [for (let i = 0; i < Math.min(questions.length, answers.length); i++)] *)
Fixpoint sendRecords (cb : bool) (total i : nat)
         (questions answers : list jsstring) : option (list Content) :=
  match questions, answers with
  | question :: questions', answer :: answers' =>
      match sendRecord cb i question answer with
      | Some here =>
          match sendRecords cb total (S i) questions' answers' with
          | Some later => Some (here ++ separator cb total i ++ later)
          | None => None
          end
      | None => None
      end
  | _, _ => Some []
  end.

Definition warningSign : jsstring := [9888%N; 65039%N].

Definition completeNotice : jsstring :=
  [9989%N] ++ lit " Chronos Analysis Complete!" ++ nl ++ nl
  ++ [55357%N; 56522%N] ++ lit " Hypothesis Verification Results:".

Definition noResultsNotice : jsstring :=
  warningSign
  ++ lit " Processing completed but no hypothesis results were generated."
  ++ nl ++ nl ++ lit "This might happen if:"
  ++ nl ++ lit "- No patterns were found in the image"
  ++ nl ++ lit "- The image text was too short"
  ++ nl ++ lit "- OCR extraction failed"
  ++ nl ++ nl ++ lit "Check the server logs for details.".

Definition noBlockNotice : jsstring :=
  warningSign
  ++ lit " Processing completed but results could not be parsed."
  ++ nl ++ nl ++ lit "Check the logs for detailed output.".

Definition deliver (cb : bool) (stdout : jsstring)
  : option (list Content) :=
  match extract marker stdout with
  | Some resultsBlock =>
      let (questions, answers) := parse resultsBlock in
      if ((Z.of_nat (length questions) >? 0)
          && (Z.of_nat (length answers) >? 0))%Z
      then
        match sendRecords cb (length questions) 0 questions answers with
        | Some sent => Some (callback cb (say completeNotice) ++ sent)
        | None => None
        end
      else Some (callback cb (say noResultsNotice))
  | None => Some (callback cb (say noBlockNotice))
  end.

End Discord.

(** ** Awaited callback calls

    [params.callback(content)] returns a promise: the call starts with
    [Invoke content] and its promise settles with [Settle content].  The
    body of an [async] function is read as its sequence of callback calls:
    [Await content next] is [await params.callback(content)] followed by
    [next], and [Spawn content next] is a call whose promise is not
    awaited. *)
Inductive Event : Type :=
| Invoke (content : Content)
| Settle (content : Content).

Inductive Async : Type :=
| Done
| Await (content : Content) (next : Async)
| Spawn (content : Content) (next : Async).

(** A function is running, or suspended at an [await] until the call it
    waits for settles. *)
Inductive Task : Type :=
| Running (body : Async)
| Suspended (content : Content) (next : Async).

(** A task, and the calls that were started without [await] and have not
    settled yet. *)
Definition Config : Type := (Task * list Content)%type.

Inductive step : Config -> Event -> Config -> Prop :=
| step_await (content : Content) (next : Async) (background : list Content) :
    step (Running (Await content next), background)
         (Invoke content)
         (Suspended content next, background)
| step_resume (content : Content) (next : Async) (background : list Content) :
    step (Suspended content next, background)
         (Settle content)
         (Running next, background)
| step_spawn (content : Content) (next : Async) (background : list Content) :
    step (Running (Spawn content next), background)
         (Invoke content)
         (Running next, content :: background)
| step_settle (task : Task) (before : list Content) (content : Content)
              (after : list Content) :
    step (task, before ++ content :: after)
         (Settle content)
         (task, before ++ after).

Inductive runs : Config -> list Event -> Config -> Prop :=
| runs_here (c : Config) : runs c [] c
| runs_step (c : Config) (e : Event) (c' : Config) (trace : list Event)
            (c'' : Config) :
    step c e c' -> runs c' trace c'' -> runs c (e :: trace) c''.

(** [body] runs to its end with every call settled, and [trace] is what
    happened on the way. *)
Definition finishes (body : Async) (trace : list Event) : Prop :=
  runs (Running body, []) trace (Running Done, []).

(** The arguments of the calls of a body, in program order. *)
Fixpoint calls (body : Async) : list Content :=
  match body with
  | Done => []
  | Await content next => content :: calls next
  | Spawn content next => content :: calls next
  end.

(** Every call of the body is awaited. *)
Fixpoint awaitsAll (body : Async) : Prop :=
  match body with
  | Done => True
  | Await _ next => awaitsAll next
  | Spawn _ _ => False
  end.

(** Each call invoked and settled before the next one is invoked. *)
Definition awaited (contents : list Content) : list Event :=
  flat_map (fun content => [Invoke content; Settle content]) contents.

(** The number of calls invoked and not settled. *)
Fixpoint pending (trace : list Event) : Z :=
  match trace with
  | [] => 0
  | Invoke _ :: trace' => pending trace' + 1
  | Settle _ :: trace' => pending trace' - 1
  end.

(** No call is invoked while another one is pending. *)
Definition overlapFree (trace : list Event) : Prop :=
  forall before content after,
    trace = before ++ Invoke content :: after -> pending before = 0%Z.

(** [trace] is the calls of [blocks], block after block and call after
    call within a block, each call settled before the next one is invoked:
    for two blocks, the earlier one's calls are all settled before the
    first call of the later one is invoked, with exactly the blocks in
    front of, between and behind them around. *)
Definition oneAtATime (blocks : list (list Content)) (trace : list Event)
  : Prop :=
  trace = awaited (concat blocks)
  /\ overlapFree trace
  /\ forall i j first second,
       i < j ->
       nth_error blocks i = Some first ->
       nth_error blocks j = Some second ->
       trace = awaited (concat (firstn i blocks))
               ++ awaited first
               ++ awaited (concat (firstn (j - S i) (skipn (S i) blocks)))
               ++ awaited second
               ++ awaited (concat (skipn (S j) blocks)).

(** The start of the first message of record [i], in both handlers:
    [`\n${i + 1}. ${question}\n\nAnswer] *)
Definition numberedQuestion (i : nat) (question : jsstring) : jsstring :=
  nl ++ numberToString (N.of_nat (i + 1)) ++ lit ". " ++ question
  ++ nl ++ nl ++ lit "Answer".

(** The send loop of the Telegram handler, with its [await]s. *)
Module TelegramAsync.

(** [if (params.callback) { await params.callback(content); }] *)
Definition send (cb : bool) (content : Content) (next : Async) : Async :=
  if cb then Await content next else next.

(** [for (let j = 1; j < paragraphs.length; j++)] *)
Fixpoint sendContinuations (cb : bool) (rest : list jsstring) (next : Async)
  : Async :=
  match rest with
  | [] => next
  | p :: rest' =>
      send cb (Telegram.say (lit "Continuation: " ++ p))
           (sendContinuations cb rest' next)
  end.

(** The body of the loop over the records, for record [i]. *)
Definition sendRecord (cb : bool) (i : nat) (question answer : jsstring)
           (next : Async) : Async :=
  let paragraphs :=
    filter (fun p => (len (trim p) >? 0)%Z) (split (nl ++ nl) answer) in
  match paragraphs with
  | [] =>
      send cb
        (Telegram.say (nl ++ Telegram.ordinal i ++ lit ". " ++ question
                       ++ nl ++ nl ++ lit "Answer: " ++ answer))
        next
  | first :: rest =>
      send cb
        (Telegram.say (nl ++ Telegram.ordinal i ++ lit ". " ++ question
                       ++ nl ++ nl ++ lit "Answer: " ++ first))
        (sendContinuations cb rest next)
  end.

(** [for (let i = 0; i < Math.min(questions.length, answers.length); i++)] *)
Fixpoint sendRecords (cb : bool) (i : nat) (questions answers : list jsstring)
         (next : Async) : Async :=
  match questions, answers with
  | question :: questions', answer :: answers' =>
      sendRecord cb i question answer
        (sendRecords cb (S i) questions' answers' next)
  | _, _ => next
  end.

End TelegramAsync.

(** The send loop of the Discord handler, with its [await]s; [None] when
    the chunking loop of a record runs out of fuel. *)
Module DiscordAsync.

(** [if (params.callback) { await params.callback(content); }] *)
Definition send (cb : bool) (content : Content) (next : Async) : Async :=
  if cb then Await content next else next.

(** [for (let j = 0; j < answerChunks.length; j++)] *)
Fixpoint sendChunks (cb : bool) (j : nat) (answerChunks : list jsstring)
         (next : Async) : Async :=
  match answerChunks with
  | [] => next
  | chunk :: rest =>
      send cb (Discord.say (Discord.prefix j ++ chunk))
           (sendChunks cb (S j) rest next)
  end.

Definition sendRecord (cb : bool) (i : nat) (question answer : jsstring)
           (next : Async) : option Async :=
  if (len (Discord.messageText i question answer)
      >? Discord.DISCORD_MAX_LENGTH)%Z then
    match splitAnswer Discord.chunkSize answer with
    | Some answerChunks =>
        Some (send cb (Discord.say (Discord.partOneHeader i question))
                   (sendChunks cb 0 answerChunks next))
    | None => None
    end
  else Some (send cb (Discord.say (Discord.messageText i question answer))
                  next).

(** [if (i < questions.length - 1 && params.callback)
       { await params.callback({ text: '---', ... }); }] *)
Definition separator (cb : bool) (total : nat) (i : nat) (next : Async)
  : Async :=
  if (Z.of_nat i <? Z.of_nat total - 1)%Z
  then send cb (Discord.say (lit "---")) next else next.

(** [for (let i = 0; i < Math.min(questions.length, answers.length); i++)] *)
Fixpoint sendRecords (cb : bool) (total i : nat)
         (questions answers : list jsstring) (next : Async) : option Async :=
  match questions, answers with
  | question :: questions', answer :: answers' =>
      match sendRecords cb total (S i) questions' answers' next with
      | Some later =>
          sendRecord cb i question answer (separator cb total i later)
      | None => None
      end
  | _, _ => Some next
  end.

End DiscordAsync.

(** Two calls that are not awaited. *)
Definition twoSpawned : Async :=
  Spawn (Telegram.say (lit "one")) (Spawn (Telegram.say (lit "two")) Done).

(** ** Properties, reference definitions and sample inputs *)

(** [Reassembles gap chunks s]: [s] is the chunks in order, each followed
    by a (possibly empty) stretch of code units accepted by [gap]. *)
Inductive Reassembles (gap : jsstring -> Prop)
  : list jsstring -> jsstring -> Prop :=
| Reassembles_nil : Reassembles gap [] []
| Reassembles_cons (chunk g : jsstring) (chunks : list jsstring)
                   (rest : jsstring) :
    gap g -> Reassembles gap chunks rest ->
    Reassembles gap (chunk :: chunks) (chunk ++ g ++ rest).

(** A run of white space of any length. *)
Definition whiteRun (g : jsstring) : Prop :=
  Forall (fun c => isWhiteSpace c = true) g.

(** Nothing, or one white-space code unit. *)
Definition atMostOneWhite (g : jsstring) : Prop :=
  whiteRun g /\ length g <= 1.

(** An answer whose hard cut falls in front of three blanks. *)
Definition blanksAfterCut : jsstring := repeat 97%N 1850 ++ lit "   b".

(** [p] occurs in [s] at offset [i]. *)
Definition occursAt (p s : jsstring) (i : Z) : Prop :=
  (0 <= i)%Z /\ startsWith p (skipn (Z.to_nat i) s) = true.

(** A breakpoint of a candidate chunk: the offset of a ['. '] or of a
    newline. *)
Definition isBreakpoint (chunk : jsstring) (i : Z) : Prop :=
  occursAt (lit ". ") chunk i \/ occursAt nl chunk i.

Definition lastBreakpoint (chunk : jsstring) (i : Z) : Prop :=
  isBreakpoint chunk i /\ forall k, isBreakpoint chunk k -> (k <= i)%Z.

(** [Math.max(lastPeriod, lastNewline)] *)
Definition breakPointOf (chunk : jsstring) : Z :=
  Z.max (lastIndexOf (lit ". ") chunk) (lastIndexOf nl chunk).

(** An answer whose only breakpoint sits at offset 1295, which is exactly
    0.7 of the chunk size 1850. *)
Definition periodAtFraction : jsstring :=
  repeat 97%N 1295 ++ lit ". " ++ repeat 98%N 600.

(** A question of 1900 code units. *)
Definition longQuestion : jsstring := repeat 113%N 1900.

(** [s.includes(p)] *)
Fixpoint includes (p s : jsstring) : bool :=
  startsWith p s
  || match s with
     | [] => false
     | _ :: s' => includes p s'
     end.

(** The closing literal is nowhere in the output. *)
Definition noClosing (marker stdout : jsstring) : Prop :=
  forall pre post, stdout <> pre ++ closeLit marker ++ post.

(** The output has no opening literal followed, at any distance, by a
    closing literal. *)
Definition noPattern (marker stdout : jsstring) : Prop :=
  forall pre body post,
    stdout <> pre ++ openLit marker ++ body ++ closeLit marker ++ post.

(** Output with the opening marker and a record, cut off before the
    closing marker. *)
Definition cutOffOutput : jsstring :=
  lit "Chronos" ++ nl ++ rule80 ++ nl ++ openLit Telegram.marker
  ++ lit "QUESTION_1:::What caused X?" ++ nl
  ++ lit "ANSWER_1:::Because Y." ++ nl ++ lit "---" ++ nl.


Definition scenarioBlock : jsstring :=
  lit "QUESTION_1:::What caused X?" ++ nl ++ lit "ANSWER_1:::Because Y.".

(** The block as the pipeline prints it, between the marker lines. *)
Definition scenarioOutput : jsstring :=
  rule80 ++ nl ++ openLit Telegram.marker ++ scenarioBlock
  ++ closeLit Telegram.marker ++ nl ++ rule80 ++ nl.

(** The record count in the specification's words, for comparison with
    the handler: a group counts when one of its lines starts with
    [QUESTION_] and one starts with [ANSWER_]. *)
Definition specHasBothTags (group : jsstring) : bool :=
  let lines := split nl (trim group) in
  existsb (startsWith (lit "QUESTION_")) lines
  && existsb (startsWith (lit "ANSWER_")) lines.

Definition specRecordCount (resultsBlock : jsstring) : nat :=
  length (filter specHasBothTags (Telegram.qaPairs resultsBlock)).

Definition wrapTelegram (resultsBlock : jsstring) : jsstring :=
  rule80 ++ nl ++ openLit Telegram.marker ++ resultsBlock
  ++ closeLit Telegram.marker ++ nl ++ rule80 ++ nl.

(** A first group with a question only, then a group with an answer only. *)
Definition questionThenAnswer : jsstring :=
  lit "QUESTION_1:::Q1" ++ nl ++ lit "---" ++ nl
  ++ lit "ANSWER_2:::A2" ++ nl ++ lit "---".

(** A first group with a question only, then a complete group. *)
Definition questionThenPair : jsstring :=
  lit "QUESTION_1:::Q1" ++ nl ++ lit "---" ++ nl
  ++ lit "QUESTION_2:::Q2" ++ nl ++ lit "ANSWER_2:::A2" ++ nl ++ lit "---".

(** A single group whose question line holds [---]. *)
Definition dashesInQuestion : jsstring :=
  lit "QUESTION_1:::Is it A---B?" ++ nl ++ lit "ANSWER_1:::Yes." ++ nl
  ++ lit "---".

(** ** The handlers around the pipeline call *)

(** How the part of a handler's [try] block after the acknowledgement
    ends: the pipeline returned its standard output, or something threw
    (a failed download, a non-zero exit, the timeout) and [catch] reports
    the message. *)
Inductive Outcome :=
| Completed (stdout : jsstring)
| Failed (message : jsstring).

Definition ackNotice : jsstring :=
  [9203%N] ++ lit " Processing your image through Chronos pipeline..."
  ++ nl ++ nl ++ lit "This will:"
  ++ nl ++ lit "1. Extract text (OCR)"
  ++ nl ++ lit "2. Build knowledge graph"
  ++ nl ++ lit "3. Discover patterns"
  ++ nl ++ lit "4. Verify hypotheses"
  ++ nl ++ nl ++ lit "This may take 1-2 minutes. Please wait...".

Definition errorNotice (message : jsstring) : jsstring :=
  [10060%N] ++ lit " Error processing image: " ++ message
  ++ nl ++ nl ++ lit "Please check the logs for more details.".

(** The [TELEGRAM_MESSAGE_RECEIVED] handler; [photos] is
    [originalMessage.photo.length], 0 also standing for a message without
    a photo array. *)
Definition telegramHandle (photos : nat) (cb : bool) (outcome : Outcome)
  : list Content :=
  if (Z.of_nat photos >? 0)%Z then
    callback cb (Telegram.say ackNotice)
    ++ match outcome with
       | Completed stdout => Telegram.deliver cb stdout
       | Failed message => callback cb (Telegram.say (errorNotice message))
       end
  else [].

(** [attachment.contentType?.startsWith('image/')] *)
Definition isImageType (contentType : option jsstring) : bool :=
  match contentType with
  | Some t => startsWith (lit "image/") t
  | None => false
  end.

(** The [DISCORD_MESSAGE_RECEIVED] handler; [contentTypes] holds the
    [contentType] of each attachment of the message. *)
Definition discordHandle (contentTypes : list (option jsstring)) (cb : bool)
           (outcome : Outcome) : option (list Content) :=
  if (Z.of_nat (length contentTypes) >? 0)%Z then
    let imageAttachments := filter isImageType contentTypes in
    if (Z.of_nat (length imageAttachments) =? 0)%Z then Some []
    else
      match outcome with
      | Completed stdout =>
          match Discord.deliver cb stdout with
          | Some sent => Some (callback cb (Discord.say ackNotice) ++ sent)
          | None => None
          end
      | Failed message =>
          Some (callback cb (Discord.say ackNotice)
                ++ callback cb (Discord.say (errorNotice message)))
      end
  else Some [].

(** The chunks the splitting loop pushes, turn by turn. *)
Inductive LoopRun (chunkSize : Z) : jsstring -> list jsstring -> Prop :=
| LoopRun_done : LoopRun chunkSize [] []
| LoopRun_turn (remainingAnswer : jsstring) (chunks : list jsstring) :
    remainingAnswer <> [] ->
    LoopRun chunkSize
            (advance remainingAnswer (nextChunk chunkSize remainingAnswer))
            chunks ->
    LoopRun chunkSize remainingAnswer
            (nextChunk chunkSize remainingAnswer :: chunks).

(** A string that is empty or starts with a code unit that is not white
    space. *)
Definition cleanStart (s : jsstring) : Prop :=
  match s with
  | [] => True
  | c :: _ => isWhiteSpace c = false
  end.

(** A check that [p] starts at none of the first [n] offsets of [s]. *)
Fixpoint startsNowhere (p s : jsstring) (n : nat) {struct n} : bool :=
  match n with
  | O => true
  | S n' =>
      negb (startsWith p s)
      && match s with
         | [] => true
         | _ :: s' => startsNowhere p s' n'
         end
  end.





(** ** The producer's result section

    The [print] calls with which [discord_main.py] writes the results to
    its standard output; [telegram_main.py] differs in the marker only. *)

Module Producer.

(** [f"QUESTION_{i}:::{result['question']}"] *)
Definition questionLine (i : nat) (question : jsstring) : jsstring :=
  lit "QUESTION_" ++ numberToString (N.of_nat i) ++ lit ":::" ++ question.

(** [f"ANSWER_{i}:::{result['owl_answer']}"] *)
Definition answerLine (i : nat) (answer : jsstring) : jsstring :=
  lit "ANSWER_" ++ numberToString (N.of_nat i) ++ lit ":::" ++ answer.

(** The lines printed by [for i, result in enumerate(results, 1)], from
    index [i] on. *)
Fixpoint resultLines (i : nat) (results : list (jsstring * jsstring))
  : list jsstring :=
  match results with
  | [] => []
  | result :: rest =>
      questionLine i (fst result) :: answerLine i (snd result)
      :: lit "---" :: resultLines (S i) rest
  end.

(** [print(line)] for each line: the line and a newline. *)
Definition printed (lines : list jsstring) : jsstring :=
  concat (map (fun line => line ++ nl) lines).

(** From [print("\n" + "="*80)] to the last [print("="*80)]. *)
Definition resultsSection (marker : jsstring)
           (results : list (jsstring * jsstring)) : jsstring :=
  printed [nl ++ rule80; marker ++ lit "_RESULTS_START"; rule80]
  ++ printed (resultLines 1 results)
  ++ printed [rule80; marker ++ lit "_RESULTS_END"; rule80].

End Producer.

(** [s] holds no code unit [c]. *)
Definition lacks (c : char16) (s : jsstring) : bool :=
  forallb (fun x => negb (eqb16 x c)) s.

(** A value that survives the trip through a tagged line: not empty, on
    one line, without the field separator. *)
Definition plainValue (s : jsstring) : Prop :=
  s <> [] /\ lacks LF s = true /\ includes (lit ":::") s = false.







(** A line that the Telegram scan keeps as it is: not empty, without
    white space at its ends, without newline, without three dashes in a
    row. *)
Definition tidy (s : jsstring) : Prop :=
  s <> [] /\ trim s = s /\ lacks LF s = true
  /\ includes (lit "---") s = false.

(** A further line of an answer: tidy, not taken for a tag line, and not
    starting like the rule of the closing marker. *)
Definition continuationLine (s : jsstring) : Prop :=
  tidy s
  /\ startsWith (lit "QUESTION_") s = false
  /\ startsWith (lit "ANSWER_") s = false
  /\ startsWith (lit "=") s = false.

(** A result whose question is one tidy line and whose answer is one or
    more lines, the first on the tag line; neither the question nor the
    first answer line holds the field separator. *)
Definition multiLineResult (r : jsstring * list jsstring) : Prop :=
  tidy (fst r) /\ includes (lit ":::") (fst r) = false
  /\ match snd r with
     | [] => False
     | first :: more =>
         tidy first /\ includes (lit ":::") first = false
         /\ Forall continuationLine more
     end.

(** The lines the producer prints for results whose answers are given
    line by line. *)
Fixpoint spreadLines (i : nat) (results : list (jsstring * list jsstring))
  : list jsstring :=
  match results with
  | [] => []
  | r :: rest =>
      (Producer.questionLine i (fst r)
       :: match snd r with
          | [] => [Producer.answerLine i []]
          | first :: more => Producer.answerLine i first :: more
          end)
      ++ lit "---" :: spreadLines (S i) rest
  end.

(** The result as the producer gets it: the answer's lines joined by
    newlines into one string. *)
Definition flatResult (r : jsstring * list jsstring) : jsstring * jsstring :=
  (fst r, join nl (snd r)).









(** ** The image action ([telegramImageAction]) *)

Module ImageAction.

(** The fields of an attachment the action reads. *)
Record Attachment := {
  type : option jsstring;
  contentType : option jsstring;
  url : jsstring;
  description : option jsstring
}.

(** [message.content.attachments]: [Nullish] is [undefined] or [null];
    [NotAnArray] is any other value that is not an array (and has no
    [filter] method, so that [attachments?.filter(...)] throws a
    [TypeError]); [Items] is an array of attachments. *)
Inductive Attachments :=
| Nullish
| NotAnArray
| Items (items : list Attachment).

(** How the promise of [callback(responseContent)] settles; a callback that
    throws counts as [Rejected]. *)
Inductive CallbackResult :=
| Resolved
| Rejected.

(** [a === b] on strings *)
Fixpoint sameString (a b : jsstring) : bool :=
  match a, b with
  | [], [] => true
  | x :: a', y :: b' => eqb16 x y && sameString a' b'
  | _, _ => false
  end.

(** [attachment.type === 'image' ||
     attachment.contentType?.startsWith('image/')] *)
Definition isImage (attachment : Attachment) : bool :=
  match type attachment with
  | Some t => sameString t (lit "image")
  | None => false
  end
  || isImageType (contentType attachment).

Definition validate (attachments : Attachments) : bool :=
  match attachments with
  | Items items => existsb isImage items
  | _ => false
  end.

(** The lines added to [responseText] for image [idx]. *)
Definition imageEntry (idx : nat) (img : Attachment) : jsstring :=
  lit "Image " ++ numberToString (N.of_nat (idx + 1)) ++ lit ":" ++ nl
  ++ lit "- URL: " ++ url img ++ nl
  ++ match description img with
     | Some d =>
         if truthy d && negb (sameString d (lit "No description available"))
         then lit "- Description: " ++ d ++ nl
         else []
     | None => []
     end
  ++ nl.

Fixpoint imageEntries (idx : nat) (images : list Attachment) : jsstring :=
  match images with
  | [] => []
  | img :: rest => imageEntry idx img ++ imageEntries (S idx) rest
  end.

Definition responseText (images : list Attachment) : jsstring :=
  lit "I received " ++ numberToString (N.of_nat (length images))
  ++ lit " image(s):" ++ nl ++ nl ++ imageEntries 0 images.

(** What the handler does: the texts passed to [callback], and the [text]
    and [success] fields of the result it returns. *)
Record Result := {
  sent : list jsstring;
  resultText : jsstring;
  success : bool
}.

(** The result of the [catch] block. *)
Definition failed (sent : list jsstring) : Result :=
  {| sent := sent; resultText := lit "Failed to process image";
     success := false |}.

(** The result of [if (!imageAttachments || imageAttachments.length === 0)]. *)
Definition noImages : Result :=
  {| sent := []; resultText := lit "No images found in message";
     success := false |}.

(** [handler], for a message with the given attachments and a callback
    whose promise settles as [outcome]: [await callback(responseContent)]
    sits inside the [try], so a rejection ends in the [catch] block after
    the call was made. *)
Definition handler (attachments : Attachments) (outcome : CallbackResult)
  : Result :=
  match attachments with
  | NotAnArray => failed []
  | Nullish => noImages
  | Items items =>
      let imageAttachments := filter isImage items in
      if (Z.of_nat (length imageAttachments) =? 0)%Z then noImages
      else
        match outcome with
        | Resolved =>
            {| sent := [responseText imageAttachments];
               resultText :=
                 lit "Successfully processed "
                 ++ numberToString (N.of_nat (length imageAttachments))
                 ++ lit " image(s)";
               success := true |}
        | Rejected => failed [responseText imageAttachments]
        end
  end.

End ImageAction.

(** ** Facts about the string primitives *)

Section StringFacts.

Lemma len_nonneg (s : jsstring) : (0 <= len s)%Z.
Proof. unfold len; lia. Qed.

Lemma len_app (s t : jsstring) : len (s ++ t) = (len s + len t)%Z.
Proof. unfold len; rewrite length_app; lia. Qed.

Lemma substring_prefix (s : jsstring) (k : Z) :
  substring s 0 k = firstn (Z.to_nat k) s.
Proof.
  unfold substring.
  pose proof (len_nonneg s) as Hn.
  replace (Z.min (Z.max 0 0) (len s)) with 0%Z by lia.
  set (b := Z.min (Z.max k 0) (len s)).
  replace (Z.min 0 b) with 0%Z by (subst b; lia).
  replace (Z.max 0 b - 0)%Z with b by (subst b; lia).
  cbn [Z.to_nat skipn].
  destruct (Z_le_gt_dec k (len s)) as [Hk | Hk].
  - replace b with (Z.max k 0) by (subst b; lia).
    f_equal; lia.
  - replace b with (len s) by (subst b; lia).
    unfold len in *.
    rewrite Nat2Z.id, firstn_all.
    symmetry; apply firstn_all2; lia.
Qed.

Lemma substringFrom_suffix (s : jsstring) (k : Z) :
  substringFrom s k = skipn (Z.to_nat k) s.
Proof.
  unfold substringFrom, substring.
  pose proof (len_nonneg s) as Hn.
  replace (Z.min (Z.max (len s) 0) (len s)) with (len s) by lia.
  set (a := Z.min (Z.max k 0) (len s)).
  replace (Z.min a (len s)) with a by (subst a; lia).
  replace (Z.max a (len s)) with (len s) by (subst a; lia).
  assert (Hlen : length (skipn (Z.to_nat a) s) = Z.to_nat (len s - a)).
  { rewrite length_skipn; unfold len in *; subst a; lia. }
  rewrite <- Hlen, firstn_all.
  destruct (Z_le_gt_dec k (len s)) as [Hk | Hk].
  - f_equal; subst a; lia.
  - replace a with (len s) by (subst a; lia).
    unfold len in *.
    rewrite Nat2Z.id, !skipn_all2; trivial; lia.
Qed.

(** [trimStart] removes a run of white space at the front. *)
Lemma trimStart_split (s : jsstring) :
  exists w, Forall (fun c => isWhiteSpace c = true) w /\ s = w ++ trimStart s.
Proof.
  induction s as [| c s IH]; cbn [trimStart].
  - exists []; split; [constructor | reflexivity].
  - destruct (isWhiteSpace c) eqn:Hc.
    + destruct IH as [w [Hw Hs]].
      exists (c :: w); split; [constructor; assumption |].
      cbn; f_equal; exact Hs.
    + exists []; split; [constructor | reflexivity].
Qed.

Lemma trimEnd_split (s : jsstring) :
  exists w, Forall (fun c => isWhiteSpace c = true) w /\ s = trimEnd s ++ w.
Proof.
  unfold trimEnd.
  destruct (trimStart_split (rev s)) as [w [Hw Hs]].
  exists (rev w); split.
  - apply Forall_rev; exact Hw.
  - rewrite <- rev_app_distr, <- Hs, rev_involutive; reflexivity.
Qed.

(** [trim] removes a run of white space at each end and nothing else. *)
Lemma trim_split (s : jsstring) :
  exists w1 w2,
    Forall (fun c => isWhiteSpace c = true) w1
    /\ Forall (fun c => isWhiteSpace c = true) w2
    /\ s = w1 ++ trim s ++ w2.
Proof.
  unfold trim.
  destruct (trimStart_split s) as [w1 [H1 E1]].
  destruct (trimEnd_split (trimStart s)) as [w2 [H2 E2]].
  exists w1, w2; repeat split; trivial.
  rewrite <- E2; exact E1.
Qed.

Lemma trim_length (s : jsstring) : length (trim s) <= length s.
Proof.
  destruct (trim_split s) as [w1 [w2 [_ [_ E]]]].
  rewrite E at 2; rewrite !length_app; lia.
Qed.

End StringFacts.

(** ** Reassembling an answer from its chunks *)

Section ReassemblesFacts.

Variable gap : jsstring -> Prop.
Hypothesis gap_app : forall g1 g2, gap g1 -> gap g2 -> gap (g1 ++ g2).

Lemma Reassembles_trailing (chunks : list jsstring) (adv w2 : jsstring) :
  Reassembles gap chunks adv -> gap w2 ->
  forall chunk w1, gap w1 ->
    Reassembles gap (chunk :: chunks) (chunk ++ w1 ++ adv ++ w2).
Proof.
  intros HR Hw2.
  induction HR as [| c g cs rest Hg HR IH]; intros chunk w1 Hw1.
  - cbn [app].
    replace (chunk ++ w1 ++ w2) with (chunk ++ (w1 ++ w2) ++ [])
      by (rewrite app_nil_r; reflexivity).
    constructor; [apply gap_app; assumption | constructor].
  - replace ((c ++ g ++ rest) ++ w2) with (c ++ g ++ rest ++ w2)
      by (rewrite <- !app_assoc; reflexivity).
    constructor; [assumption |].
    apply IH; assumption.
Qed.

End ReassemblesFacts.

Lemma whiteRun_app (g1 g2 : jsstring) :
  whiteRun g1 -> whiteRun g2 -> whiteRun (g1 ++ g2).
Proof. unfold whiteRun; intros; apply Forall_app; split; assumption. Qed.

(** With gaps of at most [b] code units the answer is at most [b] per chunk
    longer than the chunks together. *)
Lemma Reassembles_length (gap : jsstring -> Prop) (b : nat) :
  (forall g, gap g -> length g <= b) ->
  forall chunks s, Reassembles gap chunks s ->
    length s <= length (concat chunks) + b * length chunks.
Proof.
  intros Hb chunks s HR.
  induction HR as [| c g cs rest Hg HR IH].
  - cbn; lia.
  - cbn [concat length]. rewrite !length_app.
    specialize (Hb _ Hg). lia.
Qed.

(** ** Facts about the splitting loop *)

Section LengthBoundedFacts.

Variable chunkSize : Z.
Hypothesis chunkSize_pos : (0 < chunkSize)%Z.

Lemma firstn_length_firstn (k : nat) (s : jsstring) :
  firstn (length (firstn k s)) s = firstn k s.
Proof.
  rewrite length_firstn, <- firstn_firstn, firstn_all. reflexivity.
Qed.

(** Every chunk is a non-empty prefix of what remains, within the size. *)
Lemma nextChunk_prefix (remainingAnswer : jsstring) :
  exists k : nat,
    0 < k /\ (Z.of_nat k <= chunkSize)%Z
    /\ nextChunk chunkSize remainingAnswer = firstn k remainingAnswer.
Proof.
  unfold nextChunk.
  rewrite substring_prefix.
  set (chunk := firstn (Z.to_nat chunkSize) remainingAnswer).
  assert (Hard : exists k : nat,
             0 < k /\ (Z.of_nat k <= chunkSize)%Z
             /\ chunk = firstn k remainingAnswer).
  { exists (Z.to_nat chunkSize); repeat split; trivial; lia. }
  destruct (len remainingAnswer >? chunkSize)%Z; trivial.
  set (breakPoint := Z.max _ _).
  unfold pastFraction.
  destruct (10 * breakPoint >? 7 * chunkSize)%Z eqn:Hbp; trivial.
  apply Z.gtb_lt in Hbp.
  rewrite substring_prefix. subst chunk.
  rewrite firstn_firstn.
  exists (Nat.min (Z.to_nat (breakPoint + 1)) (Z.to_nat chunkSize)).
  repeat split; trivial; lia.
Qed.

Lemma nextChunk_nonempty (remainingAnswer : jsstring) :
  remainingAnswer <> [] -> nextChunk chunkSize remainingAnswer <> [].
Proof.
  intros Hne.
  destruct (nextChunk_prefix remainingAnswer) as [k [Hk [_ E]]].
  rewrite E.
  destruct remainingAnswer; [congruence |].
  destruct k; [lia | discriminate].
Qed.

Lemma nextChunk_len (remainingAnswer : jsstring) :
  (len (nextChunk chunkSize remainingAnswer) <= chunkSize)%Z.
Proof.
  destruct (nextChunk_prefix remainingAnswer) as [k [_ [Hk E]]].
  rewrite E. unfold len. rewrite length_firstn. lia.
Qed.

(** What one turn consumes: the chunk and the white space that [trim]
    strips around the new remainder. *)
Lemma advance_split (remainingAnswer : jsstring) :
  let chunk := nextChunk chunkSize remainingAnswer in
  exists w1 w2,
    whiteRun w1 /\ whiteRun w2
    /\ remainingAnswer
       = chunk ++ w1 ++ advance remainingAnswer chunk ++ w2.
Proof.
  intros chunk.
  destruct (nextChunk_prefix remainingAnswer) as [k [_ [_ E]]].
  unfold advance.
  rewrite substringFrom_suffix. unfold len. rewrite Nat2Z.id.
  destruct (trim_split (skipn (length chunk) remainingAnswer))
    as [w1 [w2 [H1 [H2 Es]]]].
  exists w1, w2; repeat split; trivial.
  rewrite <- Es.
  replace chunk with (firstn (length chunk) remainingAnswer) at 1.
  - symmetry; apply firstn_skipn.
  - subst chunk. rewrite E. apply firstn_length_firstn.
Qed.

Lemma advance_shorter (remainingAnswer : jsstring) :
  remainingAnswer <> [] ->
  length (advance remainingAnswer (nextChunk chunkSize remainingAnswer))
  < length remainingAnswer.
Proof.
  intros Hne.
  pose proof (nextChunk_nonempty Hne) as Hc.
  destruct (advance_split remainingAnswer) as [w1 [w2 [_ [_ E]]]].
  cbv zeta in E.
  apply (f_equal (@length _)) in E.
  rewrite !length_app in E.
  destruct (nextChunk chunkSize remainingAnswer); [congruence |].
  cbn [length] in E. lia.
Qed.

Lemma len_gtb_0 (s : jsstring) :
  (len s >? 0)%Z = match s with [] => false | _ :: _ => true end.
Proof.
  destruct s; [reflexivity |].
  unfold len. cbn [length]. apply Z.gtb_lt. lia.
Qed.

(** The loop with fuel for one turn per code unit: it returns, and what
    it appends reassembles the remainder. *)
Lemma splitLoop_spec (fuel : nat) :
  forall answerChunks remainingAnswer,
    length remainingAnswer <= fuel ->
    exists chunks,
      splitLoop chunkSize fuel answerChunks remainingAnswer
      = Some (answerChunks ++ chunks)
      /\ Reassembles whiteRun chunks remainingAnswer
      /\ Forall (fun c => c <> [] /\ (len c <= chunkSize)%Z) chunks
      /\ length chunks <= length remainingAnswer.
Proof.
  induction fuel as [| fuel IH]; intros acc rem Hfuel.
  - destruct rem; [| cbn in Hfuel; lia].
    exists []; cbn. rewrite app_nil_r.
    repeat split; constructor.
  - cbn [splitLoop]. rewrite len_gtb_0.
    destruct rem as [| c rem'] eqn:Erem.
    + exists []; cbn. rewrite app_nil_r.
      repeat split; constructor.
    + rewrite <- Erem in *.
      assert (Hne : rem <> []) by (rewrite Erem; discriminate).
      pose proof (advance_shorter Hne) as Hsh.
      pose proof (advance_split rem) as [w1 [w2 [Hw1 [Hw2 E]]]].
      cbv zeta in E.
      set (chunk := nextChunk chunkSize rem) in *.
      destruct (IH (acc ++ [chunk]) (advance rem chunk)) as
        [chunks [Hrun [HR [Hall Hcnt]]]]; [lia |].
      exists (chunk :: chunks).
      split; [rewrite Hrun, <- app_assoc; reflexivity |].
      split.
      { rewrite E at 1.
        apply Reassembles_trailing; trivial. apply whiteRun_app. }
      split.
      { constructor; trivial. split.
        - apply nextChunk_nonempty; assumption.
        - apply nextChunk_len. }
      cbn [length]. lia.
Qed.

End LengthBoundedFacts.

(** ** The Discord splitting loop: termination and reassembly *)

Lemma chunkSize_pos : (0 < Discord.chunkSize)%Z.
Proof. reflexivity. Qed.

(** The double product [chunkSize * 0.7] of the source is the integer 1295,
    so the exact comparison of [pastFraction] is the one JavaScript makes. *)
Example chunkSize_fraction :
  PrimFloat.eqb (PrimFloat.mul 1850 0x1.6666666666666p-1) 1295 = true.
Proof. reflexivity. Qed.

Lemma sendChunks_labels (chunks : list jsstring) :
  forall j,
    Forall2 (fun m chunk => exists k, text m = Discord.prefix k ++ chunk)
            (Discord.sendChunks true j chunks) chunks.
Proof.
  induction chunks as [| c chunks IH]; intros j; cbn.
  - constructor.
  - constructor; [exists j; reflexivity | apply IH].
Qed.

(** C10. Every turn of the splitting loop on a non-empty remainder pushes a
    non-empty chunk; a chunk that is not the hard cut ends at an offset
    strictly beyond 0.7 of the chunk size; the remainder gets strictly
    shorter; and the loop returns for every answer. *)
Theorem split_loop_terminates :
  (forall c rest,
      let remainingAnswer := c :: rest in
      let chunk := nextChunk Discord.chunkSize remainingAnswer in
      chunk <> []
      /\ (chunk = substring remainingAnswer 0 Discord.chunkSize
          \/ (7 * Discord.chunkSize < 10 * (len chunk - 1))%Z)
      /\ length (advance remainingAnswer chunk) < length remainingAnswer)
  /\ (forall answer,
         exists answerChunks,
           splitAnswer Discord.chunkSize answer = Some answerChunks).
Proof.
  split.
  - intros c rest remainingAnswer chunk.
    assert (Hne : remainingAnswer <> []) by discriminate.
    split; [apply nextChunk_nonempty; [exact chunkSize_pos | exact Hne] |].
    split; [| apply advance_shorter; [exact chunkSize_pos | exact Hne]].
    subst chunk. unfold nextChunk.
    set (cand := substring remainingAnswer 0 Discord.chunkSize).
    destruct (len remainingAnswer >? Discord.chunkSize)%Z; [| left; reflexivity].
    set (breakPoint := Z.max _ _).
    unfold pastFraction.
    destruct (10 * breakPoint >? 7 * Discord.chunkSize)%Z eqn:Hbp;
      [| left; reflexivity].
    apply Z.gtb_lt in Hbp.
    rewrite substring_prefix.
    destruct (Z_le_gt_dec (breakPoint + 1) (len cand)) as [Hin | Hout].
    + right. unfold len in *. rewrite length_firstn. lia.
    + left. apply firstn_all2. unfold len in Hout. lia.
  - intros answer.
    destruct (@splitLoop_spec _ chunkSize_pos (length answer) [] answer
                (Nat.le_refl _)) as [chunks [E _]].
    exists chunks. exact E.
Qed.

(** C2, as the code has it. The loop returns for every answer, each message
    is a part label followed by its chunk, and the answer is the chunks in
    order with, after each chunk, the run of white space (none, one or
    several code units, after a hard cut as well as after a breakpoint cut)
    that [trim] removed there. *)
Theorem chunks_reassemble_answer :
  forall answer,
    exists answerChunks,
      splitAnswer Discord.chunkSize answer = Some answerChunks
      /\ Forall2 (fun m chunk => exists k, text m = Discord.prefix k ++ chunk)
                 (Discord.sendChunks true 0 answerChunks) answerChunks
      /\ Reassembles whiteRun answerChunks answer.
Proof.
  intros answer.
  destruct (@splitLoop_spec _ chunkSize_pos (length answer) [] answer
              (Nat.le_refl _)) as [chunks [E [HR _]]].
  exists chunks. repeat split; trivial. apply sendChunks_labels.
Qed.

Lemma blanksAfterCut_chunks :
  splitAnswer Discord.chunkSize blanksAfterCut
  = Some [repeat 97%N 1850; lit "b"].
Proof. vm_compute. reflexivity. Qed.

(** C2 as stated fails: with at most one white-space code unit put back
    after each chunk, the chunks of [blanksAfterCut] do not give the answer
    back; the three blanks after the hard cut are gone. *)
Lemma chunks_lose_blanks :
  ~ (exists answerChunks,
        splitAnswer Discord.chunkSize blanksAfterCut = Some answerChunks
        /\ Reassembles atMostOneWhite answerChunks blanksAfterCut).
Proof.
  intros [chunks [E HR]].
  rewrite blanksAfterCut_chunks in E. injection E as <-.
  apply (@Reassembles_length atMostOneWhite 1) in HR.
  - vm_compute in HR. lia.
  - intros g [_ Hg]. exact Hg.
Qed.

(** ** Breakpoints: what [lastIndexOf] finds *)

Section LastIndexOf.

Variable p : jsstring.
Hypothesis p_nonempty : p <> [].

Lemma startsWith_nil : startsWith p [] = false.
Proof. destruct p; [congruence | reflexivity]. Qed.

Lemma occursAt_nil (k : Z) : ~ occursAt p [] k.
Proof.
  intros [_ H]. rewrite skipn_nil, startsWith_nil in H. discriminate.
Qed.

Lemma occursAt_cons (c : char16) (s : jsstring) (k : Z) :
  occursAt p (c :: s) k <->
  (k = 0%Z /\ startsWith p (c :: s) = true)
  \/ ((1 <= k)%Z /\ occursAt p s (k - 1)).
Proof.
  unfold occursAt. split.
  - intros [Hk H].
    destruct (Z.eq_dec k 0) as [-> | Hnz].
    + left. split; [reflexivity | exact H].
    + right. split; [lia |]. split; [lia |].
      replace (Z.to_nat k) with (S (Z.to_nat (k - 1))) in H by lia.
      exact H.
  - intros [[-> H] | [Hk [_ H]]].
    + split; [lia | exact H].
    + split; [lia |].
      replace (Z.to_nat k) with (S (Z.to_nat (k - 1))) by lia.
      exact H.
Qed.

Lemma lastIndexOfFrom_spec (s : jsstring) :
  forall i best,
    ((forall k, ~ occursAt p s k) /\ lastIndexOfFrom p s i best = best)
    \/ (exists k,
           occursAt p s k
           /\ (forall k', occursAt p s k' -> (k' <= k)%Z)
           /\ lastIndexOfFrom p s i best = (i + k)%Z).
Proof.
  induction s as [| c s IH]; intros i best.
  - left. split; [exact occursAt_nil |].
    cbn. rewrite startsWith_nil. reflexivity.
  - cbn [lastIndexOfFrom].
    destruct (IH (i + 1)%Z (if startsWith p (c :: s) then i else best))
      as [[Hnone E] | [k [Hocc [Hmax E]]]].
    + destruct (startsWith p (c :: s)) eqn:Hhere.
      * right. exists 0%Z. split; [| split].
        -- apply occursAt_cons. left. split; trivial.
        -- intros k' Hk'. apply occursAt_cons in Hk'.
           destruct Hk' as [[-> _] | [_ Hk']]; [lia |].
           exfalso. exact (Hnone _ Hk').
        -- rewrite E. lia.
      * left. split; [| exact E].
        intros k' Hk'. apply occursAt_cons in Hk'.
        destruct Hk' as [[_ Hk'] | [_ Hk']]; [congruence |].
        exact (Hnone _ Hk').
    + right. exists (k + 1)%Z. split; [| split].
      * apply occursAt_cons. right.
        pose proof Hocc as [Hk0 _].
        split; [lia |].
        replace (k + 1 - 1)%Z with k by lia. exact Hocc.
      * intros k' Hk'. apply occursAt_cons in Hk'.
        destruct Hk' as [[-> _] | [_ Hk']].
        -- destruct Hocc as [Hk0 _]. lia.
        -- specialize (Hmax _ Hk'). lia.
      * rewrite E. lia.
Qed.

(** [lastIndexOf] answers [-1] when [p] does not occur and the greatest
    offset at which it occurs otherwise. *)
Lemma lastIndexOf_spec (s : jsstring) :
  ((forall k, ~ occursAt p s k) /\ lastIndexOf p s = (-1)%Z)
  \/ (occursAt p s (lastIndexOf p s)
      /\ forall k', occursAt p s k' -> (k' <= lastIndexOf p s)%Z).
Proof.
  unfold lastIndexOf.
  destruct (lastIndexOfFrom_spec s 0 (-1)) as [H | [k [Hocc [Hmax E]]]].
  - left. exact H.
  - right. rewrite E. cbn [Z.add]. split; assumption.
Qed.

End LastIndexOf.

Lemma breakPointOf_spec (chunk : jsstring) :
  ((forall k, ~ isBreakpoint chunk k) /\ breakPointOf chunk = (-1)%Z)
  \/ lastBreakpoint chunk (breakPointOf chunk).
Proof.
  unfold breakPointOf, lastBreakpoint, isBreakpoint.
  assert (Hp : lit ". " <> []) by discriminate.
  assert (Hn : nl <> []) by discriminate.
  destruct (lastIndexOf_spec Hp chunk) as [[Pnone PE] | [Pocc Pmax]];
    destruct (lastIndexOf_spec Hn chunk) as [[Nnone NE] | [Nocc Nmax]].
  - left. split; [| lia].
    intros k [H | H]; [exact (Pnone _ H) | exact (Nnone _ H)].
  - right. destruct Nocc as [N0 Nocc'].
    replace (Z.max _ _) with (lastIndexOf nl chunk) by lia.
    split; [right; split; assumption |].
    intros k [H | H]; [exfalso; exact (Pnone _ H) | exact (Nmax _ H)].
  - right. destruct Pocc as [P0 Pocc'].
    replace (Z.max _ _) with (lastIndexOf (lit ". ") chunk) by lia.
    split; [left; split; assumption |].
    intros k [H | H]; [exact (Pmax _ H) | exfalso; exact (Nnone _ H)].
  - right. split.
    + destruct (Z.max_spec (lastIndexOf (lit ". ") chunk)
                           (lastIndexOf nl chunk)) as [[_ ->] | [_ ->]];
        [right | left]; assumption.
    + intros k [H | H]; [specialize (Pmax _ H) | specialize (Nmax _ H)]; lia.
Qed.

Lemma lastBreakpoint_unique (chunk : jsstring) (i j : Z) :
  lastBreakpoint chunk i -> lastBreakpoint chunk j -> i = j.
Proof.
  intros [Hi Mi] [Hj Mj].
  specialize (Mi _ Hj). specialize (Mj _ Hi). lia.
Qed.

(** C5, as the code has it. When more answer remains beyond the candidate
    chunk, the chunk is cut just after the last ['. '] or newline of the
    candidate when that offset is strictly greater than 0.7 of the chunk
    size, and the hard cut is kept when the offset is equal to or below
    it, or when the candidate has no breakpoint. *)
Theorem breakpoint_cut_rule :
  forall remainingAnswer,
    (len remainingAnswer > Discord.chunkSize)%Z ->
    let candidate := substring remainingAnswer 0 Discord.chunkSize in
    (forall i, lastBreakpoint candidate i ->
       nextChunk Discord.chunkSize remainingAnswer
       = if (7 * Discord.chunkSize <? 10 * i)%Z
         then substring candidate 0 (i + 1)
         else candidate)
    /\ ((forall i, ~ isBreakpoint candidate i) ->
        nextChunk Discord.chunkSize remainingAnswer = candidate).
Proof.
  intros rem Hlong candidate.
  assert (Hgt : (len rem >? Discord.chunkSize)%Z = true)
    by (apply Z.gtb_lt; lia).
  unfold nextChunk. rewrite Hgt. fold candidate.
  fold (breakPointOf candidate). unfold pastFraction.
  destruct (breakPointOf_spec candidate) as [[Hnone E] | Hlast].
  - split.
    + intros i [Hi _]. exfalso. exact (Hnone _ Hi).
    + intros _. rewrite E. reflexivity.
  - split.
    + intros i Hi.
      rewrite (lastBreakpoint_unique Hi Hlast).
      rewrite Z.gtb_ltb. reflexivity.
    + intros Hnone. destruct Hlast as [Hb _].
      exfalso. exact (Hnone _ Hb).
Qed.

Lemma breakpoint_cut_rule_witness :
  (len blanksAfterCut > Discord.chunkSize)%Z
  /\ let candidate := substring blanksAfterCut 0 Discord.chunkSize in
     (forall i, lastBreakpoint candidate i ->
        nextChunk Discord.chunkSize blanksAfterCut
        = if (7 * Discord.chunkSize <? 10 * i)%Z
          then substring candidate 0 (i + 1)
          else candidate)
     /\ ((forall i, ~ isBreakpoint candidate i) ->
         nextChunk Discord.chunkSize blanksAfterCut = candidate).
Proof.
  split.
  - reflexivity.
  - apply (@breakpoint_cut_rule blanksAfterCut). reflexivity.
Defined.

Lemma periodAtFraction_last :
  lastBreakpoint (substring periodAtFraction 0 Discord.chunkSize) 1295.
Proof.
  destruct (breakPointOf_spec (substring periodAtFraction 0 Discord.chunkSize))
    as [[_ E] | H].
  - vm_compute in E. discriminate.
  - replace 1295%Z
      with (breakPointOf (substring periodAtFraction 0 Discord.chunkSize))
      by (vm_compute; reflexivity).
    exact H.
Qed.

(** C5 as stated fails: the last breakpoint of [periodAtFraction] is at
    offset 1295 and 1295 >= 0.7 * 1850, yet the chunk is the hard cut of
    1850 code units, not the cut after the period. *)
Lemma breakpoint_at_fraction_not_cut :
  ~ ((len periodAtFraction > Discord.chunkSize)%Z ->
     forall i,
       lastBreakpoint (substring periodAtFraction 0 Discord.chunkSize) i ->
       (nextChunk Discord.chunkSize periodAtFraction
        = substring (substring periodAtFraction 0 Discord.chunkSize) 0 (i + 1)
        <-> (7 * Discord.chunkSize <= 10 * i)%Z)).
Proof.
  intros H.
  specialize (H eq_refl 1295%Z periodAtFraction_last).
  destruct H as [_ H].
  assert (Hge : (7 * Discord.chunkSize <= 10 * 1295)%Z) by (vm_compute; discriminate).
  specialize (H Hge).
  apply (f_equal (@length _)) in H.
  vm_compute in H. discriminate.
Qed.

(** ** Message lengths on the Discord path *)

Lemma toDigits_length (fuel : nat) :
  forall (n : N) (acc : jsstring) (k : nat),
    (n < 10 ^ N.of_nat k)%N -> 1 <= k ->
    length (toDigits fuel n acc) <= length acc + k.
Proof.
  induction fuel as [| fuel IH]; intros n acc k Hn Hk; cbn [toDigits].
  - lia.
  - destruct (n <? 10)%N eqn:Hsmall.
    + cbn [length]. lia.
    + apply N.ltb_ge in Hsmall.
      destruct k as [| [| k]]; [lia | cbn in Hn; lia |].
      assert (Hdiv : (n / 10 < 10 ^ N.of_nat (S k))%N).
      { apply N.Div0.div_lt_upper_bound.
        rewrite <- N.pow_succ_r'.
        replace (N.succ (N.of_nat (S k))) with (N.of_nat (S (S k))) by lia.
        exact Hn. }
      specialize (@IH (n / 10)%N (digitChar (n mod 10) :: acc) (S k) Hdiv).
      cbn [length] in IH. lia.
Qed.

Lemma numberToString_length (n : N) (k : nat) :
  (n < 10 ^ N.of_nat k)%N -> 1 <= k -> length (numberToString n) <= k.
Proof.
  intros Hn Hk. unfold numberToString.
  apply (@toDigits_length (S (N.size_nat n)) n [] k Hn Hk).
Qed.

(** The label of chunk [j] takes at most 50 code units as long as [j + 1]
    has at most 34 digits. *)
Lemma prefix_length (j : nat) :
  (N.of_nat (j + 1) < 10 ^ 34)%N -> (len (Discord.prefix j) <= 50)%Z.
Proof.
  intros Hj. destruct j as [| j]; [cbn; lia |].
  unfold Discord.prefix, len.
  rewrite !length_app.
  pose proof (@numberToString_length (N.of_nat (S j + 1)) 34 Hj) as Hd.
  change (length (lit "Answer (part ")) with 13.
  change (length (lit "): ")) with 3.
  lia.
Qed.

Lemma sendChunks_lengths (chunks : list jsstring) :
  forall j,
    Forall (fun c => c <> [] /\ (len c <= Discord.chunkSize)%Z) chunks ->
    (N.of_nat (j + length chunks) < 10 ^ 34)%N ->
    Forall (fun m => (len (text m) <= Discord.DISCORD_MAX_LENGTH)%Z)
           (Discord.sendChunks true j chunks).
Proof.
  induction chunks as [| c chunks IH]; intros j Hall Hcount;
    cbn [Discord.sendChunks callback app].
  - constructor.
  - inversion Hall as [| ? ? [_ Hc] Hrest]; subst.
    cbn [length] in Hcount.
    constructor.
    + unfold Discord.say. cbn [text]. rewrite len_app.
      assert (Hj : (N.of_nat (j + 1) < 10 ^ 34)%N) by lia.
      pose proof (prefix_length j Hj) as Hp.
      unfold Discord.chunkSize, Discord.DISCORD_MAX_LENGTH in *. lia.
    + apply IH; trivial.
      replace (S j + length chunks) with (j + S (length chunks)) by lia.
      exact Hcount.
Qed.

Lemma partOneHeader_length (i : nat) (question : jsstring) :
  len (Discord.partOneHeader i question)
  = (len question + len (Discord.ordinal i) + 21)%Z.
Proof.
  unfold Discord.partOneHeader. rewrite !len_app.
  change (len nl) with 1%Z.
  change (len (lit ". ")) with 2%Z.
  change (len (lit "Answer (part 1):")) with 16%Z.
  lia.
Qed.

(** C3, as the code has it. For an answer of fewer than 10^34 code units
    (every JavaScript string is), the messages of a record are either the
    single message, of at most 1900 code units, or the part-1 header
    followed by the chunk messages, each of at most 1900 code units; the
    header itself has the length of the question plus that of the ordinal
    plus 21, whatever the question. *)
Theorem record_message_lengths :
  forall i question answer,
    (N.of_nat (length answer) < 10 ^ 34)%N ->
    (exists sent,
        Discord.sendRecord true i question answer = Some sent
        /\ Forall (fun m =>
                     (len (text m) <= Discord.DISCORD_MAX_LENGTH)%Z
                     \/ text m = Discord.partOneHeader i question) sent)
    /\ len (Discord.partOneHeader i question)
       = (len question + len (Discord.ordinal i) + 21)%Z.
Proof.
  intros i question answer Hlen.
  split; [| apply partOneHeader_length].
  unfold Discord.sendRecord.
  destruct (len (Discord.messageText i question answer)
            >? Discord.DISCORD_MAX_LENGTH)%Z eqn:Hlong.
  - destruct (@splitLoop_spec _ chunkSize_pos (length answer) [] answer
                (Nat.le_refl _)) as [chunks [E [_ [Hall Hcnt]]]].
    unfold splitAnswer. rewrite E. cbn [app].
    eexists. split; [reflexivity |].
    cbn [callback app].
    constructor.
    + right. reflexivity.
    + apply Forall_impl
        with (P := fun m => (len (text m) <= Discord.DISCORD_MAX_LENGTH)%Z).
      * intros m Hm. left. exact Hm.
      * apply sendChunks_lengths; trivial.
        cbn [Nat.add]. lia.
  - eexists. split; [reflexivity |].
    constructor; [| constructor].
    left. cbn [text].
    rewrite Z.gtb_ltb in Hlong.
    apply Z.ltb_ge in Hlong. exact Hlong.
Qed.

Lemma record_message_lengths_witness :
  (N.of_nat (length blanksAfterCut) < 10 ^ 34)%N
  /\ ((exists sent,
          Discord.sendRecord true 0 (lit "Why?") blanksAfterCut = Some sent
          /\ Forall (fun m =>
                       (len (text m) <= Discord.DISCORD_MAX_LENGTH)%Z
                       \/ text m = Discord.partOneHeader 0 (lit "Why?")) sent)
      /\ len (Discord.partOneHeader 0 (lit "Why?"))
         = (len (lit "Why?") + len (Discord.ordinal 0) + 21)%Z).
Proof.
  split.
  - reflexivity.
  - apply (record_message_lengths 0 (lit "Why?") blanksAfterCut). reflexivity.
Defined.

(** C3 as stated fails: for [longQuestion] the part-1 header alone has
    1922 code units, so not every message of the record is within 1900. *)
Lemma header_exceeds_limit :
  ~ (exists sent,
        Discord.sendRecord true 0 longQuestion (lit "x") = Some sent
        /\ Forall (fun m => (len (text m) <= Discord.DISCORD_MAX_LENGTH)%Z)
                  sent).
Proof.
  intros [sent [E Hall]].
  assert (Hhead : exists rest,
             sent = Discord.say (Discord.partOneHeader 0 longQuestion) :: rest).
  { vm_compute in E. injection E as <-. eexists. vm_compute. reflexivity. }
  destruct Hhead as [rest ->].
  inversion Hall as [| ? ? Hh _]; subst.
  vm_compute in Hh. apply Hh. reflexivity.
Qed.

(** ** The result regex: what a match implies *)

Lemma startsWith_app (p rest : jsstring) : startsWith p (p ++ rest) = true.
Proof.
  induction p as [| a p IH]; cbn; [reflexivity |].
  unfold eqb16. rewrite N.eqb_refl. exact IH.
Qed.

Lemma startsWith_true (p : jsstring) :
  forall s, startsWith p s = true -> s = p ++ skipn (length p) s.
Proof.
  induction p as [| a p IH]; intros s H; [reflexivity |].
  destruct s as [| b s]; [discriminate |].
  cbn in H. apply andb_prop in H. destruct H as [Hab Hrest].
  apply N.eqb_eq in Hab. subst b.
  cbn. f_equal. apply IH. exact Hrest.
Qed.

Lemma includes_false (p s : jsstring) :
  includes p s = false -> forall pre post, s <> pre ++ p ++ post.
Proof.
  intros H pre. revert s H.
  induction pre as [| c pre IH]; intros s H post E; subst s.
  - cbn [app] in H. destruct (p ++ post) eqn:Epp; cbn in H.
    + apply orb_false_elim in H. destruct H as [H _].
      rewrite <- Epp, startsWith_app in H. discriminate.
    + apply orb_false_elim in H. destruct H as [H _].
      rewrite <- Epp, startsWith_app in H. discriminate.
  - cbn in H. apply orb_false_elim in H. destruct H as [_ H].
    exact (IH _ H post eq_refl).
Qed.

Section RegexFacts.

Variable marker : jsstring.

Lemma noClosing_noPattern (stdout : jsstring) :
  noClosing marker stdout -> noPattern marker stdout.
Proof.
  intros H pre body post E.
  apply (H (pre ++ openLit marker ++ body) post).
  rewrite E, <- !app_assoc. reflexivity.
Qed.

Lemma lazyCapture_sound (s : jsstring) :
  forall body, lazyCapture marker s = Some body ->
    exists post, s = body ++ closeLit marker ++ post.
Proof.
  induction s as [| c s IH]; intros body H; cbn [lazyCapture] in H.
  - destruct (startsWith (closeLit marker) []) eqn:Hc; [| discriminate].
    injection H as <-. apply startsWith_true in Hc. eexists. exact Hc.
  - destruct (startsWith (closeLit marker) (c :: s)) eqn:Hc.
    + injection H as <-. apply startsWith_true in Hc. eexists. exact Hc.
    + destruct (lazyCapture marker s) as [b |] eqn:Hs; [| discriminate].
      cbn in H. injection H as <-.
      destruct (IH b eq_refl) as [post E].
      exists post. cbn. f_equal. exact E.
Qed.

Lemma regexMatch_sound (s : jsstring) :
  forall body, regexMatch marker s = Some body ->
    exists pre post,
      s = pre ++ openLit marker ++ body ++ closeLit marker ++ post.
Proof.
  assert (Hat : forall s body, matchAt marker s = Some body ->
                  exists post,
                    s = openLit marker ++ body ++ closeLit marker ++ post).
  { intros s0 body H. unfold matchAt in H.
    destruct (startsWith (openLit marker) s0) eqn:Ho; [| discriminate].
    apply startsWith_true in Ho.
    destruct (lazyCapture_sound _ H) as [post E].
    exists post. rewrite Ho at 1. rewrite E. reflexivity. }
  induction s as [| c s IH]; intros body H; cbn [regexMatch] in H.
  - destruct (matchAt marker []) as [b |] eqn:Hm; [| discriminate].
    injection H as <-. destruct (Hat _ _ Hm) as [post E].
    exists [], post. exact E.
  - destruct (matchAt marker (c :: s)) as [b |] eqn:Hm.
    + injection H as <-. destruct (Hat _ _ Hm) as [post E].
      exists [], post. exact E.
    + destruct (IH _ H) as [pre [post E]].
      exists (c :: pre), post. cbn. f_equal. exact E.
Qed.

Lemma noPattern_extract (stdout : jsstring) :
  noPattern marker stdout -> extract marker stdout = None.
Proof.
  intros H. unfold extract.
  destruct (regexMatch marker stdout) as [body |] eqn:Hm; [| reflexivity].
  destruct (regexMatch_sound _ Hm) as [pre [post E]].
  exfalso. exact (H _ _ _ E).
Qed.

End RegexFacts.

(** C8. When the output lacks the closing marker line, or has no opening
    marker followed by a closing one at all, [extract] answers [None] and
    the handler calls the callback exactly once, with the fixed notice
    that the results could not be parsed; that notice is another text
    than the no-results notice, which the handler keeps for a block that
    was found and gave no record. *)
Theorem missing_block_single_notice :
  forall stdout,
    noClosing Telegram.marker stdout \/ noPattern Telegram.marker stdout ->
    extract Telegram.marker stdout = None
    /\ Telegram.deliver true stdout = [Telegram.say Telegram.noBlockNotice]
    /\ Telegram.noBlockNotice <> Telegram.noResultsNotice
    /\ Telegram.deliver true stdout
       <> [Telegram.say Telegram.noResultsNotice].
Proof.
  intros stdout H.
  assert (Hn : noPattern Telegram.marker stdout).
  { destruct H as [H | H]; [apply noClosing_noPattern |]; exact H. }
  pose proof (noPattern_extract Hn) as E.
  assert (D : Telegram.deliver true stdout
              = [Telegram.say Telegram.noBlockNotice]).
  { unfold Telegram.deliver. rewrite E. reflexivity. }
  split; [exact E |]. split; [exact D |].
  split; [vm_compute; discriminate |].
  rewrite D. vm_compute. discriminate.
Qed.

Lemma missing_block_single_notice_witness :
  (noClosing Telegram.marker cutOffOutput
   \/ noPattern Telegram.marker cutOffOutput)
  /\ extract Telegram.marker cutOffOutput = None
  /\ Telegram.deliver true cutOffOutput
     = [Telegram.say Telegram.noBlockNotice]
  /\ Telegram.noBlockNotice <> Telegram.noResultsNotice
  /\ Telegram.deliver true cutOffOutput
     <> [Telegram.say Telegram.noResultsNotice].
Proof.
  assert (H : noClosing Telegram.marker cutOffOutput).
  { unfold noClosing. apply includes_false. vm_compute. reflexivity. }
  split.
  - left. exact H.
  - apply (@missing_block_single_notice cutOffOutput). left. exact H.
Defined.

(** C8 as stated fails: the output [cutOffOutput] has the opening marker
    and no closing marker, [extract] answers [None] for it, and the one
    message the handler sends is not the no-results notice. *)
Lemma missing_block_not_no_results_notice :
  noClosing Telegram.marker cutOffOutput
  /\ extract Telegram.marker cutOffOutput = None
  /\ length (Telegram.deliver true cutOffOutput) = 1
  /\ ~ (Telegram.deliver true cutOffOutput
        = [Telegram.say Telegram.noResultsNotice]).
Proof.
  split.
  { unfold noClosing. apply includes_false. vm_compute. reflexivity. }
  split; [vm_compute; reflexivity |].
  split; [vm_compute; reflexivity |].
  vm_compute. discriminate.
Qed.

(** ** Order of the callback calls

    Every call in both handlers is [await params.callback(...)] inside a
    plain [for] loop of one [async] function.  The send loops are read
    twice: as the list of the calls' arguments ([Telegram.sendRecords],
    [Discord.sendRecords]) and as a body with its [await]s
    ([TelegramAsync.sendRecords], [DiscordAsync.sendRecords]), run by
    [step]. *)

Lemma telegram_sendRecords_nth (n : nat) :
  forall questions answers i question answer,
    nth_error questions n = Some question ->
    nth_error answers n = Some answer ->
    exists before,
      Telegram.sendRecords true i questions answers
      = before ++ Telegram.sendRecord true (i + n) question answer
        ++ Telegram.sendRecords true (i + n + 1)
             (skipn (S n) questions) (skipn (S n) answers).
Proof.
  induction n as [| n IH]; intros questions answers i question answer Hq Ha;
    destruct questions as [| q0 questions]; try discriminate;
    destruct answers as [| a0 answers]; try discriminate.
  - cbn in Hq, Ha. injection Hq as ->. injection Ha as ->.
    exists []. cbn [Telegram.sendRecords skipn app].
    rewrite Nat.add_0_r, Nat.add_1_r. reflexivity.
  - cbn [nth_error] in Hq, Ha.
    destruct (IH questions answers (S i) question answer Hq Ha)
      as [before E].
    exists (Telegram.sendRecord true i q0 a0 ++ before).
    cbn [Telegram.sendRecords]. rewrite E, <- app_assoc.
    replace (S i + n) with (i + S n) by lia.
    reflexivity.
Qed.

Lemma discord_sendRecord_total (i : nat) (question answer : jsstring) :
  exists sent, Discord.sendRecord true i question answer = Some sent.
Proof.
  unfold Discord.sendRecord.
  destruct (len (Discord.messageText i question answer)
            >? Discord.DISCORD_MAX_LENGTH)%Z.
  - destruct (@splitLoop_spec _ chunkSize_pos (length answer) [] answer
                (Nat.le_refl _)) as [chunks [E _]].
    unfold splitAnswer. rewrite E. eexists. reflexivity.
  - eexists. reflexivity.
Qed.

Lemma discord_sendRecords_total (questions : list jsstring) :
  forall answers total i,
    exists trace,
      Discord.sendRecords true total i questions answers = Some trace.
Proof.
  induction questions as [| q questions IH]; intros answers total i.
  - exists []. reflexivity.
  - destruct answers as [| a answers]; [exists []; reflexivity |].
    cbn [Discord.sendRecords].
    destruct (discord_sendRecord_total i q a) as [here ->].
    destruct (IH answers total (S i)) as [later ->].
    eexists. reflexivity.
Qed.

Lemma discord_sendRecords_nth (n : nat) :
  forall questions answers total i question answer trace,
    Discord.sendRecords true total i questions answers = Some trace ->
    nth_error questions n = Some question ->
    nth_error answers n = Some answer ->
    exists before sent rest,
      Discord.sendRecord true (i + n) question answer = Some sent
      /\ Discord.sendRecords true total (i + n + 1)
           (skipn (S n) questions) (skipn (S n) answers) = Some rest
      /\ trace = before ++ sent
                 ++ Discord.separator true total (i + n) ++ rest.
Proof.
  induction n as [| n IH];
    intros questions answers total i question answer trace Ht Hq Ha;
    destruct questions as [| q0 questions]; try discriminate;
    destruct answers as [| a0 answers]; try discriminate;
    cbn [Discord.sendRecords] in Ht;
    destruct (Discord.sendRecord true i q0 a0) as [here |] eqn:Hhere;
    try discriminate;
    destruct (Discord.sendRecords true total (S i) questions answers)
      as [later |] eqn:Hlater; try discriminate;
    injection Ht as <-.
  - cbn in Hq, Ha. injection Hq as <-. injection Ha as <-.
    exists [], here, later.
    rewrite Nat.add_0_r, Nat.add_1_r. cbn [skipn app].
    repeat split; assumption.
  - cbn [nth_error] in Hq, Ha.
    destruct (IH questions answers total (S i) question answer later
                Hlater Hq Ha) as [before [sent [rest [Hs [Hr E]]]]].
    replace (S i + n) with (i + S n) in * by lia.
    exists (here ++ Discord.separator true total i ++ before), sent, rest.
    cbn [skipn]. repeat split; trivial.
    rewrite E, <- !app_assoc. reflexivity.
Qed.

(** *** Runs of a body whose calls are all awaited *)

Lemma awaited_cons (content : Content) (contents : list Content) :
  awaited (content :: contents)
  = Invoke content :: Settle content :: awaited contents.
Proof. reflexivity. Qed.

Lemma awaited_app (a b : list Content) :
  awaited (a ++ b) = awaited a ++ awaited b.
Proof. unfold awaited. apply flat_map_app. Qed.

Lemma overlapFree_awaited (contents : list Content) :
  overlapFree (awaited contents).
Proof.
  induction contents as [| c contents IH]; intros before content after E.
  - destruct before; discriminate.
  - rewrite awaited_cons in E.
    destruct before as [| e1 before]; [reflexivity |].
    injection E as <- E.
    destruct before as [| e2 before]; [discriminate |].
    injection E as <- E.
    cbn [pending]. rewrite (IH _ _ _ E). reflexivity.
Qed.

Lemma nth_error_firstn_skipn (A : Type) (l : list A) :
  forall i x,
    nth_error l i = Some x -> l = firstn i l ++ x :: skipn (S i) l.
Proof.
  induction l as [| y l IH]; intros [| i] x H; try discriminate.
  - cbn in H. injection H as ->. reflexivity.
  - cbn [nth_error] in H. cbn [firstn skipn app]. f_equal.
    exact (IH i x H).
Qed.

Lemma oneAtATime_awaited (blocks : list (list Content)) :
  oneAtATime blocks (awaited (concat blocks)).
Proof.
  split; [reflexivity |]. split; [apply overlapFree_awaited |].
  intros i j first second Hlt Hi Hj.
  rewrite <- !awaited_app. f_equal.
  pose proof (nth_error_firstn_skipn blocks i Hi) as E1.
  assert (Hj' : nth_error (skipn (S i) blocks) (j - S i) = Some second).
  { rewrite nth_error_skipn. replace (S i + (j - S i)) with j by lia.
    exact Hj. }
  pose proof (nth_error_firstn_skipn _ _ Hj') as E2.
  rewrite skipn_skipn in E2.
  replace (S (j - S i) + S i) with (S j) in E2 by lia.
  apply (f_equal (@concat Content)) in E1, E2.
  rewrite concat_app in E1, E2. cbn [concat] in E1, E2.
  etransitivity; [exact E1 |].
  do 2 f_equal. exact E2.
Qed.

(** With nothing in the background, a step is the task's own. *)
Lemma step_foreground (task : Task) (e : Event) (c' : Config) :
  step (task, []) e c' ->
  (exists content next,
      task = Running (Await content next)
      /\ e = Invoke content /\ c' = (Suspended content next, []))
  \/ (exists content next,
         task = Suspended content next
         /\ e = Settle content /\ c' = (Running next, []))
  \/ (exists content next,
         task = Running (Spawn content next)
         /\ e = Invoke content /\ c' = (Running next, [content])).
Proof.
  intros H.
  inversion H as [content next bg | content next bg | content next bg
                  | t before content after];
    subst.
  - left. exists content, next. repeat split.
  - right. left. exists content, next. repeat split.
  - right. right. exists content, next. repeat split.
  - exfalso.
    match goal with
    | Hb : _ ++ _ :: _ = [] |- _ => exact (app_cons_not_nil _ _ _ (eq_sym Hb))
    | Hb : [] = _ ++ _ :: _ |- _ => exact (app_cons_not_nil _ _ _ Hb)
    end.
Qed.

(** A body that awaits every call has one run to its end. *)
Lemma finishes_awaited (body : Async) :
  awaitsAll body ->
  forall trace, finishes body trace -> trace = awaited (calls body).
Proof.
  unfold finishes.
  induction body as [| content next IH | content next IH];
    intros Hall trace Hrun.
  - inversion Hrun as [| c e c' t c'' Hstep Hrest]; subst; [reflexivity |].
    destruct (step_foreground Hstep)
      as [[x [k [E _]]] | [[x [k [E _]]] | [x [k [E _]]]]]; discriminate.
  - inversion Hrun as [| c e c' t c'' Hstep Hrest]; subst.
    destruct (step_foreground Hstep)
      as [[x [k [E [-> ->]]]] | [[x [k [E _]]] | [x [k [E _]]]]];
      try discriminate.
    injection E as <- <-.
    inversion Hrest as [| c e c' t' c'' Hstep' Hrest']; subst.
    destruct (step_foreground Hstep')
      as [[x [k [E _]]] | [[x [k [E [-> ->]]]] | [x [k [E _]]]]];
      try discriminate.
    injection E as <- <-.
    cbn [calls]. rewrite awaited_cons. do 2 f_equal.
    exact (IH Hall _ Hrest').
  - destruct Hall.
Qed.

Lemma awaited_finishes (body : Async) :
  awaitsAll body -> finishes body (awaited (calls body)).
Proof.
  unfold finishes.
  induction body as [| content next IH | content next IH]; intros Hall.
  - apply runs_here.
  - cbn [calls]. rewrite awaited_cons.
    eapply runs_step; [apply step_await |].
    eapply runs_step; [apply step_resume |].
    exact (IH Hall).
  - destruct Hall.
Qed.

(** Calls that are not awaited can overlap: the second is invoked while
    the first is pending. *)
Lemma spawned_calls_overlap :
  exists trace, finishes twoSpawned trace /\ ~ overlapFree trace.
Proof.
  exists [Invoke (Telegram.say (lit "one"));
          Invoke (Telegram.say (lit "two"));
          Settle (Telegram.say (lit "two"));
          Settle (Telegram.say (lit "one"))].
  split.
  - unfold finishes, twoSpawned.
    eapply runs_step; [apply step_spawn |].
    eapply runs_step; [apply step_spawn |].
    eapply runs_step;
      [exact (@step_settle (Running Done) []
                (Telegram.say (lit "two")) [Telegram.say (lit "one")]) |].
    eapply runs_step;
      [exact (@step_settle (Running Done) []
                (Telegram.say (lit "one")) []) |].
    apply runs_here.
  - intros H.
    specialize (H [Invoke (Telegram.say (lit "one"))]
                  (Telegram.say (lit "two"))
                  [Settle (Telegram.say (lit "two"));
                   Settle (Telegram.say (lit "one"))] eq_refl).
    discriminate H.
Qed.

(** *** The Telegram send loop *)

Lemma telegram_calls_send (cb : bool) (content : Content) (next : Async) :
  calls (TelegramAsync.send cb content next)
  = callback cb content ++ calls next.
Proof. destruct cb; reflexivity. Qed.

Lemma telegram_awaits_send (cb : bool) (content : Content) (next : Async) :
  awaitsAll next -> awaitsAll (TelegramAsync.send cb content next).
Proof. destruct cb; intros H; exact H. Qed.

Lemma telegram_calls_continuations (cb : bool) (rest : list jsstring)
      (next : Async) :
  calls (TelegramAsync.sendContinuations cb rest next)
  = flat_map (fun p => callback cb (Telegram.say (lit "Continuation: " ++ p)))
             rest
    ++ calls next.
Proof.
  induction rest as [| p rest IH]; [reflexivity |].
  cbn [TelegramAsync.sendContinuations flat_map].
  rewrite telegram_calls_send, IH, <- app_assoc. reflexivity.
Qed.

Lemma telegram_awaits_continuations (cb : bool) (rest : list jsstring)
      (next : Async) :
  awaitsAll next -> awaitsAll (TelegramAsync.sendContinuations cb rest next).
Proof.
  intros H. induction rest as [| p rest IH]; [exact H |].
  cbn [TelegramAsync.sendContinuations].
  apply telegram_awaits_send. exact IH.
Qed.

Lemma telegram_calls_sendRecord (cb : bool) (i : nat)
      (question answer : jsstring) (next : Async) :
  calls (TelegramAsync.sendRecord cb i question answer next)
  = Telegram.sendRecord cb i question answer ++ calls next.
Proof.
  unfold TelegramAsync.sendRecord, Telegram.sendRecord.
  destruct (filter _ _) as [| first rest].
  - apply telegram_calls_send.
  - rewrite telegram_calls_send, telegram_calls_continuations, <- app_assoc.
    reflexivity.
Qed.

Lemma telegram_awaits_sendRecord (cb : bool) (i : nat)
      (question answer : jsstring) (next : Async) :
  awaitsAll next ->
  awaitsAll (TelegramAsync.sendRecord cb i question answer next).
Proof.
  intros H. unfold TelegramAsync.sendRecord.
  destruct (filter _ _) as [| first rest]; apply telegram_awaits_send;
    [exact H | apply telegram_awaits_continuations; exact H].
Qed.

Lemma telegram_calls_sendRecords (cb : bool) (questions : list jsstring) :
  forall answers i next,
    calls (TelegramAsync.sendRecords cb i questions answers next)
    = Telegram.sendRecords cb i questions answers ++ calls next.
Proof.
  induction questions as [| q questions IH]; intros answers i next;
    [reflexivity |].
  destruct answers as [| a answers]; [reflexivity |].
  cbn [TelegramAsync.sendRecords Telegram.sendRecords].
  rewrite telegram_calls_sendRecord, IH, <- app_assoc. reflexivity.
Qed.

Lemma telegram_awaits_sendRecords (cb : bool) (questions : list jsstring) :
  forall answers i next,
    awaitsAll next ->
    awaitsAll (TelegramAsync.sendRecords cb i questions answers next).
Proof.
  induction questions as [| q questions IH]; intros answers i next H;
    [exact H |].
  destruct answers as [| a answers]; [exact H |].
  cbn [TelegramAsync.sendRecords].
  apply telegram_awaits_sendRecord, IH, H.
Qed.

Lemma telegram_blocks (questions : list jsstring) :
  forall answers i,
    exists blocks,
      Telegram.sendRecords true i questions answers = concat blocks
      /\ length blocks = Nat.min (length questions) (length answers)
      /\ forall n question answer,
           nth_error questions n = Some question ->
           nth_error answers n = Some answer ->
           nth_error blocks n
           = Some (Telegram.sendRecord true (i + n) question answer).
Proof.
  induction questions as [| q questions IH]; intros answers i.
  - exists []. repeat split. intros [| n]; discriminate.
  - destruct answers as [| a answers].
    + exists []. repeat split. intros [| n] ? ? _ H; discriminate H.
    + destruct (IH answers (S i)) as [blocks [E [L N]]].
      exists (Telegram.sendRecord true i q a :: blocks).
      split; [cbn [Telegram.sendRecords concat]; rewrite E; reflexivity |].
      split; [cbn [length Nat.min]; rewrite L; reflexivity |].
      intros [| n] question answer Hq Ha.
      * cbn in Hq, Ha. injection Hq as ->. injection Ha as ->.
        rewrite Nat.add_0_r. reflexivity.
      * cbn [nth_error] in *.
        replace (i + S n) with (S i + n) by lia.
        exact (N n question answer Hq Ha).
Qed.

Lemma startsWith_numbered (i : nat) (question tail : jsstring) :
  startsWith (numberedQuestion i question)
             (nl ++ numberToString (N.of_nat (i + 1)) ++ lit ". "
              ++ question ++ nl ++ nl ++ lit "Answer" ++ tail) = true.
Proof.
  replace (nl ++ numberToString (N.of_nat (i + 1)) ++ lit ". "
           ++ question ++ nl ++ nl ++ lit "Answer" ++ tail)
    with (numberedQuestion i question ++ tail).
  - apply startsWith_app.
  - unfold numberedQuestion. rewrite <- !app_assoc. reflexivity.
Qed.

Lemma telegram_sendRecord_head (i : nat) (question answer : jsstring) :
  exists first rest,
    Telegram.sendRecord true i question answer = first :: rest
    /\ startsWith (numberedQuestion i question) (text first) = true.
Proof.
  unfold Telegram.sendRecord.
  destruct (filter _ _) as [| p ps]; cbn [callback app];
    eexists; eexists; (split; [reflexivity |]).
  - exact (startsWith_numbered i question (lit ": " ++ answer)).
  - exact (startsWith_numbered i question (lit ": " ++ p)).
Qed.

(** *** The Discord send loop *)

Lemma discord_calls_send (cb : bool) (content : Content) (next : Async) :
  calls (DiscordAsync.send cb content next)
  = callback cb content ++ calls next.
Proof. destruct cb; reflexivity. Qed.

Lemma discord_awaits_send (cb : bool) (content : Content) (next : Async) :
  awaitsAll next -> awaitsAll (DiscordAsync.send cb content next).
Proof. destruct cb; intros H; exact H. Qed.

Lemma discord_calls_sendChunks (cb : bool) (answerChunks : list jsstring) :
  forall j next,
    calls (DiscordAsync.sendChunks cb j answerChunks next)
    = Discord.sendChunks cb j answerChunks ++ calls next.
Proof.
  induction answerChunks as [| chunk rest IH]; intros j next;
    [reflexivity |].
  cbn [DiscordAsync.sendChunks Discord.sendChunks].
  rewrite discord_calls_send, IH, <- app_assoc. reflexivity.
Qed.

Lemma discord_awaits_sendChunks (cb : bool) (answerChunks : list jsstring) :
  forall j next,
    awaitsAll next ->
    awaitsAll (DiscordAsync.sendChunks cb j answerChunks next).
Proof.
  induction answerChunks as [| chunk rest IH]; intros j next H;
    [exact H |].
  cbn [DiscordAsync.sendChunks].
  apply discord_awaits_send, IH, H.
Qed.

Lemma discord_calls_separator (cb : bool) (total i : nat) (next : Async) :
  calls (DiscordAsync.separator cb total i next)
  = Discord.separator cb total i ++ calls next.
Proof.
  unfold DiscordAsync.separator, Discord.separator.
  destruct (Z.of_nat i <? Z.of_nat total - 1)%Z;
    [apply discord_calls_send | reflexivity].
Qed.

Lemma discord_awaits_separator (cb : bool) (total i : nat) (next : Async) :
  awaitsAll next -> awaitsAll (DiscordAsync.separator cb total i next).
Proof.
  intros H. unfold DiscordAsync.separator.
  destruct (Z.of_nat i <? Z.of_nat total - 1)%Z;
    [apply discord_awaits_send |]; exact H.
Qed.

Lemma discord_async_sendRecord (i : nat) (question answer : jsstring)
      (next : Async) :
  exists sent body,
    Discord.sendRecord true i question answer = Some sent
    /\ DiscordAsync.sendRecord true i question answer next = Some body
    /\ calls body = sent ++ calls next
    /\ (awaitsAll next -> awaitsAll body).
Proof.
  unfold Discord.sendRecord, DiscordAsync.sendRecord.
  destruct (len (Discord.messageText i question answer)
            >? Discord.DISCORD_MAX_LENGTH)%Z.
  - destruct (@splitLoop_spec _ chunkSize_pos (length answer) [] answer
                (Nat.le_refl _)) as [chunks [E _]].
    unfold splitAnswer. rewrite E.
    eexists. eexists. split; [reflexivity |]. split; [reflexivity |].
    split.
    + rewrite discord_calls_send, discord_calls_sendChunks, <- app_assoc.
      reflexivity.
    + intros H. apply discord_awaits_send, discord_awaits_sendChunks, H.
  - eexists. eexists. split; [reflexivity |]. split; [reflexivity |].
    split; [apply discord_calls_send |].
    intros H. apply discord_awaits_send, H.
Qed.

Lemma discord_blocks (questions : list jsstring) :
  forall answers total i next,
    exists body blocks,
      DiscordAsync.sendRecords true total i questions answers next
      = Some body
      /\ calls body = concat blocks ++ calls next
      /\ (awaitsAll next -> awaitsAll body)
      /\ Discord.sendRecords true total i questions answers
         = Some (concat blocks)
      /\ length blocks = Nat.min (length questions) (length answers)
      /\ forall n question answer,
           nth_error questions n = Some question ->
           nth_error answers n = Some answer ->
           exists sent,
             Discord.sendRecord true (i + n) question answer = Some sent
             /\ nth_error blocks n
                = Some (sent ++ Discord.separator true total (i + n)).
Proof.
  induction questions as [| q questions IH]; intros answers total i next.
  - exists next, []. repeat split; trivial. intros [| n]; discriminate.
  - destruct answers as [| a answers].
    + exists next, []. repeat split; trivial.
      intros [| n] ? ? _ H; discriminate H.
    + destruct (IH answers total (S i) next)
        as [later [blocks [Eb [Ec [Ha [El [L N]]]]]]].
      destruct (discord_async_sendRecord i q a
                  (DiscordAsync.separator true total i later))
        as [sent [body [Es [Er [Ecalls Hawaits]]]]].
      exists body, ((sent ++ Discord.separator true total i) :: blocks).
      split; [cbn [DiscordAsync.sendRecords]; rewrite Eb; exact Er |].
      split.
      { rewrite Ecalls, discord_calls_separator, Ec.
        cbn [concat]. rewrite <- !app_assoc. reflexivity. }
      split.
      { intros H. apply Hawaits, discord_awaits_separator, Ha, H. }
      split.
      { cbn [Discord.sendRecords]. rewrite Es, El.
        cbn [concat]. rewrite <- app_assoc. reflexivity. }
      split; [cbn [length Nat.min]; rewrite L; reflexivity |].
      intros [| n] question answer Hq Han.
      * cbn in Hq, Han. injection Hq as <-. injection Han as <-.
        rewrite Nat.add_0_r. exists sent. split; [exact Es | reflexivity].
      * cbn [nth_error] in *.
        replace (i + S n) with (S i + n) by lia.
        exact (N n question answer Hq Han).
Qed.

Lemma discord_sendRecord_head (i : nat) (question answer : jsstring)
      (sent : list Content) :
  Discord.sendRecord true i question answer = Some sent ->
  exists first rest,
    sent = first :: rest
    /\ startsWith (numberedQuestion i question) (text first) = true.
Proof.
  unfold Discord.sendRecord.
  destruct (len (Discord.messageText i question answer)
            >? Discord.DISCORD_MAX_LENGTH)%Z.
  - destruct (splitAnswer Discord.chunkSize answer) as [chunks |];
      [| discriminate].
    intros H. injection H as <-. cbn [callback app].
    eexists. eexists. split; [reflexivity |].
    exact (startsWith_numbered i question (lit " (part 1):")).
  - intros H. injection H as <-. cbn [callback].
    eexists. eexists. split; [reflexivity |].
    cbn [text Discord.say]. unfold Discord.messageText, Discord.ordinal.
    rewrite <- !app_assoc.
    exact (startsWith_numbered i question (lit ": " ++ answer)).
Qed.

(** C9. Both handlers send the records one call at a time, in record
    order and, within a record, in fragment order.  The calls fall into
    one block per record (in the Discord handler a record's block ends
    with its separator); the block of record [i] is that record's
    messages and starts with its numbered question.  The send loop runs to
    its end, and in every run each call is invoked only after the call
    before it has settled, so that all the calls of a record have settled
    before the first call of a later record is invoked. *)
Theorem records_sent_in_order :
  forall questions answers,
    (exists blocks,
        length blocks = Nat.min (length questions) (length answers)
        /\ (forall i question answer,
               nth_error questions i = Some question ->
               nth_error answers i = Some answer ->
               exists first rest,
                 nth_error blocks i = Some (first :: rest)
                 /\ Telegram.sendRecord true i question answer
                    = first :: rest
                 /\ startsWith (numberedQuestion i question) (text first)
                    = true)
        /\ Telegram.sendRecords true 0 questions answers = concat blocks
        /\ (exists trace,
               finishes
                 (TelegramAsync.sendRecords true 0 questions answers Done)
                 trace)
        /\ forall trace,
             finishes
               (TelegramAsync.sendRecords true 0 questions answers Done)
               trace ->
             oneAtATime blocks trace)
    /\ (exists body blocks,
           DiscordAsync.sendRecords true (length questions) 0
             questions answers Done = Some body
           /\ length blocks = Nat.min (length questions) (length answers)
           /\ (forall i question answer,
                  nth_error questions i = Some question ->
                  nth_error answers i = Some answer ->
                  exists first rest,
                    nth_error blocks i
                    = Some ((first :: rest)
                            ++ Discord.separator true (length questions) i)
                    /\ Discord.sendRecord true i question answer
                       = Some (first :: rest)
                    /\ startsWith (numberedQuestion i question)
                                  (text first) = true)
           /\ Discord.sendRecords true (length questions) 0
                questions answers = Some (concat blocks)
           /\ (exists trace, finishes body trace)
           /\ forall trace, finishes body trace -> oneAtATime blocks trace).
Proof.
  intros questions answers. split.
  - destruct (telegram_blocks questions answers 0) as [blocks [E [L N]]].
    pose proof (telegram_calls_sendRecords true questions answers 0 Done)
      as Ec.
    cbn [calls] in Ec. rewrite app_nil_r, E in Ec.
    pose proof (@telegram_awaits_sendRecords true questions answers 0 Done I)
      as Ha.
    exists blocks.
    split; [exact L |]. split.
    { intros i question answer Hq Han.
      destruct (telegram_sendRecord_head i question answer)
        as [first [rest [Es Hs]]].
      exists first, rest. rewrite <- Es.
      split; [exact (N i question answer Hq Han) |].
      split; [reflexivity | exact Hs]. }
    split; [exact E |]. split.
    { eexists. exact (@awaited_finishes _ Ha). }
    intros trace Hrun.
    rewrite (@finishes_awaited _ Ha _ Hrun), Ec.
    apply oneAtATime_awaited.
  - destruct (discord_blocks questions answers (length questions) 0 Done)
      as [body [blocks [Eb [Ec [Ha [El [L N]]]]]]].
    cbn [calls] in Ec. rewrite app_nil_r in Ec.
    specialize (Ha I).
    exists body, blocks.
    split; [exact Eb |]. split; [exact L |]. split.
    { intros i question answer Hq Han.
      destruct (N i question answer Hq Han) as [sent [Es Hn]].
      cbn [Nat.add] in Es, Hn.
      destruct (discord_sendRecord_head _ _ _ Es) as [first [rest [-> Hs]]].
      exists first, rest. repeat split; assumption. }
    split; [exact El |]. split.
    { eexists. exact (@awaited_finishes _ Ha). }
    intros trace Hrun.
    rewrite (@finishes_awaited _ Ha _ Hrun), Ec.
    apply oneAtATime_awaited.
Qed.

Lemma records_sent_in_order_witness :
  let questions := [lit "Q1"; lit "Q2"] in
  let answers := [lit "A1"; lit "A2"] in
  (exists blocks,
      length blocks = Nat.min (length questions) (length answers)
      /\ (forall i question answer,
             nth_error questions i = Some question ->
             nth_error answers i = Some answer ->
             exists first rest,
               nth_error blocks i = Some (first :: rest)
               /\ Telegram.sendRecord true i question answer
                  = first :: rest
               /\ startsWith (numberedQuestion i question) (text first)
                  = true)
      /\ Telegram.sendRecords true 0 questions answers = concat blocks
      /\ (exists trace,
             finishes
               (TelegramAsync.sendRecords true 0 questions answers Done)
               trace)
      /\ forall trace,
           finishes
             (TelegramAsync.sendRecords true 0 questions answers Done)
             trace ->
           oneAtATime blocks trace)
  /\ (exists body blocks,
         DiscordAsync.sendRecords true (length questions) 0
           questions answers Done = Some body
         /\ length blocks = Nat.min (length questions) (length answers)
         /\ (forall i question answer,
                nth_error questions i = Some question ->
                nth_error answers i = Some answer ->
                exists first rest,
                  nth_error blocks i
                  = Some ((first :: rest)
                          ++ Discord.separator true (length questions) i)
                  /\ Discord.sendRecord true i question answer
                     = Some (first :: rest)
                  /\ startsWith (numberedQuestion i question)
                                (text first) = true)
         /\ Discord.sendRecords true (length questions) 0
              questions answers = Some (concat blocks)
         /\ (exists trace, finishes body trace)
         /\ forall trace, finishes body trace -> oneAtATime blocks trace).
Proof.
  exact (@records_sent_in_order [lit "Q1"; lit "Q2"] [lit "A1"; lit "A2"]).
Defined.

(** ** Telegram groups: the answer buffer *)









(** ** Scenario A: one group, paragraph messages *)

(** C7, as the code has it. The block gives the one record ("What caused
    X?", "Because Y.") and the handler makes one callback call, whose text
    is a newline followed by "1. What caused X?\n\nAnswer: Because Y.". *)
Theorem scenario_single_message :
  extract Telegram.marker scenarioOutput = Some scenarioBlock
  /\ Telegram.parse scenarioBlock
     = ([lit "What caused X?"], [lit "Because Y."])
  /\ Telegram.deliver true scenarioOutput
     = [Telegram.say (nl ++ lit "1. What caused X?" ++ nl ++ nl
                      ++ lit "Answer: Because Y.")].
Proof. repeat split; vm_compute; reflexivity. Qed.

(** C7 as stated fails: the text of the message is not exactly
    "1. What caused X?\n\nAnswer: Because Y."; it starts with a newline. *)
Lemma scenario_text_has_leading_newline :
  ~ (Telegram.deliver true scenarioOutput
     = [Telegram.say (lit "1. What caused X?" ++ nl ++ nl
                      ++ lit "Answer: Because Y.")]).
Proof. vm_compute. discriminate. Qed.

(** ** Groups that lack a tag, and [---] inside a line *)

(** The two arrays are filled independently of each other: [questions]
    gets the question of every group that has one, [answers] the joined
    buffer of every group that has one. *)
Lemma parse_collects_independently (resultsBlock : jsstring) :
  Telegram.parse resultsBlock
  = (flat_map (fun pair =>
                 let st := Telegram.scanGroup pair in
                 if truthy (Telegram.currentQuestion st)
                 then [Telegram.currentQuestion st] else [])
              (Telegram.qaPairs resultsBlock),
     flat_map (fun pair =>
                 let st := Telegram.scanGroup pair in
                 if (Z.of_nat (length (Telegram.currentAnswerLines st)) >? 0)%Z
                 then [join (nl ++ nl) (Telegram.currentAnswerLines st)]
                 else [])
              (Telegram.qaPairs resultsBlock)).
Proof.
  unfold Telegram.parse.
  set (qOf := fun pair : jsstring => _).
  set (aOf := fun pair : jsstring => _).
  assert (H : forall groups questions answers,
             fold_left Telegram.collect groups (questions, answers)
             = (questions ++ flat_map qOf groups,
                answers ++ flat_map aOf groups)).
  { induction groups as [| pair groups IH]; intros questions answers.
    - cbn. rewrite !app_nil_r. reflexivity.
    - cbn [fold_left flat_map]. unfold Telegram.collect at 2.
      cbn [fst snd]. rewrite IH. subst qOf aOf. cbv beta zeta.
      destruct (truthy _); destruct (_ >? 0)%Z;
        rewrite <- ?app_assoc; reflexivity. }
  apply H.
Qed.

(** C1 at its failing inputs. No group of [questionThenAnswer] has both
    tags, yet one record is sent, made of the question of the first group
    and the answer of the second.  In [questionThenPair] the first group
    lacks an answer and the answer of the second group is sent under the
    question of the first. *)
Theorem incomplete_group_shifts_pairing :
  specRecordCount questionThenAnswer = 0
  /\ Telegram.parse questionThenAnswer = ([lit "Q1"], [lit "A2"])
  /\ Telegram.deliver true (wrapTelegram questionThenAnswer)
     = [Telegram.say (nl ++ lit "1. Q1" ++ nl ++ nl ++ lit "Answer: A2")]
  /\ specRecordCount questionThenPair = 1
  /\ Telegram.parse questionThenPair = ([lit "Q1"; lit "Q2"], [lit "A2"])
  /\ Telegram.deliver true (wrapTelegram questionThenPair)
     = [Telegram.say (nl ++ lit "1. Q1" ++ nl ++ nl ++ lit "Answer: A2")].
Proof. repeat split; vm_compute; reflexivity. Qed.

(** C4 at its failing input. The block has one separator line, but the
    [---] inside the question line cuts the group in two: the question is
    sent as "Is it A" and the rest of its line is lost.  The line scan of
    the Discord handler keeps the whole question. *)
Theorem dashes_inside_line_split_group :
  Telegram.qaPairs dashesInQuestion
  = [lit "QUESTION_1:::Is it A";
     lit "B?" ++ nl ++ lit "ANSWER_1:::Yes." ++ nl]
  /\ Telegram.parse dashesInQuestion = ([lit "Is it A"], [lit "Yes."])
  /\ Telegram.deliver true (wrapTelegram dashesInQuestion)
     = [Telegram.say (nl ++ lit "1. Is it A" ++ nl ++ nl
                      ++ lit "Answer: Yes.")]
  /\ Discord.parse dashesInQuestion = ([lit "Is it A---B?"], [lit "Yes."]).
Proof. repeat split; vm_compute; reflexivity. Qed.

(** ** The result regex: the block it finds *)

Section RegexBlock.

Variable marker : jsstring.

Lemma lazyCapture_eq (s : jsstring) :
  lazyCapture marker s
  = if startsWith (closeLit marker) s then Some []
    else match s with
         | [] => None
         | c :: s' => option_map (cons c) (lazyCapture marker s')
         end.
Proof. destruct s; reflexivity. Qed.

Lemma regexMatch_eq (s : jsstring) :
  regexMatch marker s
  = match matchAt marker s with
    | Some body => Some body
    | None => match s with
              | [] => None
              | _ :: s' => regexMatch marker s'
              end
    end.
Proof. destruct s; reflexivity. Qed.

Lemma lazyCapture_lazy (s : jsstring) :
  forall body, lazyCapture marker s = Some body ->
    forall i, i < length body ->
      startsWith (closeLit marker) (skipn i s) = false.
Proof.
  induction s as [| c s IH]; intros body H i Hi; rewrite lazyCapture_eq in H.
  - destruct (startsWith (closeLit marker) []); [| discriminate].
    injection H as <-. cbn in Hi. lia.
  - destruct (startsWith (closeLit marker) (c :: s)) eqn:Hc.
    + injection H as <-. cbn in Hi. lia.
    + destruct (lazyCapture marker s) as [b |] eqn:Hs; [| discriminate].
      cbn in H. injection H as <-.
      destruct i as [| i]; [exact Hc |].
      cbn [skipn]. apply (IH b eq_refl). cbn in Hi. lia.
Qed.

Lemma lazyCapture_complete (body : jsstring) :
  forall post,
    (forall i, i < length body ->
       startsWith (closeLit marker)
                  (skipn i (body ++ closeLit marker ++ post)) = false) ->
    lazyCapture marker (body ++ closeLit marker ++ post) = Some body.
Proof.
  induction body as [| c body IH]; intros post H; rewrite lazyCapture_eq.
  - cbn [app]. rewrite startsWith_app. reflexivity.
  - assert (H0 : 0 < length (c :: body)) by (cbn; lia).
    apply H in H0. cbn [skipn] in H0. rewrite H0.
    cbn [app]. rewrite IH; [reflexivity |].
    intros i Hi. apply (H (S i)). cbn. lia.
Qed.

Lemma lazyCapture_some (body post : jsstring) :
  lazyCapture marker (body ++ closeLit marker ++ post) <> None.
Proof.
  induction body as [| c body IH]; rewrite lazyCapture_eq.
  - cbn [app]. rewrite startsWith_app. discriminate.
  - destruct (startsWith (closeLit marker) _); [discriminate |].
    cbn [app]. destruct (lazyCapture marker _); [discriminate | congruence].
Qed.

Lemma matchAt_open (rest : jsstring) :
  matchAt marker (openLit marker ++ rest) = lazyCapture marker rest.
Proof.
  unfold matchAt. rewrite startsWith_app.
  rewrite skipn_app, skipn_all, Nat.sub_diag. reflexivity.
Qed.

Lemma matchAt_no_open (s : jsstring) :
  startsWith (openLit marker) s = false -> matchAt marker s = None.
Proof. intros H. unfold matchAt. rewrite H. reflexivity. Qed.

Lemma regexMatch_first (s : jsstring) :
  forall body, regexMatch marker s = Some body ->
    exists pre rest,
      s = pre ++ rest
      /\ matchAt marker rest = Some body
      /\ forall j, j < length pre -> matchAt marker (skipn j s) = None.
Proof.
  induction s as [| c s IH]; intros body H; rewrite regexMatch_eq in H.
  - destruct (matchAt marker []) as [b |] eqn:Hm; [| discriminate].
    injection H as <-. exists [], []. repeat split; trivial.
    intros j Hj. cbn in Hj. lia.
  - destruct (matchAt marker (c :: s)) as [b |] eqn:Hm.
    + injection H as <-. exists [], (c :: s). repeat split; trivial.
      intros j Hj. cbn in Hj. lia.
    + destruct (IH _ H) as [pre [rest [E [Hr Hfirst]]]].
      exists (c :: pre), rest. split; [cbn; f_equal; exact E |].
      split; [exact Hr |].
      intros [| j] Hj; [exact Hm |].
      cbn [skipn]. apply Hfirst. cbn in Hj. lia.
Qed.

End RegexBlock.

(** X1. When [extract] finds a block, the output is an opening literal, the
    block, a closing literal; the block is not empty; it is the shortest
    one (no closing literal starts inside it); and it belongs to the first
    opening literal that has a closing literal after it. *)
Theorem extract_found_block :
  forall marker stdout body,
    extract marker stdout = Some body ->
    body <> []
    /\ exists pre post,
         stdout = pre ++ openLit marker ++ body ++ closeLit marker ++ post
         /\ (forall i, i < length body ->
               startsWith (closeLit marker)
                          (skipn i (body ++ closeLit marker ++ post)) = false)
         /\ (forall pre' body' post',
               stdout
               = pre' ++ openLit marker ++ body' ++ closeLit marker ++ post' ->
               length pre <= length pre').
Proof.
  intros marker stdout body H. unfold extract in H.
  destruct (regexMatch marker stdout) as [b |] eqn:Hm; [| discriminate].
  destruct (truthy b) eqn:Hb; [| discriminate].
  injection H as <-.
  split; [destruct b; [discriminate Hb | discriminate] |].
  destruct (regexMatch_first _ _ Hm) as [pre [rest [E [Hr Hfirst]]]].
  unfold matchAt in Hr.
  destruct (startsWith (openLit marker) rest) eqn:Ho; [| discriminate].
  apply startsWith_true in Ho.
  pose proof (lazyCapture_lazy _ _ Hr) as Hlazy.
  destruct (lazyCapture_sound _ _ Hr) as [post Epost].
  exists pre, post. split; [| split].
  - rewrite E, Ho, Epost. reflexivity.
  - rewrite <- Epost. exact Hlazy.
  - intros pre' body' post' E'.
    destruct (Nat.le_gt_cases (length pre) (length pre')) as [Hle | Hgt];
      [exact Hle |].
    specialize (Hfirst (length pre') Hgt).
    rewrite E' in Hfirst at 1.
    rewrite skipn_app, skipn_all, Nat.sub_diag in Hfirst.
    cbn [skipn app] in Hfirst.
    rewrite matchAt_open in Hfirst.
    exfalso. exact (lazyCapture_some _ _ _ Hfirst).
Qed.

Lemma extract_found_block_witness :
  extract Telegram.marker scenarioOutput = Some scenarioBlock
  /\ scenarioBlock <> []
  /\ exists pre post,
       scenarioOutput
       = pre ++ openLit Telegram.marker ++ scenarioBlock
         ++ closeLit Telegram.marker ++ post
       /\ (forall i, i < length scenarioBlock ->
             startsWith (closeLit Telegram.marker)
               (skipn i (scenarioBlock ++ closeLit Telegram.marker ++ post))
             = false)
       /\ (forall pre' body' post',
             scenarioOutput
             = pre' ++ openLit Telegram.marker ++ body'
               ++ closeLit Telegram.marker ++ post' ->
             length pre <= length pre').
Proof.
  split.
  - vm_compute. reflexivity.
  - apply (@extract_found_block Telegram.marker scenarioOutput scenarioBlock).
    vm_compute. reflexivity.
Defined.

Lemma regexMatch_finds_block (marker pre body post : jsstring) :
  (forall j, j < length pre ->
     startsWith (openLit marker)
       (skipn j (pre ++ openLit marker ++ body ++ closeLit marker ++ post))
     = false) ->
  (forall i, i < length body ->
     startsWith (closeLit marker)
                (skipn i (body ++ closeLit marker ++ post)) = false) ->
  regexMatch marker
             (pre ++ openLit marker ++ body ++ closeLit marker ++ post)
  = Some body.
Proof.
  intros Hpre Hbody.
  induction pre as [| c pre IH].
  - cbn [app]. rewrite regexMatch_eq, matchAt_open.
    rewrite lazyCapture_complete by exact Hbody. reflexivity.
  - rewrite regexMatch_eq.
    assert (H0 : 0 < length (c :: pre)) by (cbn; lia).
    apply Hpre in H0. cbn [skipn] in H0.
    rewrite (matchAt_no_open _ _ H0).
    cbn [app]. apply IH.
    intros j Hj. apply (Hpre (S j)). cbn. lia.
Qed.

Lemma extract_of_regexMatch (marker stdout body : jsstring) :
  body <> [] -> regexMatch marker stdout = Some body ->
  extract marker stdout = Some body.
Proof.
  intros Hne Hm. unfold extract. rewrite Hm.
  destruct body; [congruence | reflexivity].
Qed.

(** X2. Conversely, a non-empty block between an opening and a closing
    literal is found when no opening literal starts before it and no
    closing literal starts inside it. *)
Theorem extract_finds_block :
  forall marker pre body post,
    body <> [] ->
    (forall j, j < length pre ->
       startsWith (openLit marker)
         (skipn j (pre ++ openLit marker ++ body ++ closeLit marker ++ post))
       = false) ->
    (forall i, i < length body ->
       startsWith (closeLit marker)
                  (skipn i (body ++ closeLit marker ++ post)) = false) ->
    extract marker
            (pre ++ openLit marker ++ body ++ closeLit marker ++ post)
    = Some body.
Proof.
  intros marker pre body post Hne Hpre Hbody.
  apply extract_of_regexMatch; [exact Hne |].
  apply regexMatch_finds_block; assumption.
Qed.

Lemma startsNowhere_spec (p : jsstring) (n : nat) :
  forall s, startsNowhere p s n = true ->
    forall j, j < n -> startsWith p (skipn j s) = false.
Proof.
  induction n as [| n IH]; intros s H j Hj; [lia |].
  change (negb (startsWith p s)
          && match s with
             | [] => true
             | _ :: s' => startsNowhere p s' n
             end = true) in H.
  apply andb_prop in H. destruct H as [H0 Hrest].
  apply negb_true_iff in H0.
  destruct j as [| j]; [exact H0 |].
  destruct s as [| c s]; [exact H0 |].
  cbn [skipn]. apply IH; [exact Hrest | lia].
Qed.

Lemma extract_finds_block_witness :
  let pre := rule80 ++ nl in
  let post := nl ++ rule80 ++ nl in
  scenarioBlock <> []
  /\ (forall j, j < length pre ->
        startsWith (openLit Telegram.marker)
          (skipn j (pre ++ openLit Telegram.marker ++ scenarioBlock
                    ++ closeLit Telegram.marker ++ post))
        = false)
  /\ (forall i, i < length scenarioBlock ->
        startsWith (closeLit Telegram.marker)
          (skipn i (scenarioBlock ++ closeLit Telegram.marker ++ post))
        = false)
  /\ extract Telegram.marker
       (pre ++ openLit Telegram.marker ++ scenarioBlock
        ++ closeLit Telegram.marker ++ post)
     = Some scenarioBlock.
Proof.
  intros pre post.
  assert (H1 : scenarioBlock <> []) by discriminate.
  assert (H2 : forall j, j < length pre ->
             startsWith (openLit Telegram.marker)
               (skipn j (pre ++ openLit Telegram.marker ++ scenarioBlock
                         ++ closeLit Telegram.marker ++ post))
             = false).
  { apply startsNowhere_spec. vm_compute. reflexivity. }
  assert (H3 : forall i, i < length scenarioBlock ->
             startsWith (closeLit Telegram.marker)
               (skipn i (scenarioBlock ++ closeLit Telegram.marker ++ post))
             = false).
  { apply startsNowhere_spec. vm_compute. reflexivity. }
  split; [exact H1 |]. split; [exact H2 |]. split; [exact H3 |].
  apply (@extract_finds_block Telegram.marker pre scenarioBlock post H1 H2 H3).
Defined.

(** ** The handlers never end silently *)

Lemma length_gtb_0 {A : Type} (l : list A) :
  (Z.of_nat (length l) >? 0)%Z
  = match l with [] => false | _ :: _ => true end.
Proof.
  destruct l; [reflexivity |].
  cbn [length]. apply Z.gtb_lt. lia.
Qed.

Lemma telegram_sendRecord_nonempty (i : nat) (question answer : jsstring) :
  Telegram.sendRecord true i question answer <> [].
Proof.
  unfold Telegram.sendRecord.
  destruct (filter _ _); cbn [callback app]; discriminate.
Qed.

Lemma telegram_deliver_nonempty (stdout : jsstring) :
  Telegram.deliver true stdout <> [].
Proof.
  unfold Telegram.deliver.
  destruct (extract Telegram.marker stdout) as [block |];
    [| cbn; discriminate].
  destruct (Telegram.parse block) as [questions answers].
  rewrite !length_gtb_0.
  destruct questions as [| q questions]; [cbn; discriminate |].
  destruct answers as [| a answers]; [cbn; discriminate |].
  cbn [andb Telegram.sendRecords].
  intros H. apply app_eq_nil in H. destruct H as [H _].
  exact (telegram_sendRecord_nonempty _ _ _ H).
Qed.

Lemma discord_deliver_nonempty (stdout : jsstring) :
  exists sent, Discord.deliver true stdout = Some sent /\ sent <> [].
Proof.
  unfold Discord.deliver.
  destruct (extract Discord.marker stdout) as [block |];
    [| eexists; split; [reflexivity | cbn; discriminate]].
  destruct (Discord.parse block) as [questions answers].
  destruct (_ && _)%bool;
    [| eexists; split; [reflexivity | cbn; discriminate]].
  destruct (discord_sendRecords_total questions answers
              (length questions) 0) as [trace ->].
  eexists; split; [reflexivity | cbn; discriminate].
Qed.

(** X3. After the acknowledgement the user always gets at least one more
    message, however the pipeline call ends: results, one of the two
    notices, or the error report.  Without a photo (Telegram) or without an
    image attachment (Discord) nothing is sent, not even the
    acknowledgement. *)
Theorem handlers_never_silent :
  forall outcome,
    (forall photos,
        0 < photos ->
        exists rest,
          telegramHandle photos true outcome
          = Telegram.say ackNotice :: rest /\ rest <> [])
    /\ telegramHandle 0 true outcome = []
    /\ (forall contentTypes,
           existsb isImageType contentTypes = true ->
           exists rest,
             discordHandle contentTypes true outcome
             = Some (Discord.say ackNotice :: rest) /\ rest <> [])
    /\ (forall contentTypes,
           existsb isImageType contentTypes = false ->
           discordHandle contentTypes true outcome = Some []).
Proof.
  intros outcome. split; [| split; [reflexivity | split]].
  - intros photos Hp. unfold telegramHandle.
    replace (Z.of_nat photos >? 0)%Z with true
      by (symmetry; apply Z.gtb_lt; lia).
    cbn [callback app]. eexists. split; [reflexivity |].
    destruct outcome as [stdout | message].
    + apply telegram_deliver_nonempty.
    + discriminate.
  - intros contentTypes Himg. unfold discordHandle.
    assert (Hf : filter isImageType contentTypes <> []).
    { apply existsb_exists in Himg. destruct Himg as [t [Hin Ht]].
      intros E.
      assert (Hin' : In t (filter isImageType contentTypes))
        by (apply filter_In; split; assumption).
      rewrite E in Hin'. exact Hin'. }
    rewrite length_gtb_0.
    destruct contentTypes as [| t contentTypes]; [discriminate Himg |].
    destruct (filter isImageType (t :: contentTypes)) as [| t' images];
      [congruence |].
    cbn [length]. replace (Z.of_nat (S (length images)) =? 0)%Z with false
      by (symmetry; apply Z.eqb_neq; lia).
    destruct outcome as [stdout | message].
    + destruct (discord_deliver_nonempty stdout) as [sent [-> Hne]].
      cbn [callback app]. eexists. split; [reflexivity | exact Hne].
    + cbn [callback app]. eexists. split; [reflexivity | discriminate].
  - intros contentTypes Himg. unfold discordHandle.
    rewrite length_gtb_0.
    destruct contentTypes as [| t contentTypes]; [reflexivity |].
    assert (Hf : filter isImageType (t :: contentTypes) = []).
    { destruct (filter isImageType (t :: contentTypes)) as [| x l] eqn:E;
        [reflexivity |].
      assert (Hin : In x (filter isImageType (t :: contentTypes)))
        by (rewrite E; left; reflexivity).
      apply filter_In in Hin. destruct Hin as [Hin Hx].
      assert (Hex : existsb isImageType (t :: contentTypes) = true)
        by (apply existsb_exists; exists x; split; assumption).
      congruence. }
    rewrite Hf. reflexivity.
Qed.

Lemma handlers_never_silent_witness :
  (0 < 2
   /\ exists rest,
        telegramHandle 2 true (Failed (lit "timeout"))
        = Telegram.say ackNotice :: rest /\ rest <> [])
  /\ (existsb isImageType [None; Some (lit "image/png")] = true
      /\ exists rest,
           discordHandle [None; Some (lit "image/png")] true
                         (Completed cutOffOutput)
           = Some (Discord.say ackNotice :: rest) /\ rest <> [])
  /\ (existsb isImageType [Some (lit "text/plain")] = false
      /\ discordHandle [Some (lit "text/plain")] true (Completed cutOffOutput)
         = Some []).
Proof.
  split; [| split].
  - split; [lia |].
    apply (proj1 (handlers_never_silent (Failed (lit "timeout"))) 2). lia.
  - split; [reflexivity |].
    apply (proj1 (proj2 (proj2 (handlers_never_silent (Completed cutOffOutput))))).
    reflexivity.
  - split; [reflexivity |].
    apply (proj2 (proj2 (proj2 (handlers_never_silent (Completed cutOffOutput))))).
    reflexivity.
Defined.

(** ** The splitting loop, turn by turn *)

Lemma splitLoop_run (chunkSize : Z) (fuel : nat) :
  forall answerChunks remainingAnswer result,
    splitLoop chunkSize fuel answerChunks remainingAnswer = Some result ->
    exists chunks,
      result = answerChunks ++ chunks
      /\ LoopRun chunkSize remainingAnswer chunks.
Proof.
  induction fuel as [| fuel IH]; intros acc rem result H;
    cbn [splitLoop] in H; rewrite len_gtb_0 in H.
  - destruct rem; [| discriminate]. injection H as <-.
    exists []. rewrite app_nil_r. split; [reflexivity | constructor].
  - destruct rem as [| c rem'] eqn:E.
    + injection H as <-.
      exists []. rewrite app_nil_r. split; [reflexivity | constructor].
    + rewrite <- E in *.
      destruct (IH _ _ _ H) as [chunks [Er Hrun]].
      exists (nextChunk chunkSize rem :: chunks).
      split; [rewrite Er, <- app_assoc; reflexivity |].
      constructor; [rewrite E; discriminate | exact Hrun].
Qed.

Lemma splitAnswer_run (chunkSize : Z) (answer : jsstring)
      (chunks : list jsstring) :
  splitAnswer chunkSize answer = Some chunks ->
  LoopRun chunkSize answer chunks.
Proof.
  intros H. destruct (@splitLoop_run _ _ _ _ _ H) as [cs [E Hrun]].
  cbn [app] in E. subst cs. exact Hrun.
Qed.

Lemma trimStart_clean (s : jsstring) : cleanStart (trimStart s).
Proof.
  induction s as [| c s IH]; cbn [trimStart]; [exact I |].
  destruct (isWhiteSpace c) eqn:Hc; [exact IH | exact Hc].
Qed.

Lemma trim_clean (s : jsstring) : cleanStart (trim s).
Proof.
  unfold trim.
  pose proof (trimStart_clean s) as Hs.
  destruct (trimEnd_split (trimStart s)) as [w [_ E]].
  destruct (trimEnd (trimStart s)) as [| c r]; [exact I |].
  rewrite E in Hs. exact Hs.
Qed.

Lemma nextChunk_short (chunkSize : Z) (remainingAnswer : jsstring) :
  (len remainingAnswer <= chunkSize)%Z ->
  nextChunk chunkSize remainingAnswer = remainingAnswer
  /\ advance remainingAnswer (nextChunk chunkSize remainingAnswer) = [].
Proof.
  intros Hle.
  assert (E : nextChunk chunkSize remainingAnswer = remainingAnswer).
  { unfold nextChunk.
    replace (len remainingAnswer >? chunkSize)%Z with false
      by (symmetry; rewrite Z.gtb_ltb; apply Z.ltb_ge; lia).
    rewrite substring_prefix. apply firstn_all2. unfold len in Hle. lia. }
  split; [exact E |].
  rewrite E. unfold advance. rewrite substringFrom_suffix.
  unfold len. rewrite Nat2Z.id, skipn_all. reflexivity.
Qed.

Lemma nextChunk_long (remainingAnswer : jsstring) :
  (len remainingAnswer > Discord.chunkSize)%Z ->
  (1297 <= len (nextChunk Discord.chunkSize remainingAnswer))%Z.
Proof.
  intros Hgt. unfold nextChunk.
  replace (len remainingAnswer >? Discord.chunkSize)%Z with true
    by (symmetry; apply Z.gtb_lt; lia).
  set (cand := substring remainingAnswer 0 Discord.chunkSize).
  assert (Hcand : len cand = Discord.chunkSize).
  { subst cand. rewrite substring_prefix. unfold len in *.
    rewrite length_firstn.
    unfold Discord.chunkSize, Discord.DISCORD_MAX_LENGTH in *. lia. }
  set (breakPoint := Z.max _ _).
  unfold pastFraction.
  destruct (10 * breakPoint >? 7 * Discord.chunkSize)%Z eqn:Hbp.
  - apply Z.gtb_lt in Hbp. rewrite substring_prefix.
    unfold len in *. rewrite length_firstn.
    unfold Discord.chunkSize, Discord.DISCORD_MAX_LENGTH in *. lia.
  - rewrite Hcand.
    unfold Discord.chunkSize, Discord.DISCORD_MAX_LENGTH. lia.
Qed.

Lemma LoopRun_sizes (remainingAnswer : jsstring) (chunks : list jsstring) :
  LoopRun Discord.chunkSize remainingAnswer chunks ->
  Forall (fun chunk => (1297 <= len chunk)%Z) (removelast chunks).
Proof.
  intros H. induction H as [| rem chunks Hne Hrun IH]; [constructor |].
  destruct chunks as [| c chunks]; [constructor |].
  change (removelast (nextChunk Discord.chunkSize rem :: c :: chunks))
    with (nextChunk Discord.chunkSize rem :: removelast (c :: chunks)).
  constructor; [| exact IH].
  destruct (Z_le_gt_dec (len rem) Discord.chunkSize) as [Hle | Hgt].
  - destruct (@nextChunk_short _ _ Hle) as [_ Hadv].
    rewrite Hadv in Hrun. inversion Hrun. congruence.
  - apply nextChunk_long. exact Hgt.
Qed.

Lemma LoopRun_clean (chunkSize : Z) (remainingAnswer : jsstring)
      (chunks : list jsstring) :
  (0 < chunkSize)%Z ->
  LoopRun chunkSize remainingAnswer chunks ->
  cleanStart remainingAnswer ->
  Forall cleanStart chunks.
Proof.
  intros Hpos H.
  induction H as [| rem chunks Hne Hrun IH]; intros Hclean; [constructor |].
  constructor.
  - destruct (@nextChunk_prefix _ Hpos rem) as [k [Hk [_ E]]].
    rewrite E. destruct rem as [| c rem]; [congruence |].
    destruct k; [lia | exact Hclean].
  - apply IH. unfold advance. apply trim_clean.
Qed.

Lemma Reassembles_concat_length (gap : jsstring -> Prop)
      (chunks : list jsstring) (s : jsstring) :
  Reassembles gap chunks s -> length (concat chunks) <= length s.
Proof.
  intros H. induction H as [| c g cs rest Hg HR IH]; [cbn; lia |].
  cbn [concat]. rewrite !length_app. lia.
Qed.

Lemma concat_length_removelast (chunks : list jsstring) (m : nat) :
  Forall (fun chunk => (Z.of_nat m <= len chunk)%Z) (removelast chunks) ->
  m * (length chunks - 1) <= length (concat chunks).
Proof.
  induction chunks as [| c chunks IH]; intros H; [cbn; lia |].
  destruct chunks as [| c' chunks]; [cbn; lia |].
  change (removelast (c :: c' :: chunks))
    with (c :: removelast (c' :: chunks)) in H.
  inversion H as [| ? ? Hc Hrest]; subst.
  specialize (IH Hrest).
  cbn [concat length] in *. rewrite length_app. unfold len in Hc.
  nia.
Qed.

(** X4. Every chunk of a split answer except the last has at least 1297 code
    units, so an answer of n code units is split into at most
    n / 1297 + 1 chunks; and every chunk after the first starts with a code
    unit that is not white space. *)
Theorem chunks_are_substantial :
  forall answer chunks,
    splitAnswer Discord.chunkSize answer = Some chunks ->
    Forall (fun chunk => (1297 <= len chunk)%Z) (removelast chunks)
    /\ 1297 * (length chunks - 1) <= length answer
    /\ Forall (fun chunk =>
                 exists c rest,
                   chunk = c :: rest /\ isWhiteSpace c = false)
              (tl chunks).
Proof.
  intros answer chunks H.
  pose proof (@splitAnswer_run _ _ _ H) as Hrun.
  pose proof (@LoopRun_sizes _ _ Hrun) as Hsizes.
  split; [exact Hsizes |]. split.
  - destruct (@splitLoop_spec _ chunkSize_pos (length answer) [] answer
                (Nat.le_refl _)) as [chunks' [E [HR _]]].
    unfold splitAnswer in H. rewrite E in H. injection H as <-.
    apply Reassembles_concat_length in HR.
    pose proof (@concat_length_removelast chunks' 1297 Hsizes). lia.
  - inversion Hrun as [| rem chunks' Hne Hrest]; subst; [constructor |].
    cbn [tl].
    assert (Hclean : Forall cleanStart chunks').
    { apply (@LoopRun_clean _ _ _ chunkSize_pos Hrest).
      unfold advance. apply trim_clean. }
    assert (Hnonempty : forall rem0 cs0,
               LoopRun Discord.chunkSize rem0 cs0 ->
               Forall (fun chunk => chunk <> []) cs0).
    { intros rem0 cs0 Hr.
      induction Hr as [| r cs1 Hn Hr IH]; constructor; trivial.
      apply nextChunk_nonempty; [exact chunkSize_pos | exact Hn]. }
    specialize (Hnonempty _ _ Hrest).
    clear - Hclean Hnonempty.
    induction chunks' as [| c0 chunks' IH]; [constructor |].
    inversion Hclean; inversion Hnonempty; subst.
    constructor; [| apply IH; assumption].
    destruct c0 as [| x r]; [congruence |].
    exists x, r. split; [reflexivity | assumption].
Qed.

Lemma chunks_are_substantial_witness :
  splitAnswer Discord.chunkSize blanksAfterCut
  = Some [repeat 97%N 1850; lit "b"]
  /\ Forall (fun chunk => (1297 <= len chunk)%Z)
            (removelast [repeat 97%N 1850; lit "b"])
  /\ 1297 * (length [repeat 97%N 1850; lit "b"] - 1) <= length blanksAfterCut
  /\ Forall (fun chunk =>
               exists c rest,
                 chunk = c :: rest /\ isWhiteSpace c = false)
            (tl [repeat 97%N 1850; lit "b"]).
Proof.
  split.
  - vm_compute. reflexivity.
  - apply (@chunks_are_substantial blanksAfterCut).
    vm_compute. reflexivity.
Defined.

(** ** The Discord separator after the last record *)

Lemma discord_sendRecords_exhausted (total i : nat)
      (questions answers : list jsstring) :
  questions = [] \/ answers = [] ->
  Discord.sendRecords true total i questions answers = Some [].
Proof.
  intros [-> | ->]; [reflexivity |].
  destruct questions; reflexivity.
Qed.

(** X5. The separator "---" is sent between records by comparing the record
    index with the number of questions, not with the number of records
    sent: after the last record there is no separator when every question
    has an answer, and there is one when questions outnumber answers. *)
Theorem discord_separator_after_last :
  forall questions answers,
    questions <> [] -> answers <> [] ->
    let last := Nat.min (length questions) (length answers) - 1 in
    exists before sent question answer,
      nth_error questions last = Some question
      /\ nth_error answers last = Some answer
      /\ Discord.sendRecord true last question answer = Some sent
      /\ Discord.sendRecords true (length questions) 0 questions answers
         = Some (before ++ sent
                 ++ if length answers <? length questions
                    then [Discord.say (lit "---")] else []).
Proof.
  intros questions answers Hq Ha last.
  assert (Hlq : 0 < length questions) by (destruct questions; [congruence | cbn; lia]).
  assert (Hla : 0 < length answers) by (destruct answers; [congruence | cbn; lia]).
  destruct (nth_error questions last) as [question |] eqn:Eq;
    [| apply nth_error_None in Eq; subst last; lia].
  destruct (nth_error answers last) as [answer |] eqn:Ea;
    [| apply nth_error_None in Ea; subst last; lia].
  destruct (discord_sendRecords_total questions answers (length questions) 0)
    as [trace Ht].
  destruct (@discord_sendRecords_nth last _ _ _ 0 _ _ _ Ht Eq Ea)
    as [before [sent [rest [Hs [Hr E]]]]].
  cbn [Nat.add] in Hs, Hr, E.
  rewrite discord_sendRecords_exhausted in Hr.
  - injection Hr as <-. rewrite app_nil_r in E.
    exists before, sent, question, answer.
    repeat split; trivial.
    rewrite Ht, E. do 3 f_equal.
    unfold Discord.separator.
    destruct (length answers <? length questions) eqn:Hlt.
    + apply Nat.ltb_lt in Hlt.
      replace (Z.of_nat last <? Z.of_nat (length questions) - 1)%Z with true
        by (symmetry; apply Z.ltb_lt; subst last; lia).
      reflexivity.
    + apply Nat.ltb_ge in Hlt.
      replace (Z.of_nat last <? Z.of_nat (length questions) - 1)%Z with false
        by (symmetry; apply Z.ltb_ge; subst last; lia).
      reflexivity.
  - destruct (Nat.le_ge_cases (length questions) (length answers)) as [H | H].
    + left. apply skipn_all2. subst last. lia.
    + right. apply skipn_all2. subst last. lia.
Qed.

Lemma discord_separator_after_last_witness :
  let questions := [lit "Q1"; lit "Q2"] in
  let answers := [lit "A1"] in
  questions <> [] /\ answers <> []
  /\ exists before sent question answer,
       nth_error questions 0 = Some question
       /\ nth_error answers 0 = Some answer
       /\ Discord.sendRecord true 0 question answer = Some sent
       /\ Discord.sendRecords true (length questions) 0 questions answers
          = Some (before ++ sent
                  ++ if length answers <? length questions
                     then [Discord.say (lit "---")] else []).
Proof.
  intros questions answers.
  assert (Hq : questions <> []) by discriminate.
  assert (Ha : answers <> []) by discriminate.
  split; [exact Hq |]. split; [exact Ha |].
  exact (@discord_separator_after_last questions answers Hq Ha).
Defined.

(** ** Splitting where the separator cannot start *)

Lemma lacks_app (c : char16) (s t : jsstring) :
  lacks c (s ++ t) = lacks c s && lacks c t.
Proof. unfold lacks. apply forallb_app. Qed.

Lemma lacks_startsWith (c0 : char16) (sep' x rest : jsstring) (c : char16) :
  lacks c0 (c :: x) = true ->
  startsWith (c0 :: sep') (c :: rest) = false.
Proof.
  unfold lacks. cbn [forallb startsWith]. intros H.
  apply andb_prop in H. destruct H as [H _].
  apply negb_true_iff in H. unfold eqb16 in *.
  rewrite N.eqb_sym, H. reflexivity.
Qed.

Section SplitFacts.

Variable c0 : char16.
Variable sep' : jsstring.

Local Abbreviation sep := (c0 :: sep').

Lemma splitAux_over (x : jsstring) :
  forall acc rest,
    lacks c0 x = true ->
    splitAux sep 0 acc (x ++ rest) = splitAux sep 0 (rev x ++ acc) rest.
Proof.
  induction x as [| c x IH]; intros acc rest H; [reflexivity |].
  cbn [app splitAux].
  rewrite (@lacks_startsWith c0 sep' x (x ++ rest) c H).
  pose proof H as H'. unfold lacks in H'. cbn [forallb] in H'.
  apply andb_prop in H'. destruct H' as [_ Hx].
  rewrite IH by exact Hx.
  cbn [rev]. rewrite <- app_assoc. reflexivity.
Qed.

Lemma splitAux_skip (pre : jsstring) :
  forall acc rest,
    splitAux sep (length pre) acc (pre ++ rest) = splitAux sep 0 acc rest.
Proof.
  induction pre as [| c pre IH]; intros acc rest; [reflexivity |].
  cbn [app length splitAux]. apply IH.
Qed.

Lemma splitAux_at_sep (acc rest : jsstring) :
  splitAux sep 0 acc (sep ++ rest) = rev acc :: splitAux sep 0 [] rest.
Proof.
  cbn [app]. cbn [splitAux].
  change (c0 :: sep' ++ rest) with ((c0 :: sep') ++ rest).
  rewrite startsWith_app.
  replace (length (c0 :: sep') - 1) with (length sep') by (cbn [length]; lia).
  rewrite splitAux_skip. reflexivity.
Qed.

(** A piece without the separator's first code unit ends at the next
    separator. *)
Lemma split_piece (x rest : jsstring) :
  lacks c0 x = true ->
  split sep (x ++ sep ++ rest) = x :: split sep rest.
Proof.
  intros H. unfold split.
  rewrite splitAux_over by exact H.
  rewrite splitAux_at_sep, app_nil_r, rev_involutive. reflexivity.
Qed.

Lemma split_whole_aux (s : jsstring) :
  forall acc,
    includes sep s = false -> splitAux sep 0 acc s = [rev acc ++ s].
Proof.
  induction s as [| c s IH]; intros acc H.
  - cbn. rewrite app_nil_r. reflexivity.
  - cbn [includes] in H. apply orb_false_elim in H. destruct H as [H0 Hs].
    cbn [splitAux]. rewrite H0. rewrite IH by exact Hs.
    cbn [rev]. rewrite <- app_assoc. reflexivity.
Qed.

(** Without an occurrence of the separator there is one piece. *)
Lemma split_whole (s : jsstring) :
  includes sep s = false -> split sep s = [s].
Proof. intros H. unfold split. rewrite split_whole_aux by exact H. reflexivity. Qed.

Lemma lacks_includes (s : jsstring) :
  lacks c0 s = true -> includes sep s = false.
Proof.
  induction s as [| c s IH]; intros H; [reflexivity |].
  cbn [includes]. rewrite (@lacks_startsWith c0 sep' s s c H).
  unfold lacks in H. cbn [forallb] in H.
  apply andb_prop in H. destruct H as [_ Hs].
  exact (IH Hs).
Qed.

(** Lines that hold none of the separator's first code unit come back
    from [join] then [split]. *)
Lemma split_join (lines : list jsstring) :
  lines <> [] ->
  Forall (fun line => lacks c0 line = true) lines ->
  split sep (join sep lines) = lines.
Proof.
  induction lines as [| x lines IH]; intros Hne H; [congruence |].
  inversion H as [| ? ? Hx Hrest]; subst.
  destruct lines as [| y lines].
  - cbn [join]. apply split_whole, lacks_includes, Hx.
  - change (join sep (x :: y :: lines)) with (x ++ sep ++ join sep (y :: lines)).
    rewrite split_piece by exact Hx.
    f_equal. apply IH; [discriminate | exact Hrest].
Qed.

End SplitFacts.

(** ** From the producer's lines to the parsed records (Discord) *)

Lemma toDigits_lacks (c : char16) (fuel : nat) :
  (c < 48 \/ 57 < c)%N ->
  forall n acc,
    lacks c acc = true -> lacks c (toDigits fuel n acc) = true.
Proof.
  intros Hc. induction fuel as [| fuel IH]; intros n acc Hacc;
    cbn [toDigits]; [exact Hacc |].
  assert (Hd : forall d, (d < 10)%N -> negb (eqb16 (digitChar d) c) = true).
  { intros d Hd. apply negb_true_iff. unfold eqb16, digitChar.
    apply N.eqb_neq. lia. }
  destruct (n <? 10)%N eqn:Hn.
  - apply N.ltb_lt in Hn. unfold lacks. cbn [forallb].
    rewrite (Hd n Hn). exact Hacc.
  - apply IH. unfold lacks. cbn [forallb].
    rewrite Hd by (apply N.mod_lt; lia). exact Hacc.
Qed.

Lemma numberToString_lacks (c : char16) (n : N) :
  (c < 48 \/ 57 < c)%N -> lacks c (numberToString n) = true.
Proof.
  intros Hc. unfold numberToString. apply toDigits_lacks; [exact Hc | reflexivity].
Qed.

(** [line.split(':::')[1]] of a tag without colon, the separator and a
    value without separator is the value. *)
Lemma field_of_tagged (tag value : jsstring) :
  lacks 58%N tag = true ->
  includes (lit ":::") value = false ->
  index (split (lit ":::") (tag ++ lit ":::" ++ value)) 1 = Some value.
Proof.
  intros Htag Hvalue.
  change (lit ":::") with (58%N :: [58%N; 58%N]) in *.
  rewrite split_piece by exact Htag.
  rewrite split_whole by exact Hvalue.
  reflexivity.
Qed.

Lemma questionLine_field (i : nat) (question : jsstring) :
  includes (lit ":::") question = false ->
  index (split (lit ":::") (Producer.questionLine i question)) 1
  = Some question.
Proof.
  intros H. unfold Producer.questionLine.
  rewrite app_assoc. apply field_of_tagged; [| exact H].
  rewrite lacks_app, numberToString_lacks by (right; reflexivity).
  reflexivity.
Qed.

Lemma answerLine_field (i : nat) (answer : jsstring) :
  includes (lit ":::") answer = false ->
  index (split (lit ":::") (Producer.answerLine i answer)) 1 = Some answer.
Proof.
  intros H. unfold Producer.answerLine.
  rewrite app_assoc. apply field_of_tagged; [| exact H].
  rewrite lacks_app, numberToString_lacks by (right; reflexivity).
  reflexivity.
Qed.

Lemma truthy_nonempty (s : jsstring) : s <> [] -> truthy s = true.
Proof. destruct s; [congruence | reflexivity]. Qed.

Lemma discord_scan_question (qa : list jsstring * list jsstring) (i : nat)
      (question : jsstring) :
  plainValue question ->
  Discord.scanLine qa (Producer.questionLine i question)
  = (fst qa ++ [trim question], snd qa).
Proof.
  intros [Hne [_ Hsep]]. unfold Discord.scanLine, Discord.field.
  replace (startsWith (lit "QUESTION_") (Producer.questionLine i question))
    with true by (symmetry; apply startsWith_app).
  rewrite questionLine_field by exact Hsep.
  rewrite truthy_nonempty by exact Hne. reflexivity.
Qed.

Lemma discord_scan_answer (qa : list jsstring * list jsstring) (i : nat)
      (answer : jsstring) :
  plainValue answer ->
  Discord.scanLine qa (Producer.answerLine i answer)
  = (fst qa, snd qa ++ [trim answer]).
Proof.
  intros [Hne [_ Hsep]]. unfold Discord.scanLine, Discord.field.
  replace (startsWith (lit "QUESTION_") (Producer.answerLine i answer))
    with false by reflexivity.
  replace (startsWith (lit "ANSWER_") (Producer.answerLine i answer))
    with true by (symmetry; apply startsWith_app).
  rewrite answerLine_field by exact Hsep.
  rewrite truthy_nonempty by exact Hne. reflexivity.
Qed.

Lemma discord_scan_results (results : list (jsstring * jsstring)) :
  forall i questions answers,
    Forall (fun r => plainValue (fst r) /\ plainValue (snd r)) results ->
    fold_left Discord.scanLine (Producer.resultLines i results)
              (questions, answers)
    = (questions ++ map (fun r => trim (fst r)) results,
       answers ++ map (fun r => trim (snd r)) results).
Proof.
  induction results as [| r results IH]; intros i questions answers H.
  - cbn. rewrite !app_nil_r. reflexivity.
  - inversion H as [| ? ? [Hq Ha] Hrest]; subst.
    cbn [Producer.resultLines fold_left map].
    rewrite discord_scan_question by exact Hq.
    rewrite discord_scan_answer by exact Ha.
    cbn [fst snd].
    replace (Discord.scanLine (questions ++ [trim (fst r)],
                               answers ++ [trim (snd r)]) (lit "---"))
      with (questions ++ [trim (fst r)], answers ++ [trim (snd r)])
      by reflexivity.
    rewrite IH by exact Hrest.
    rewrite <- !app_assoc. reflexivity.
Qed.

(** ** The producer's section as the regex sees it *)

Lemma printed_join (lines : list jsstring) :
  lines <> [] -> Producer.printed lines = join nl lines ++ nl.
Proof.
  unfold Producer.printed.
  induction lines as [| x lines IH]; intros Hne; [congruence |].
  destruct lines as [| y lines].
  - cbn. rewrite app_nil_r. reflexivity.
  - change (join nl (x :: y :: lines)) with (x ++ nl ++ join nl (y :: lines)).
    cbn [map concat]. cbn [map concat] in IH.
    rewrite IH by discriminate.
    rewrite <- !app_assoc. reflexivity.
Qed.

Lemma startsNowhere_over (c0 : char16) (p' x : jsstring) :
  forall s n,
    lacks c0 x = true ->
    startsNowhere (c0 :: p') (x ++ s) (length x + n)
    = startsNowhere (c0 :: p') s n.
Proof.
  induction x as [| c x IH]; intros s n H; [reflexivity |].
  cbn [app length Nat.add startsNowhere].
  rewrite (@lacks_startsWith c0 p' x (x ++ s) c H).
  unfold lacks in H. cbn [forallb] in H.
  apply andb_prop in H. destruct H as [_ Hx].
  cbn [negb andb]. apply IH. exact Hx.
Qed.

Lemma startsNowhere_newline (p' J rest : jsstring) (c : char16)
      (tail : jsstring) :
  J ++ rest = c :: tail -> c <> 61%N ->
  startsNowhere (LF :: 61%N :: p') (J ++ rest) (length J) = true ->
  startsNowhere (LF :: 61%N :: p') (LF :: (J ++ rest)) (S (length J)) = true.
Proof.
  intros E Hc H. cbn [startsNowhere]. rewrite H, andb_true_r.
  rewrite E. cbn [startsWith]. unfold eqb16.
  rewrite N.eqb_refl.
  replace (61 =? c)%N with false by (symmetry; apply N.eqb_neq; congruence).
  reflexivity.
Qed.

(** A closing literal (a newline, then ['=']) starts nowhere inside lines
    that hold no newline and of which none but the first starts with
    ['=']. *)
Lemma startsNowhere_lines (p' : jsstring) (lines : list jsstring) :
  forall rest,
    lines <> [] ->
    Forall (fun line => lacks LF line = true) lines ->
    Forall (fun line => exists c r, line = c :: r /\ c <> 61%N) (tl lines) ->
    startsNowhere (LF :: 61%N :: p') (join nl lines ++ rest)
                  (length (join nl lines)) = true.
Proof.
  induction lines as [| x lines IH]; intros rest Hne Hlf Hhead; [congruence |].
  inversion Hlf as [| ? ? Hx Hrest]; subst.
  destruct lines as [| y lines].
  - cbn [join]. rewrite <- (Nat.add_0_r (length x)).
    rewrite startsNowhere_over by exact Hx. reflexivity.
  - change (join nl (x :: y :: lines)) with (x ++ nl ++ join nl (y :: lines)).
    cbn [tl] in Hhead. inversion Hhead as [| ? ? [c [r [Ey Hc]]] Hhead']; subst.
    assert (HIH := IH rest ltac:(discriminate) Hrest Hhead').
    assert (EJ : exists tail,
               join nl ((c :: r) :: lines) ++ rest = c :: tail).
    { destruct lines; cbn [join app]; eexists; reflexivity. }
    destruct EJ as [tail EJ].
    rewrite <- app_assoc, length_app.
    rewrite startsNowhere_over by exact Hx.
    exact (@startsNowhere_newline p' (join nl ((c :: r) :: lines)) rest c tail
             EJ Hc HIH).
Qed.

Lemma resultLines_nonempty (i : nat) (results : list (jsstring * jsstring)) :
  results <> [] -> Producer.resultLines i results <> [].
Proof. destruct results; [congruence | discriminate]. Qed.

Lemma resultLines_one_line (results : list (jsstring * jsstring)) :
  forall i,
    Forall (fun r => plainValue (fst r) /\ plainValue (snd r)) results ->
    Forall (fun line => lacks LF line = true) (Producer.resultLines i results).
Proof.
  induction results as [| r results IH]; intros i H; [constructor |].
  inversion H as [| ? ? [[_ [Hq _]] [_ [Ha _]]] Hrest]; subst.
  cbn [Producer.resultLines].
  constructor; [| constructor; [| constructor; [reflexivity | apply IH, Hrest]]].
  - unfold Producer.questionLine.
    rewrite !lacks_app, numberToString_lacks, Hq by (left; reflexivity).
    reflexivity.
  - unfold Producer.answerLine.
    rewrite !lacks_app, numberToString_lacks, Ha by (left; reflexivity).
    reflexivity.
Qed.

Lemma resultLines_heads (results : list (jsstring * jsstring)) :
  forall i,
    Forall (fun line => exists c r, line = c :: r /\ c <> 61%N)
           (Producer.resultLines i results).
Proof.
  induction results as [| r results IH]; intros i; [constructor |].
  cbn [Producer.resultLines].
  constructor; [| constructor; [| constructor; [| apply IH]]].
  - eexists; eexists; split; [reflexivity | discriminate].
  - eexists; eexists; split; [reflexivity | discriminate].
  - eexists; eexists; split; [reflexivity | discriminate].
Qed.

Lemma startsNowhere_after (p earlier s : jsstring) (n : nat) :
  (forall j, j < length earlier ->
     startsWith p (skipn j (earlier ++ s)) = false) ->
  startsNowhere p s n = true ->
  forall j, j < length earlier + n ->
    startsWith p (skipn j (earlier ++ s)) = false.
Proof.
  intros Hearly Hs j Hj.
  destruct (Nat.lt_ge_cases j (length earlier)) as [Hlt | Hge];
    [apply Hearly; exact Hlt |].
  rewrite skipn_app, skipn_all2 by exact Hge.
  cbn [app]. apply (@startsNowhere_spec p n s Hs). lia.
Qed.

Lemma section_shape (marker earlier : jsstring)
      (results : list (jsstring * jsstring)) :
  results <> [] ->
  earlier ++ Producer.resultsSection marker results
  = (earlier ++ nl ++ rule80 ++ nl)
    ++ openLit marker ++ join nl (Producer.resultLines 1 results)
    ++ closeLit marker ++ (nl ++ rule80 ++ nl).
Proof.
  intros Hne. unfold Producer.resultsSection.
  rewrite (printed_join (resultLines_nonempty 1 Hne)).
  unfold Producer.printed, openLit, closeLit. cbn [map concat].
  rewrite !app_nil_r. rewrite <- !app_assoc. reflexivity.
Qed.

(** X6. What [discord_main.py] prints is what the Discord handler parses: for
    results whose questions and answers are non-empty, on one line and
    free of the field separator, printed after earlier output in which the
    opening marker lines do not occur, the handler finds the block and
    parses exactly the printed questions and answers, trimmed, in
    order. *)
Theorem discord_round_trip :
  forall earlier results,
    results <> [] ->
    Forall (fun r => plainValue (fst r) /\ plainValue (snd r)) results ->
    (forall j, j < length earlier ->
       startsWith (openLit Discord.marker)
         (skipn j (earlier ++ Producer.resultsSection Discord.marker results))
       = false) ->
    exists block,
      extract Discord.marker
              (earlier ++ Producer.resultsSection Discord.marker results)
      = Some block
      /\ Discord.parse block
         = (map (fun r => trim (fst r)) results,
            map (fun r => trim (snd r)) results).
Proof.
  intros earlier results Hne Hplain Hearly.
  set (lines := Producer.resultLines 1 results).
  assert (Hlines : lines <> []) by (apply resultLines_nonempty; exact Hne).
  assert (Hlf : Forall (fun line => lacks LF line = true) lines)
    by (apply resultLines_one_line; exact Hplain).
  exists (join nl lines). split.
  - rewrite section_shape in * by exact Hne. fold lines in Hearly |- *.
    apply extract_of_regexMatch; [| apply regexMatch_finds_block].
    + destruct results as [| r results]; [congruence |].
      subst lines. cbn [Producer.resultLines].
      intros E. apply (f_equal (@length _)) in E.
      change (join nl (Producer.questionLine 1 (fst r)
                       :: Producer.answerLine 1 (snd r) :: lit "---"
                       :: Producer.resultLines 2 results))
        with (Producer.questionLine 1 (fst r) ++ nl
              ++ join nl (Producer.answerLine 1 (snd r) :: lit "---"
                          :: Producer.resultLines 2 results)) in E.
      unfold Producer.questionLine in E.
      rewrite !length_app in E. cbn in E. lia.
    + set (rest := openLit Discord.marker ++ join nl lines
                   ++ closeLit Discord.marker ++ nl ++ rule80 ++ nl) in *.
      rewrite <- app_assoc in Hearly |- *.
      rewrite length_app.
      apply startsNowhere_after; [exact Hearly |].
      rewrite <- (Nat.add_0_r (length (nl ++ rule80 ++ nl))).
      exact (@startsNowhere_over 68%N (tl (openLit Discord.marker))
               (nl ++ rule80 ++ nl) rest 0 eq_refl).
    + apply startsNowhere_spec.
      apply (@startsNowhere_lines (tl (tl (closeLit Discord.marker))) lines);
        [exact Hlines | exact Hlf |].
      subst lines. destruct results as [| r results]; [congruence |].
      cbn [Producer.resultLines tl].
      pose proof (resultLines_heads (r :: results) 1) as Hh.
      cbn [Producer.resultLines] in Hh.
      inversion Hh; assumption.
  - unfold Discord.parse.
    replace (split nl (join nl lines)) with lines
      by (symmetry; exact (@split_join LF [] lines Hlines Hlf)).
    subst lines. rewrite discord_scan_results by exact Hplain.
    reflexivity.
Qed.

Lemma discord_round_trip_witness :
  let earlier := lit "Total questions verified: 2" ++ nl in
  let results := [(lit "What caused X?", lit "Because Y. ");
                  (lit "Is it A---B?", lit "Yes.")] in
  results <> []
  /\ Forall (fun r => plainValue (fst r) /\ plainValue (snd r)) results
  /\ (forall j, j < length earlier ->
        startsWith (openLit Discord.marker)
          (skipn j (earlier ++ Producer.resultsSection Discord.marker results))
        = false)
  /\ exists block,
       extract Discord.marker
               (earlier ++ Producer.resultsSection Discord.marker results)
       = Some block
       /\ Discord.parse block
          = (map (fun r => trim (fst r)) results,
             map (fun r => trim (snd r)) results).
Proof.
  intros earlier results.
  assert (H1 : results <> []) by discriminate.
  assert (H2 : Forall (fun r => plainValue (fst r) /\ plainValue (snd r))
                      results).
  { repeat constructor; try discriminate. }
  assert (H3 : forall j, j < length earlier ->
             startsWith (openLit Discord.marker)
               (skipn j (earlier
                         ++ Producer.resultsSection Discord.marker results))
             = false).
  { apply startsNowhere_spec. vm_compute. reflexivity. }
  split; [exact H1 |]. split; [exact H2 |]. split; [exact H3 |].
  exact (@discord_round_trip earlier results H1 H2 H3).
Defined.

(** ** White space at the ends *)

Lemma trimStart_app_solid (w t : jsstring) (z : char16) :
  isWhiteSpace z = false ->
  trimStart (w ++ z :: t) = trimStart w ++ z :: t.
Proof.
  intros Hz. induction w as [| c w IH]; cbn [app trimStart].
  - rewrite Hz. reflexivity.
  - destruct (isWhiteSpace c); [exact IH | reflexivity].
Qed.

Lemma trimEnd_snoc_white (x : jsstring) (c : char16) :
  isWhiteSpace c = true -> trimEnd (x ++ [c]) = trimEnd x.
Proof.
  intros Hc. unfold trimEnd. rewrite rev_app_distr. cbn [rev app trimStart].
  rewrite Hc. reflexivity.
Qed.

Lemma trimEnd_snoc_solid (x : jsstring) (z : char16) :
  isWhiteSpace z = false -> trimEnd (x ++ [z]) = x ++ [z].
Proof.
  intros Hz. unfold trimEnd. rewrite rev_app_distr. cbn [rev app trimStart].
  rewrite Hz. cbn [rev]. rewrite rev_involutive. reflexivity.
Qed.

(** A non-empty string that [trim] leaves alone ends with a code unit that
    is not white space, and starts with one. *)
Lemma trimmed_ends (s : jsstring) :
  s <> [] -> trim s = s ->
  cleanStart s
  /\ exists front z, s = front ++ [z] /\ isWhiteSpace z = false.
Proof.
  intros Hne Ht.
  destruct (trimStart_split s) as [w1 [_ E1]].
  destruct (trimEnd_split (trimStart s)) as [w2 [_ E2]].
  fold (trim s) in E2. rewrite Ht in E2.
  assert (Hlen : length w1 = 0 /\ length w2 = 0).
  { pose proof (f_equal (@length _) E1) as L1.
    pose proof (f_equal (@length _) E2) as L2.
    rewrite length_app in L1, L2. lia. }
  destruct Hlen as [L1 L2].
  destruct w1; [| discriminate L1]. destruct w2; [| discriminate L2].
  cbn [app] in E1. rewrite app_nil_r in E2.
  split.
  - rewrite E1. apply trimStart_clean.
  - assert (Hend : trimEnd s = s).
    { unfold trim in Ht. rewrite <- E1 in Ht. exact Ht. }
    unfold trimEnd in Hend.
    assert (Hrev : trimStart (rev s) = rev s).
    { rewrite <- (rev_involutive (trimStart (rev s))), Hend. reflexivity. }
    pose proof (trimStart_clean (rev s)) as Hclean.
    rewrite Hrev in Hclean.
    destruct (rev s) as [| z t] eqn:Er.
    + apply (f_equal (@rev _)) in Er. rewrite rev_involutive in Er.
      cbn in Er. congruence.
    + exists (rev t), z. split; [| exact Hclean].
      rewrite <- (rev_involutive s), Er. reflexivity.
Qed.

Lemma trim_of_solid_ends (c : char16) (mid : jsstring) (z : char16) :
  isWhiteSpace c = false -> isWhiteSpace z = false ->
  trim (c :: mid ++ [z]) = c :: mid ++ [z].
Proof.
  intros Hc Hz. unfold trim. cbn [trimStart]. rewrite Hc.
  change (c :: mid ++ [z]) with ((c :: mid) ++ [z]).
  apply trimEnd_snoc_solid. exact Hz.
Qed.

(** ** Occurrences across a concatenation *)

Lemma startsWith_app_cases (p : jsstring) :
  forall y b s,
    startsWith p (y ++ b :: s) = true ->
    startsWith p y = true \/ In b p.
Proof.
  induction p as [| a p IH]; intros y b s H; [left; reflexivity |].
  destruct y as [| c y].
  - cbn in H. apply andb_prop in H. destruct H as [H _].
    apply N.eqb_eq in H. right. left. exact H.
  - cbn [app startsWith] in H. apply andb_prop in H. destruct H as [Hac H].
    destruct (IH _ _ _ H) as [Hy | Hin].
    + left. cbn [startsWith]. rewrite Hac, Hy. reflexivity.
    + right. right. exact Hin.
Qed.

Lemma includes_head (p s : jsstring) :
  includes p s = false -> startsWith p s = false.
Proof.
  intros H. destruct s; cbn [includes] in H;
    apply orb_false_elim in H; destruct H as [H _]; exact H.
Qed.

Lemma includes_tail (p : jsstring) (c : char16) (s : jsstring) :
  includes p (c :: s) = false -> includes p s = false.
Proof.
  intros H. cbn [includes] in H.
  apply orb_false_elim in H. destruct H as [_ H]. exact H.
Qed.

(** No occurrence runs across a code unit that the pattern does not
    hold. *)
Lemma includes_barrier (p u v : jsstring) (b : char16) :
  ~ In b p ->
  includes p u = false -> includes p v = false ->
  includes p (u ++ b :: v) = false.
Proof.
  intros Hb Hu Hv.
  induction u as [| c u IH].
  - cbn [app includes]. rewrite Hv, orb_false_r.
    destruct (startsWith p (b :: v)) eqn:Hs; [| reflexivity].
    destruct (@startsWith_app_cases p [] b v Hs) as [H | H].
    + apply includes_head in Hu. congruence.
    + contradiction.
  - cbn [app includes].
    rewrite (IH (includes_tail _ _ _ Hu)), orb_false_r.
    destruct (startsWith p (c :: u ++ b :: v)) eqn:Hs; [| reflexivity].
    destruct (@startsWith_app_cases p (c :: u) b v Hs) as [H | H].
    + apply includes_head in Hu. congruence.
    + contradiction.
Qed.

Lemma includes_over (c0 : char16) (p' x v : jsstring) :
  lacks c0 x = true ->
  includes (c0 :: p') (x ++ v) = includes (c0 :: p') v.
Proof.
  induction x as [| c x IH]; intros H; [reflexivity |].
  cbn [app includes].
  rewrite (@lacks_startsWith c0 p' x (x ++ v) c H).
  unfold lacks in H. cbn [forallb] in H.
  apply andb_prop in H. destruct H as [_ Hx].
  cbn [orb]. apply IH. exact Hx.
Qed.

Lemma includes_join_lines (p : jsstring) (lines : list jsstring) :
  ~ In LF p ->
  includes p [] = false ->
  Forall (fun line => includes p line = false) lines ->
  includes p (join nl lines) = false.
Proof.
  intros Hlf Hnil H.
  induction lines as [| x lines IH]; [exact Hnil |].
  inversion H as [| ? ? Hx Hrest]; subst.
  destruct lines as [| y lines]; [exact Hx |].
  change (join nl (x :: y :: lines)) with (x ++ LF :: join nl (y :: lines)).
  apply includes_barrier; [exact Hlf | exact Hx | exact (IH Hrest)].
Qed.

Lemma startsNowhere_S (p s : jsstring) (n : nat) :
  startsNowhere p s (S n)
  = negb (startsWith p s)
    && match s with
       | [] => true
       | _ :: s' => startsNowhere p s' n
       end.
Proof. reflexivity. Qed.

(** No occurrence starts in a stretch that is free of the pattern and
    ends with a code unit the pattern does not hold. *)
Lemma startsNowhere_barrier (p y : jsstring) (b : char16) :
  ~ In b p ->
  includes p y = false ->
  forall s, startsNowhere p (y ++ b :: s) (S (length y)) = true.
Proof.
  intros Hb Hy s.
  induction y as [| c y IH].
  - cbn [app length startsNowhere].
    destruct (startsWith p (b :: s)) eqn:Hs.
    + destruct (@startsWith_app_cases p [] b s Hs) as [H | H].
      * apply includes_head in Hy. congruence.
      * contradiction.
    + destruct s; reflexivity.
  - cbn [app length]. rewrite startsNowhere_S.
    rewrite (IH (includes_tail _ _ _ Hy)), andb_true_r.
    destruct (startsWith p (c :: y ++ b :: s)) eqn:Hs; [| reflexivity].
    destruct (@startsWith_app_cases p (c :: y) b s Hs) as [H | H].
    + apply includes_head in Hy. congruence.
    + contradiction.
Qed.

Section SplitAnywhere.

Variable c0 : char16.
Variable sep' : jsstring.

Local Abbreviation sep := (c0 :: sep').

Lemma splitAux_clear (x : jsstring) :
  forall acc rest,
    startsNowhere sep (x ++ rest) (length x) = true ->
    splitAux sep 0 acc (x ++ rest) = splitAux sep 0 (rev x ++ acc) rest.
Proof.
  induction x as [| c x IH]; intros acc rest H; [reflexivity |].
  cbn [app length] in H. rewrite startsNowhere_S in H.
  apply andb_prop in H. destruct H as [H0 Hx].
  apply negb_true_iff in H0.
  cbn [app splitAux]. rewrite H0.
  rewrite IH by exact Hx.
  cbn [rev]. rewrite <- app_assoc. reflexivity.
Qed.

(** A piece in which the separator starts nowhere ends at the separator
    that follows it. *)
Lemma split_clear_piece (x rest : jsstring) :
  startsNowhere sep (x ++ sep ++ rest) (length x) = true ->
  split sep (x ++ sep ++ rest) = x :: split sep rest.
Proof.
  intros H. unfold split.
  rewrite splitAux_clear by exact H.
  rewrite splitAux_at_sep, app_nil_r, rev_involutive. reflexivity.
Qed.

End SplitAnywhere.

(** ** Joined lines *)

Lemma join_cons (sep x y : jsstring) (lines : list jsstring) :
  join sep (x :: y :: lines) = x ++ sep ++ join sep (y :: lines).
Proof. reflexivity. Qed.

Lemma join_app (sep : jsstring) (xs ys : list jsstring) :
  xs <> [] -> ys <> [] ->
  join sep (xs ++ ys) = join sep xs ++ sep ++ join sep ys.
Proof.
  intros Hx Hy. induction xs as [| x xs IH]; [congruence |].
  destruct xs as [| x' xs].
  - destruct ys; [congruence | reflexivity].
  - change ((x :: x' :: xs) ++ ys) with (x :: (x' :: xs) ++ ys).
    change ((x' :: xs) ++ ys) with (x' :: xs ++ ys) at 1.
    rewrite join_cons.
    change (x' :: xs ++ ys) with ((x' :: xs) ++ ys).
    rewrite IH by discriminate.
    rewrite join_cons, <- !app_assoc. reflexivity.
Qed.

Lemma join_ends_solid (lines : list jsstring) :
  lines <> [] ->
  Forall (fun line => exists front z,
                        line = front ++ [z] /\ isWhiteSpace z = false) lines ->
  exists front z, join nl lines = front ++ [z] /\ isWhiteSpace z = false.
Proof.
  intros Hne H. induction lines as [| x lines IH]; [congruence |].
  inversion H as [| ? ? Hx Hrest]; subst.
  destruct lines as [| y lines]; [exact Hx |].
  destruct (IH ltac:(discriminate) Hrest) as [front [z [E Hz]]].
  exists (x ++ nl ++ front), z. split; [| exact Hz].
  rewrite join_cons, E, <- !app_assoc. reflexivity.
Qed.

(** ** One Telegram group *)

Lemma trim_fixed (s : jsstring) :
  cleanStart s ->
  (exists front z, s = front ++ [z] /\ isWhiteSpace z = false) ->
  trim s = s.
Proof.
  intros Hclean [front [z [E Hz]]].
  unfold trim.
  assert (Hs : trimStart s = s).
  { destruct s as [| c s]; [reflexivity |].
    cbn [trimStart]. cbn in Hclean. rewrite Hclean. reflexivity. }
  rewrite Hs, E. apply trimEnd_snoc_solid. exact Hz.
Qed.

Lemma tidy_ends (s : jsstring) :
  tidy s ->
  exists front z, s = front ++ [z] /\ isWhiteSpace z = false.
Proof.
  intros [Hne [Ht _]]. exact (proj2 (trimmed_ends Hne Ht)).
Qed.

Lemma tagged_ends (tag value : jsstring) :
  tidy value ->
  exists front z, tag ++ value = front ++ [z] /\ isWhiteSpace z = false.
Proof.
  intros H. destruct (tidy_ends H) as [front [z [E Hz]]].
  exists (tag ++ front), z. split; [| exact Hz].
  rewrite E, app_assoc. reflexivity.
Qed.

Lemma questionLine_tagged (i : nat) (question : jsstring) :
  Producer.questionLine i question
  = (lit "QUESTION_" ++ numberToString (N.of_nat i) ++ lit ":::") ++ question.
Proof. unfold Producer.questionLine. rewrite <- !app_assoc. reflexivity. Qed.

Lemma answerLine_tagged (i : nat) (answer : jsstring) :
  Producer.answerLine i answer
  = (lit "ANSWER_" ++ numberToString (N.of_nat i) ++ lit ":::") ++ answer.
Proof. unfold Producer.answerLine. rewrite <- !app_assoc. reflexivity. Qed.

Lemma questionTag_lacks (c : char16) (i : nat) :
  (c < 48 \/ 57 < c)%N ->
  lacks c (lit "QUESTION_") = true -> c <> 58%N ->
  lacks c (lit "QUESTION_" ++ numberToString (N.of_nat i) ++ lit ":::") = true.
Proof.
  intros Hc Ht Hcolon.
  rewrite !lacks_app, Ht, numberToString_lacks by exact Hc.
  cbn [andb]. unfold lacks, eqb16. cbn [lit map String.list_ascii_of_string forallb].
  replace (N_of_ascii ":" =? c)%N with false
    by (symmetry; apply N.eqb_neq; cbn; congruence).
  reflexivity.
Qed.

Lemma answerTag_lacks (c : char16) (i : nat) :
  (c < 48 \/ 57 < c)%N ->
  lacks c (lit "ANSWER_") = true -> c <> 58%N ->
  lacks c (lit "ANSWER_" ++ numberToString (N.of_nat i) ++ lit ":::") = true.
Proof.
  intros Hc Ht Hcolon.
  rewrite !lacks_app, Ht, numberToString_lacks by exact Hc.
  cbn [andb]. unfold lacks, eqb16. cbn [lit map String.list_ascii_of_string forallb].
  replace (N_of_ascii ":" =? c)%N with false
    by (symmetry; apply N.eqb_neq; cbn; congruence).
  reflexivity.
Qed.

Lemma telegram_scan_question (st : Telegram.GroupState) (i : nat)
      (question : jsstring) :
  tidy question -> includes (lit ":::") question = false ->
  Telegram.scanLine st (Producer.questionLine i question)
  = {| Telegram.currentQuestion := question;
       Telegram.currentAnswerLines := Telegram.currentAnswerLines st;
       Telegram.inAnswer := Telegram.inAnswer st |}.
Proof.
  intros [Hne [Ht _]] Hsep. unfold Telegram.scanLine, Telegram.field.
  replace (startsWith (lit "QUESTION_") (Producer.questionLine i question))
    with true by (symmetry; apply startsWith_app).
  rewrite questionLine_field by exact Hsep.
  rewrite truthy_nonempty by exact Hne. rewrite Ht. reflexivity.
Qed.

Lemma telegram_scan_answer (st : Telegram.GroupState) (i : nat)
      (answer : jsstring) :
  tidy answer -> includes (lit ":::") answer = false ->
  Telegram.scanLine st (Producer.answerLine i answer)
  = Telegram.setInAnswer (Telegram.pushAnswer st answer).
Proof.
  intros [Hne [Ht _]] Hsep. unfold Telegram.scanLine, Telegram.field.
  replace (startsWith (lit "QUESTION_") (Producer.answerLine i answer))
    with false by reflexivity.
  replace (startsWith (lit "ANSWER_") (Producer.answerLine i answer))
    with true by (symmetry; apply startsWith_app).
  rewrite answerLine_field by exact Hsep.
  rewrite truthy_nonempty by exact Hne. rewrite Ht. reflexivity.
Qed.

Lemma telegram_scan_continuations (more : list jsstring) :
  forall question answerLines,
    Forall continuationLine more ->
    fold_left Telegram.scanLine more
      {| Telegram.currentQuestion := question;
         Telegram.currentAnswerLines := answerLines;
         Telegram.inAnswer := true |}
    = {| Telegram.currentQuestion := question;
         Telegram.currentAnswerLines := answerLines ++ more;
         Telegram.inAnswer := true |}.
Proof.
  induction more as [| c more IH]; intros question answerLines H.
  - cbn. rewrite app_nil_r. reflexivity.
  - inversion H as [| ? ? [[Hne [Ht _]] [Hq [Ha _]]] Hrest]; subst.
    cbn [fold_left]. unfold Telegram.scanLine at 2.
    rewrite Hq, Ha, Ht. cbn [Telegram.inAnswer andb].
    rewrite truthy_nonempty by exact Hne.
    unfold Telegram.pushAnswer. cbn [Telegram.currentQuestion
      Telegram.currentAnswerLines Telegram.inAnswer].
    rewrite IH by exact Hrest.
    rewrite <- app_assoc. reflexivity.
Qed.

Section TelegramGroup.

Variable i : nat.
Variables question first : jsstring.
Variable more : list jsstring.

Hypothesis question_tidy : tidy question.
Hypothesis question_plain : includes (lit ":::") question = false.
Hypothesis first_tidy : tidy first.
Hypothesis first_plain : includes (lit ":::") first = false.
Hypothesis more_lines : Forall continuationLine more.

Local Abbreviation groupLines :=
  (Producer.questionLine i question :: Producer.answerLine i first :: more).

Lemma groupLines_one_line :
  Forall (fun line => lacks LF line = true) groupLines.
Proof.
  constructor; [| constructor].
  - rewrite questionLine_tagged, lacks_app.
    rewrite questionTag_lacks by (first [left; reflexivity | discriminate | reflexivity]).
    destruct question_tidy as [_ [_ [H _]]]. exact H.
  - rewrite answerLine_tagged, lacks_app.
    rewrite answerTag_lacks by (first [left; reflexivity | discriminate | reflexivity]).
    destruct first_tidy as [_ [_ [H _]]]. exact H.
  - apply Forall_impl with (P := continuationLine); [| exact more_lines].
    intros c [[_ [_ [H _]]] _]. exact H.
Qed.

Lemma groupLines_no_dashes :
  Forall (fun line => includes (lit "---") line = false) groupLines.
Proof.
  constructor; [| constructor].
  - rewrite questionLine_tagged.
    change (lit "---") with (45%N :: [45%N; 45%N]).
    rewrite includes_over
      by (apply questionTag_lacks;
          first [left; reflexivity | discriminate | reflexivity]).
    destruct question_tidy as [_ [_ [_ H]]]. exact H.
  - rewrite answerLine_tagged.
    change (lit "---") with (45%N :: [45%N; 45%N]).
    rewrite includes_over
      by (apply answerTag_lacks;
          first [left; reflexivity | discriminate | reflexivity]).
    destruct first_tidy as [_ [_ [_ H]]]. exact H.
  - apply Forall_impl with (P := continuationLine); [| exact more_lines].
    intros c [[_ [_ [_ H]]] _]. exact H.
Qed.

Lemma groupLines_ends :
  Forall (fun line => exists front z,
                        line = front ++ [z] /\ isWhiteSpace z = false)
         groupLines.
Proof.
  constructor; [| constructor].
  - rewrite questionLine_tagged. apply tagged_ends, question_tidy.
  - rewrite answerLine_tagged. apply tagged_ends, first_tidy.
  - apply Forall_impl with (P := continuationLine); [| exact more_lines].
    intros c [H _]. apply tidy_ends, H.
Qed.

Lemma group_starts_with_Q :
  exists tail, join nl groupLines = 81%N :: tail.
Proof.
  rewrite join_cons. unfold Producer.questionLine.
  eexists. reflexivity.
Qed.

Lemma group_trim (pre : jsstring) :
  pre = [] \/ pre = nl ->
  trim (pre ++ join nl groupLines ++ nl) = join nl groupLines.
Proof.
  intros Hpre.
  destruct group_starts_with_Q as [tail EQ].
  destruct (@join_ends_solid groupLines ltac:(discriminate) groupLines_ends)
    as [front [z [Eend Hz]]].
  unfold trim.
  assert (Hs : trimStart (pre ++ join nl groupLines ++ nl)
               = join nl groupLines ++ nl).
  { destruct Hpre as [-> | ->]; rewrite EQ; reflexivity. }
  rewrite Hs.
  change (join nl groupLines ++ nl) with (join nl groupLines ++ [LF]).
  rewrite trimEnd_snoc_white by reflexivity.
  rewrite Eend. apply trimEnd_snoc_solid. exact Hz.
Qed.

Lemma group_scan (pre : jsstring) :
  pre = [] \/ pre = nl ->
  Telegram.scanGroup (pre ++ join nl groupLines ++ nl)
  = {| Telegram.currentQuestion := question;
       Telegram.currentAnswerLines := first :: more;
       Telegram.inAnswer := true |}.
Proof.
  intros Hpre. unfold Telegram.scanGroup.
  rewrite group_trim by exact Hpre.
  replace (split nl (join nl groupLines)) with groupLines
    by (symmetry;
        exact (@split_join LF [] groupLines ltac:(discriminate)
                 groupLines_one_line)).
  cbn [fold_left].
  rewrite telegram_scan_question by assumption.
  rewrite telegram_scan_answer by assumption.
  unfold Telegram.setInAnswer, Telegram.pushAnswer, Telegram.initGroup.
  cbn [Telegram.currentQuestion Telegram.currentAnswerLines
       Telegram.inAnswer app].
  rewrite telegram_scan_continuations by exact more_lines.
  reflexivity.
Qed.

Lemma group_clear (pre rest : jsstring) :
  pre = [] \/ pre = nl ->
  startsNowhere (lit "---")
    ((pre ++ join nl groupLines ++ nl) ++ lit "---" ++ rest)
    (length (pre ++ join nl groupLines ++ nl)) = true.
Proof.
  intros Hpre.
  assert (Hin : includes (lit "---") (pre ++ join nl groupLines) = false).
  { change (lit "---") with (45%N :: [45%N; 45%N]).
    rewrite includes_over by (destruct Hpre as [-> | ->]; reflexivity).
    apply includes_join_lines;
      [cbn; intuition discriminate | reflexivity | exact groupLines_no_dashes]. }
  assert (Hlf : ~ In LF (lit "---")) by (cbn; intuition discriminate).
  pose proof (@startsNowhere_barrier (lit "---") (pre ++ join nl groupLines)
                LF Hlf Hin (lit "---" ++ rest)) as H.
  replace ((pre ++ join nl groupLines ++ nl) ++ lit "---" ++ rest)
    with ((pre ++ join nl groupLines) ++ LF :: lit "---" ++ rest)
    by (rewrite <- !app_assoc; reflexivity).
  replace (length (pre ++ join nl groupLines ++ nl))
    with (S (length (pre ++ join nl groupLines)))
    by (rewrite !length_app; cbn [length nl]; lia).
  exact H.
Qed.

(** What the body of [for (const pair of qaPairs)] does with the group. *)
Lemma group_collect (pre : jsstring) (qa : list jsstring * list jsstring) :
  pre = [] \/ pre = nl ->
  Telegram.collect qa (pre ++ join nl groupLines ++ nl)
  = (fst qa ++ [question], snd qa ++ [join (nl ++ nl) (first :: more)]).
Proof.
  intros Hpre. unfold Telegram.collect.
  rewrite group_scan by exact Hpre.
  cbn [Telegram.currentQuestion Telegram.currentAnswerLines].
  destruct question_tidy as [Hne _].
  rewrite truthy_nonempty by exact Hne.
  rewrite length_gtb_0. reflexivity.
Qed.

Lemma group_kept (pre : jsstring) :
  pre = [] \/ pre = nl ->
  (len (trim (pre ++ join nl groupLines ++ nl)) >? 0)%Z = true.
Proof.
  intros Hpre. rewrite group_trim by exact Hpre.
  destruct group_starts_with_Q as [tail ->].
  rewrite len_gtb_0. reflexivity.
Qed.

End TelegramGroup.

(** ** From the producer's lines to the parsed records (Telegram) *)

Lemma answerLine_join (i : nat) (first : jsstring) (more : list jsstring) :
  Producer.answerLine i (join nl (first :: more))
  = join nl (Producer.answerLine i first :: more).
Proof.
  destruct more as [| m more]; [reflexivity |].
  rewrite !join_cons. unfold Producer.answerLine.
  rewrite <- !app_assoc. reflexivity.
Qed.

Lemma join_dashes (lines : list jsstring) :
  join nl (lit "---" :: lines)
  = lit "---" ++ match lines with
                 | [] => []
                 | _ :: _ => nl ++ join nl lines
                 end.
Proof.
  destruct lines; [cbn [join]; rewrite app_nil_r; reflexivity |].
  apply join_cons.
Qed.

Lemma spreadLines_empty (i : nat) (results : list (jsstring * list jsstring)) :
  spreadLines i results = [] -> results = [].
Proof. destruct results; [reflexivity | discriminate]. Qed.

Lemma spread_step (i : nat) (question first : jsstring)
      (more : list jsstring) (rest : list (jsstring * list jsstring)) :
  join nl (spreadLines i ((question, first :: more) :: rest))
  = (join nl (Producer.questionLine i question
              :: Producer.answerLine i first :: more) ++ nl)
    ++ lit "---"
    ++ match rest with
       | [] => []
       | _ :: _ => nl ++ join nl (spreadLines (S i) rest)
       end.
Proof.
  cbn [spreadLines fst snd].
  etransitivity; [apply join_app; discriminate |].
  rewrite join_dashes.
  destruct rest as [| r rest]; [rewrite <- !app_assoc; reflexivity |].
  destruct (spreadLines (S i) (r :: rest)) as [| l ls] eqn:E;
    [apply spreadLines_empty in E; discriminate |].
  rewrite <- !app_assoc. reflexivity.
Qed.

Lemma spread_join (results : list (jsstring * list jsstring)) :
  forall i,
    Forall (fun r => snd r <> []) results ->
    join nl (Producer.resultLines i (map flatResult results))
    = join nl (spreadLines i results).
Proof.
  induction results as [| r results IH]; intros i H; [reflexivity |].
  inversion H as [| ? ? Hr Hrest]; subst.
  destruct r as [question [| first more]]; [cbn in Hr; congruence |].
  rewrite spread_step.
  cbn [map Producer.resultLines flatResult fst snd].
  rewrite answerLine_join.
  rewrite !join_cons, join_dashes.
  specialize (IH (S i) Hrest).
  destruct results as [| r' results].
  - cbn [map Producer.resultLines]. rewrite <- !app_assoc. reflexivity.
  - cbn [map Producer.resultLines] in IH |- *. rewrite IH.
    rewrite <- !app_assoc. reflexivity.
Qed.

Lemma telegram_collect_results (results : list (jsstring * list jsstring)) :
  forall i pre questions answers,
    pre = [] \/ pre = nl ->
    results <> [] ->
    Forall multiLineResult results ->
    fold_left Telegram.collect
      (Telegram.qaPairs (pre ++ join nl (spreadLines i results)))
      (questions, answers)
    = (questions ++ map fst results,
       answers ++ map (fun r => join (nl ++ nl) (snd r)) results).
Proof.
  induction results as [| r results IH];
    intros i pre questions answers Hpre Hne H; [congruence |].
  inversion H as [| ? ? Hr Hrest]; subst.
  destruct r as [question [| first more]];
    [destruct Hr as [_ [_ []]] |].
  destruct Hr as [Hq [Hqs [Ha [Has Hmore]]]]. cbn [fst snd] in *.
  rewrite spread_step.
  set (P := pre ++ join nl (Producer.questionLine i question
                            :: Producer.answerLine i first :: more) ++ nl).
  set (tail := match results with
               | [] => []
               | _ :: _ => nl ++ join nl (spreadLines (S i) results)
               end).
  replace (pre ++ (join nl (Producer.questionLine i question
                            :: Producer.answerLine i first :: more) ++ nl)
           ++ lit "---" ++ tail)
    with (P ++ lit "---" ++ tail)
    by (subst P; rewrite <- !app_assoc; reflexivity).
  unfold Telegram.qaPairs.
  change (lit "---") with (45%N :: [45%N; 45%N]).
  rewrite split_clear_piece
    by (subst P; apply group_clear; assumption).
  cbn [filter].
  replace (len (trim P) >? 0)%Z with true
    by (symmetry; subst P; apply group_kept; assumption).
  cbn [fold_left].
  subst P. rewrite group_collect by assumption.
  cbn [fst snd map].
  destruct results as [| r' results].
  - subst tail.
    change (split (45%N :: [45%N; 45%N]) []) with [@nil char16].
    cbn [filter fold_left map]. reflexivity.
  - subst tail.
    change (45%N :: [45%N; 45%N]) with (lit "---").
    fold (Telegram.qaPairs (nl ++ join nl (spreadLines (S i) (r' :: results)))).
    rewrite IH; [| right; reflexivity | discriminate | exact Hrest].
    rewrite <- !app_assoc. reflexivity.
Qed.

Lemma spreadLines_one_line (results : list (jsstring * list jsstring)) :
  forall i,
    Forall multiLineResult results ->
    Forall (fun line => lacks LF line = true) (spreadLines i results).
Proof.
  induction results as [| r results IH]; intros i H; [constructor |].
  inversion H as [| ? ? Hr Hrest]; subst.
  destruct r as [question [| first more]];
    [destruct Hr as [_ [_ []]] |].
  destruct Hr as [Hq [Hqs [Ha [Has Hmore]]]]. cbn [fst snd] in *.
  cbn [spreadLines fst snd].
  apply Forall_app. split.
  - apply groupLines_one_line; assumption.
  - constructor; [reflexivity | apply IH; exact Hrest].
Qed.

Lemma spreadLines_heads (results : list (jsstring * list jsstring)) :
  forall i,
    Forall multiLineResult results ->
    Forall (fun line => exists c r, line = c :: r /\ c <> 61%N)
           (spreadLines i results).
Proof.
  induction results as [| r results IH]; intros i H; [constructor |].
  inversion H as [| ? ? Hr Hrest]; subst.
  destruct r as [question [| first more]];
    [destruct Hr as [_ [_ []]] |].
  destruct Hr as [Hq [Hqs [Ha [Has Hmore]]]]. cbn [fst snd] in *.
  cbn [spreadLines fst snd].
  constructor; [eexists; eexists; split; [reflexivity | discriminate] |].
  constructor; [eexists; eexists; split; [reflexivity | discriminate] |].
  apply Forall_app. split.
  - apply Forall_impl with (P := continuationLine); [| exact Hmore].
    intros c [[Hne _] [_ [_ Heq]]].
    destruct c as [| x c]; [congruence |].
    exists x, c. split; [reflexivity |].
    intros ->. discriminate Heq.
  - constructor; [eexists; eexists; split; [reflexivity | discriminate] |].
    apply IH. exact Hrest.
Qed.

Lemma multiLine_answers (results : list (jsstring * list jsstring)) :
  Forall multiLineResult results -> Forall (fun r => snd r <> []) results.
Proof.
  apply Forall_impl. intros [question [| first more]] [_ [_ H]];
    [destruct H | discriminate].
Qed.

Lemma Forall_tl {A : Type} (P : A -> Prop) (l : list A) :
  Forall P l -> Forall P (tl l).
Proof. intros H. destruct H; [constructor | assumption]. Qed.

(** X7. What the producer prints is what the Telegram handler parses, also
    for answers of several lines: for results whose question and answer
    lines are tidy, printed after earlier output in which the opening
    marker lines do not occur, the handler finds the block, parses the
    printed questions in order, and parses each answer as its lines joined
    by blank lines; these are the records it then sends. *)
Theorem telegram_round_trip :
  forall earlier results,
    results <> [] ->
    Forall multiLineResult results ->
    (forall j, j < length earlier ->
       startsWith (openLit Telegram.marker)
         (skipn j (earlier
                   ++ Producer.resultsSection Telegram.marker
                        (map flatResult results)))
       = false) ->
    let stdout :=
      earlier
      ++ Producer.resultsSection Telegram.marker (map flatResult results) in
    let questions := map fst results in
    let answers := map (fun r => join (nl ++ nl) (snd r)) results in
    exists block,
      extract Telegram.marker stdout = Some block
      /\ Telegram.parse block = (questions, answers)
      /\ Telegram.deliver true stdout
         = Telegram.sendRecords true 0 questions answers.
Proof.
  intros earlier results Hne Hres Hearly stdout questions answers.
  set (lines := spreadLines 1 results).
  assert (Hflat : map flatResult results <> [])
    by (destruct results; [congruence | discriminate]).
  assert (Hlines : lines <> []).
  { subst lines. intros E. apply spreadLines_empty in E. congruence. }
  assert (Hlf : Forall (fun line => lacks LF line = true) lines)
    by (apply spreadLines_one_line; exact Hres).
  assert (Hparse : Telegram.parse (join nl lines) = (questions, answers)).
  { unfold Telegram.parse.
    exact (@telegram_collect_results results 1 [] [] []
             (or_introl eq_refl) Hne Hres). }
  assert (Hext : extract Telegram.marker stdout = Some (join nl lines)).
  { subst stdout.
    rewrite section_shape in * by exact Hflat.
    rewrite spread_join in * by (apply multiLine_answers; exact Hres).
    fold lines in Hearly |- *.
    apply extract_of_regexMatch; [| apply regexMatch_finds_block].
    - destruct results as [| [question [| first more]] results];
        [congruence
        | inversion Hres as [| ? ? Hr _]; destruct Hr as [_ [_ []]] |].
      subst lines. rewrite spread_step.
      destruct (group_starts_with_Q 1 question first more) as [tail ->].
      discriminate.
    - set (rest := openLit Telegram.marker ++ join nl lines
                   ++ closeLit Telegram.marker ++ nl ++ rule80 ++ nl) in *.
      rewrite <- app_assoc in Hearly |- *.
      rewrite length_app.
      apply startsNowhere_after; [exact Hearly |].
      rewrite <- (Nat.add_0_r (length (nl ++ rule80 ++ nl))).
      exact (@startsNowhere_over 84%N (tl (openLit Telegram.marker))
               (nl ++ rule80 ++ nl) rest 0 eq_refl).
    - apply startsNowhere_spec.
      apply (@startsNowhere_lines (tl (tl (closeLit Telegram.marker))) lines);
        [exact Hlines | exact Hlf |].
      apply Forall_tl. subst lines. apply spreadLines_heads. exact Hres. }
  exists (join nl lines).
  split; [exact Hext |]. split; [exact Hparse |].
  unfold Telegram.deliver. rewrite Hext, Hparse.
  rewrite !length_gtb_0.
  subst questions answers.
  destruct results as [| r results]; [congruence | reflexivity].
Qed.

Lemma telegram_round_trip_witness :
  let earlier := lit "Total questions verified: 2" ++ nl in
  let results :=
    [(lit "What caused X?", [lit "Because Y."; lit "And Z - mostly."]);
     (lit "Is it A?", [lit "Yes."])] in
  results <> []
  /\ Forall multiLineResult results
  /\ (forall j, j < length earlier ->
        startsWith (openLit Telegram.marker)
          (skipn j (earlier
                    ++ Producer.resultsSection Telegram.marker
                         (map flatResult results)))
        = false)
  /\ exists block,
       extract Telegram.marker
         (earlier
          ++ Producer.resultsSection Telegram.marker (map flatResult results))
       = Some block
       /\ Telegram.parse block
          = (map fst results,
             map (fun r => join (nl ++ nl) (snd r)) results)
       /\ Telegram.deliver true
            (earlier
             ++ Producer.resultsSection Telegram.marker
                  (map flatResult results))
          = Telegram.sendRecords true 0 (map fst results)
              (map (fun r => join (nl ++ nl) (snd r)) results).
Proof.
  intros earlier results.
  assert (H1 : results <> []) by discriminate.
  assert (H2 : Forall multiLineResult results).
  { repeat constructor; try discriminate. }
  assert (H3 : forall j, j < length earlier ->
             startsWith (openLit Telegram.marker)
               (skipn j (earlier
                         ++ Producer.resultsSection Telegram.marker
                              (map flatResult results)))
             = false).
  { apply startsNowhere_spec. vm_compute. reflexivity. }
  split; [exact H1 |]. split; [exact H2 |]. split; [exact H3 |].
  exact (@telegram_round_trip earlier results H1 H2 H3).
Defined.

(** ** Answer lines as messages *)

Lemma filter_all {A : Type} (f : A -> bool) (l : list A) :
  Forall (fun x => f x = true) l -> filter f l = l.
Proof.
  induction 1 as [| x l Hx Hl IH]; [reflexivity |].
  cbn [filter]. rewrite Hx, IH. reflexivity.
Qed.

Lemma flat_map_callback (f : jsstring -> Content) (l : list jsstring) :
  flat_map (fun p => callback true (f p)) l = map f l.
Proof.
  induction l as [| x l IH]; [reflexivity |].
  cbn [flat_map map]. rewrite IH. reflexivity.
Qed.

(** X8. An answer made of lines joined by blank lines, as [parse] builds it, is
    sent line by line: the first line in the numbered message with the
    question, every further line in a "Continuation: " message of its
    own, in order. *)
Theorem answer_lines_as_messages :
  forall i question first more,
    Forall (fun line => lacks LF line = true /\ trim line <> [])
           (first :: more) ->
    Telegram.sendRecord true i question (join (nl ++ nl) (first :: more))
    = Telegram.say (nl ++ Telegram.ordinal i ++ lit ". " ++ question
                    ++ nl ++ nl ++ lit "Answer: " ++ first)
      :: map (fun line => Telegram.say (lit "Continuation: " ++ line)) more.
Proof.
  intros i question first more H.
  unfold Telegram.sendRecord.
  assert (Hlf : Forall (fun line => lacks LF line = true) (first :: more)).
  { apply Forall_impl with (2 := H). intros l [Hl _]. exact Hl. }
  replace (split (nl ++ nl) (join (nl ++ nl) (first :: more)))
    with (first :: more)
    by (symmetry;
        exact (@split_join LF [LF] (first :: more) ltac:(discriminate) Hlf)).
  rewrite filter_all.
  - rewrite (flat_map_callback
               (fun p => Telegram.say (lit "Continuation: " ++ p))).
    reflexivity.
  - apply Forall_impl with (2 := H). intros l [_ Hl].
    rewrite len_gtb_0. destruct (trim l); [congruence | reflexivity].
Qed.

Lemma answer_lines_as_messages_witness :
  Forall (fun line => lacks LF line = true /\ trim line <> [])
         [lit "Because Y."; lit "And Z."]
  /\ Telegram.sendRecord true 0 (lit "What caused X?")
       (join (nl ++ nl) [lit "Because Y."; lit "And Z."])
     = Telegram.say (nl ++ Telegram.ordinal 0 ++ lit ". "
                     ++ lit "What caused X?"
                     ++ nl ++ nl ++ lit "Answer: " ++ lit "Because Y.")
       :: map (fun line => Telegram.say (lit "Continuation: " ++ line))
              [lit "And Z."].
Proof.
  assert (H : Forall (fun line => lacks LF line = true /\ trim line <> [])
                     [lit "Because Y."; lit "And Z."]).
  { repeat constructor; discriminate. }
  split; [exact H |].
  exact (@answer_lines_as_messages 0 (lit "What caused X?")
           (lit "Because Y.") [lit "And Z."] H).
Defined.

(** ** An empty result list *)

Lemma regexMatch_skip (marker pre s : jsstring) :
  (forall j, j < length pre ->
     startsWith (openLit marker) (skipn j (pre ++ s)) = false) ->
  regexMatch marker (pre ++ s) = regexMatch marker s.
Proof.
  induction pre as [| c pre IH]; intros H; [reflexivity |].
  rewrite regexMatch_eq.
  assert (H0 : 0 < length (c :: pre)) by (cbn; lia).
  apply H in H0. cbn [skipn] in H0.
  rewrite (matchAt_no_open _ _ H0).
  cbn [app]. apply IH.
  intros j Hj. apply (H (S j)). cbn. lia.
Qed.

(** X9. When the pipeline verified no question at all, the section it prints
    has the closing marker lines directly after the opening ones; the
    regex wants a newline between them, finds no block, and the handlers
    send the could-not-be-parsed notice, not the no-results notice. *)
Theorem empty_results_not_parsed :
  forall earlier,
    ((forall j, j < length earlier ->
        startsWith (openLit Telegram.marker)
          (skipn j (earlier ++ Producer.resultsSection Telegram.marker []))
        = false) ->
     Telegram.deliver true
       (earlier ++ Producer.resultsSection Telegram.marker [])
     = [Telegram.say Telegram.noBlockNotice])
    /\ ((forall j, j < length earlier ->
           startsWith (openLit Discord.marker)
             (skipn j (earlier ++ Producer.resultsSection Discord.marker []))
           = false) ->
        Discord.deliver true
          (earlier ++ Producer.resultsSection Discord.marker [])
        = Some [Discord.say Discord.noBlockNotice]).
Proof.
  intros earlier. split; intros H.
  - assert (E : extract Telegram.marker
                  (earlier ++ Producer.resultsSection Telegram.marker [])
                = None).
    { unfold extract. rewrite regexMatch_skip by exact H.
      vm_compute. reflexivity. }
    unfold Telegram.deliver. rewrite E. reflexivity.
  - assert (E : extract Discord.marker
                  (earlier ++ Producer.resultsSection Discord.marker [])
                = None).
    { unfold extract. rewrite regexMatch_skip by exact H.
      vm_compute. reflexivity. }
    unfold Discord.deliver. rewrite E. reflexivity.
Qed.

Lemma empty_results_not_parsed_witness :
  let earlier := lit "Total questions verified: 0" ++ nl in
  ((forall j, j < length earlier ->
      startsWith (openLit Telegram.marker)
        (skipn j (earlier ++ Producer.resultsSection Telegram.marker []))
      = false)
   /\ Telegram.deliver true
        (earlier ++ Producer.resultsSection Telegram.marker [])
      = [Telegram.say Telegram.noBlockNotice])
  /\ ((forall j, j < length earlier ->
         startsWith (openLit Discord.marker)
           (skipn j (earlier ++ Producer.resultsSection Discord.marker []))
         = false)
      /\ Discord.deliver true
           (earlier ++ Producer.resultsSection Discord.marker [])
         = Some [Discord.say Discord.noBlockNotice]).
Proof.
  intros earlier.
  assert (H1 : forall j, j < length earlier ->
             startsWith (openLit Telegram.marker)
               (skipn j (earlier ++ Producer.resultsSection Telegram.marker []))
             = false)
    by (apply startsNowhere_spec; vm_compute; reflexivity).
  assert (H2 : forall j, j < length earlier ->
             startsWith (openLit Discord.marker)
               (skipn j (earlier ++ Producer.resultsSection Discord.marker []))
             = false)
    by (apply startsNowhere_spec; vm_compute; reflexivity).
  split.
  - split; [exact H1 |].
    exact (proj1 (empty_results_not_parsed earlier) H1).
  - split; [exact H2 |].
    exact (proj2 (empty_results_not_parsed earlier) H2).
Defined.

(** ** Answers of several lines on the Discord path *)

Lemma discord_scan_other (qa : list jsstring * list jsstring)
      (line : jsstring) :
  startsWith (lit "QUESTION_") line = false ->
  startsWith (lit "ANSWER_") line = false ->
  Discord.scanLine qa line = qa.
Proof. intros Hq Ha. unfold Discord.scanLine. rewrite Hq, Ha. reflexivity. Qed.

Lemma discord_scan_others (lines : list jsstring) :
  forall qa,
    Forall continuationLine lines ->
    fold_left Discord.scanLine lines qa = qa.
Proof.
  induction lines as [| c lines IH]; intros qa H; [reflexivity |].
  inversion H as [| ? ? [_ [Hq [Ha _]]] Hrest]; subst.
  cbn [fold_left]. rewrite discord_scan_other by assumption.
  apply IH. exact Hrest.
Qed.

Lemma tidy_plain (s : jsstring) :
  tidy s -> includes (lit ":::") s = false -> plainValue s.
Proof. intros [Hne [_ [Hlf _]]] Hsep. repeat split; assumption. Qed.

Lemma discord_scan_spread (results : list (jsstring * list jsstring)) :
  forall i questions answers,
    Forall multiLineResult results ->
    fold_left Discord.scanLine (spreadLines i results) (questions, answers)
    = (questions ++ map fst results,
       answers ++ map (fun r => hd [] (snd r)) results).
Proof.
  induction results as [| r results IH]; intros i questions answers H.
  - cbn. rewrite !app_nil_r. reflexivity.
  - inversion H as [| ? ? Hr Hrest]; subst.
    destruct r as [question [| first more]];
      [destruct Hr as [_ [_ []]] |].
    destruct Hr as [Hq [Hqs [Ha [Has Hmore]]]]. cbn [fst snd] in *.
    cbn [spreadLines fst snd].
    change ((Producer.questionLine i question
             :: Producer.answerLine i first :: more)
            ++ lit "---" :: spreadLines (S i) results)
      with (Producer.questionLine i question
            :: Producer.answerLine i first
            :: (more ++ lit "---" :: spreadLines (S i) results)).
    cbn [fold_left].
    rewrite discord_scan_question by (apply tidy_plain; assumption).
    rewrite discord_scan_answer by (apply tidy_plain; assumption).
    rewrite fold_left_app. rewrite (@discord_scan_others more _ Hmore).
    cbn [fold_left fst snd].
    replace (Discord.scanLine _ (lit "---"))
      with (questions ++ [trim question], answers ++ [trim first])
      by reflexivity.
    rewrite IH by exact Hrest.
    destruct Hq as [_ [-> _]]. destruct Ha as [_ [-> _]].
    cbn [map hd fst snd]. rewrite <- !app_assoc. reflexivity.
Qed.

(** X10. The Discord handler keeps the first line of each answer only:
    for results with tidy question and answer lines, printed with the
    Discord marker, it
    finds the block and parses the questions, and of every answer just the
    line that stands on the tag line; the further lines are dropped. *)
Theorem discord_drops_further_lines :
  forall earlier results,
    results <> [] ->
    Forall multiLineResult results ->
    (forall j, j < length earlier ->
       startsWith (openLit Discord.marker)
         (skipn j (earlier
                   ++ Producer.resultsSection Discord.marker
                        (map flatResult results)))
       = false) ->
    exists block,
      extract Discord.marker
        (earlier
         ++ Producer.resultsSection Discord.marker (map flatResult results))
      = Some block
      /\ Discord.parse block
         = (map fst results, map (fun r => hd [] (snd r)) results).
Proof.
  intros earlier results Hne Hres Hearly.
  set (lines := spreadLines 1 results).
  assert (Hflat : map flatResult results <> [])
    by (destruct results; [congruence | discriminate]).
  assert (Hlines : lines <> []).
  { subst lines. intros E. apply spreadLines_empty in E. congruence. }
  assert (Hlf : Forall (fun line => lacks LF line = true) lines)
    by (apply spreadLines_one_line; exact Hres).
  exists (join nl lines). split.
  - rewrite section_shape in * by exact Hflat.
    rewrite spread_join in * by (apply multiLine_answers; exact Hres).
    fold lines in Hearly |- *.
    apply extract_of_regexMatch; [| apply regexMatch_finds_block].
    + destruct results as [| [question [| first more]] results];
        [congruence
        | inversion Hres as [| ? ? Hr _]; destruct Hr as [_ [_ []]] |].
      subst lines. rewrite spread_step.
      destruct (group_starts_with_Q 1 question first more) as [tail ->].
      discriminate.
    + set (rest := openLit Discord.marker ++ join nl lines
                   ++ closeLit Discord.marker ++ nl ++ rule80 ++ nl) in *.
      rewrite <- app_assoc in Hearly |- *.
      rewrite length_app.
      apply startsNowhere_after; [exact Hearly |].
      rewrite <- (Nat.add_0_r (length (nl ++ rule80 ++ nl))).
      exact (@startsNowhere_over 68%N (tl (openLit Discord.marker))
               (nl ++ rule80 ++ nl) rest 0 eq_refl).
    + apply startsNowhere_spec.
      apply (@startsNowhere_lines (tl (tl (closeLit Discord.marker))) lines);
        [exact Hlines | exact Hlf |].
      apply Forall_tl. subst lines. apply spreadLines_heads. exact Hres.
  - unfold Discord.parse.
    replace (split nl (join nl lines)) with lines
      by (symmetry; exact (@split_join LF [] lines Hlines Hlf)).
    subst lines. rewrite discord_scan_spread by exact Hres.
    reflexivity.
Qed.

Lemma discord_drops_further_lines_witness :
  let earlier := lit "Total questions verified: 1" ++ nl in
  let results :=
    [(lit "What caused X?", [lit "Because Y."; lit "And Z - mostly."])] in
  results <> []
  /\ Forall multiLineResult results
  /\ (forall j, j < length earlier ->
        startsWith (openLit Discord.marker)
          (skipn j (earlier
                    ++ Producer.resultsSection Discord.marker
                         (map flatResult results)))
        = false)
  /\ exists block,
       extract Discord.marker
         (earlier
          ++ Producer.resultsSection Discord.marker (map flatResult results))
       = Some block
       /\ Discord.parse block
          = (map fst results, map (fun r => hd [] (snd r)) results).
Proof.
  intros earlier results.
  assert (H1 : results <> []) by discriminate.
  assert (H2 : Forall multiLineResult results).
  { repeat constructor; try discriminate. }
  assert (H3 : forall j, j < length earlier ->
             startsWith (openLit Discord.marker)
               (skipn j (earlier
                         ++ Producer.resultsSection Discord.marker
                              (map flatResult results)))
             = false).
  { apply startsNowhere_spec. vm_compute. reflexivity. }
  split; [exact H1 |]. split; [exact H2 |]. split; [exact H3 |].
  exact (@discord_drops_further_lines earlier results H1 H2 H3).
Defined.

(** ** What [parse] hands on is trimmed *)

Lemma trimEnd_ends (s : jsstring) :
  trimEnd s = []
  \/ exists front z, trimEnd s = front ++ [z] /\ isWhiteSpace z = false.
Proof.
  unfold trimEnd. pose proof (trimStart_clean (rev s)) as H.
  destruct (trimStart (rev s)) as [| z t]; [left; reflexivity |].
  right. exists (rev t), z. split; [reflexivity | exact H].
Qed.

Lemma trim_idem (s : jsstring) : trim (trim s) = trim s.
Proof.
  pose proof (trim_clean s) as Hclean.
  destruct (trimEnd_ends (trimStart s)) as [E | Hends].
  - change (trim s) with (trimEnd (trimStart s)). rewrite E. reflexivity.
  - apply trim_fixed; [exact Hclean | exact Hends].
Qed.

Lemma telegram_scanLine_trimmed (st : Telegram.GroupState) (line : jsstring) :
  trim (Telegram.currentQuestion st) = Telegram.currentQuestion st ->
  trim (Telegram.currentQuestion (Telegram.scanLine st line))
  = Telegram.currentQuestion (Telegram.scanLine st line).
Proof.
  intros H. unfold Telegram.scanLine.
  destruct (startsWith (lit "QUESTION_") line).
  - destruct (Telegram.field line) as [q |]; [| exact H].
    destruct (truthy q); [apply trim_idem | exact H].
  - destruct (startsWith (lit "ANSWER_") line).
    + destruct (Telegram.field line) as [a |]; [| exact H].
      destruct (truthy a); exact H.
    + destruct (Telegram.inAnswer st && truthy (trim line)); exact H.
Qed.

Lemma telegram_scanLines_trimmed (lines : list jsstring) :
  forall st,
    trim (Telegram.currentQuestion st) = Telegram.currentQuestion st ->
    trim (Telegram.currentQuestion (fold_left Telegram.scanLine lines st))
    = Telegram.currentQuestion (fold_left Telegram.scanLine lines st).
Proof.
  induction lines as [| line lines IH]; intros st H; [exact H |].
  cbn [fold_left]. apply IH, telegram_scanLine_trimmed, H.
Qed.

Lemma discord_scanLine_trimmed (qa : list jsstring * list jsstring)
      (line : jsstring) :
  Forall (fun v => trim v = v) (fst qa) ->
  Forall (fun v => trim v = v) (snd qa) ->
  Forall (fun v => trim v = v) (fst (Discord.scanLine qa line))
  /\ Forall (fun v => trim v = v) (snd (Discord.scanLine qa line)).
Proof.
  intros Hq Ha. unfold Discord.scanLine.
  destruct (startsWith (lit "QUESTION_") line).
  - destruct (Discord.field line) as [q |]; [| split; assumption].
    destruct (truthy q); [| split; assumption].
    cbn [fst snd]. split; [| exact Ha].
    apply Forall_app. split; [exact Hq |].
    constructor; [apply trim_idem | constructor].
  - destruct (startsWith (lit "ANSWER_") line); [| split; assumption].
    destruct (Discord.field line) as [a |]; [| split; assumption].
    destruct (truthy a); [| split; assumption].
    cbn [fst snd]. split; [exact Hq |].
    apply Forall_app. split; [exact Ha |].
    constructor; [apply trim_idem | constructor].
Qed.

(** X11. Every question the Telegram handler parses is non-empty and without
    white space at its ends, whatever the block; every question and every
    answer the Discord handler parses is without white space at its ends
    (and may be empty). *)
Theorem parsed_values_trimmed :
  forall resultsBlock,
    Forall (fun q => q <> [] /\ trim q = q)
           (fst (Telegram.parse resultsBlock))
    /\ Forall (fun v => trim v = v) (fst (Discord.parse resultsBlock))
    /\ Forall (fun v => trim v = v) (snd (Discord.parse resultsBlock)).
Proof.
  intros resultsBlock. split.
  - rewrite parse_collects_independently. cbn [fst].
    apply Forall_forall. intros q Hin.
    apply in_flat_map in Hin. destruct Hin as [pair [_ Hin]].
    cbv zeta in Hin.
    destruct (truthy (Telegram.currentQuestion (Telegram.scanGroup pair)))
      eqn:Ht; [| destruct Hin].
    destruct Hin as [<- | []].
    split.
    + intros E. rewrite E in Ht. discriminate.
    + unfold Telegram.scanGroup.
      apply telegram_scanLines_trimmed. reflexivity.
  - unfold Discord.parse.
    assert (H : forall lines qa,
               Forall (fun v => trim v = v) (fst qa) ->
               Forall (fun v => trim v = v) (snd qa) ->
               Forall (fun v => trim v = v)
                      (fst (fold_left Discord.scanLine lines qa))
               /\ Forall (fun v => trim v = v)
                         (snd (fold_left Discord.scanLine lines qa))).
    { induction lines as [| line lines IH]; intros qa Hq Ha;
        [split; assumption |].
      cbn [fold_left].
      destruct (discord_scanLine_trimmed qa line Hq Ha) as [Hq' Ha'].
      apply IH; assumption. }
    apply H; constructor.
Qed.

(** ** The number in a tag *)

Lemma field_ignores_tag (tag value : jsstring) :
  lacks 58%N tag = true ->
  index (split (lit ":::") (tag ++ lit ":::" ++ value)) 1
  = index (split (lit ":::") value) 0.
Proof.
  intros H.
  change (lit ":::") with (58%N :: [58%N; 58%N]).
  rewrite split_piece by exact H. reflexivity.
Qed.

(** X12. The number written after [QUESTION_] or [ANSWER_] plays no part: two
    tag lines that differ in it only are scanned alike by both handlers
    (the messages are numbered by position). *)
Theorem tag_number_ignored :
  forall n1 n2 value,
    lacks 58%N n1 = true -> lacks 58%N n2 = true ->
    (forall st,
        Telegram.scanLine st (lit "QUESTION_" ++ n1 ++ lit ":::" ++ value)
        = Telegram.scanLine st (lit "QUESTION_" ++ n2 ++ lit ":::" ++ value))
    /\ (forall st,
           Telegram.scanLine st (lit "ANSWER_" ++ n1 ++ lit ":::" ++ value)
           = Telegram.scanLine st (lit "ANSWER_" ++ n2 ++ lit ":::" ++ value))
    /\ (forall qa,
           Discord.scanLine qa (lit "QUESTION_" ++ n1 ++ lit ":::" ++ value)
           = Discord.scanLine qa (lit "QUESTION_" ++ n2 ++ lit ":::" ++ value))
    /\ (forall qa,
           Discord.scanLine qa (lit "ANSWER_" ++ n1 ++ lit ":::" ++ value)
           = Discord.scanLine qa (lit "ANSWER_" ++ n2 ++ lit ":::" ++ value)).
Proof.
  intros n1 n2 value H1 H2.
  assert (Hq : forall n, lacks 58%N n = true ->
             index (split (lit ":::")
                      (lit "QUESTION_" ++ n ++ lit ":::" ++ value)) 1
             = index (split (lit ":::") value) 0).
  { intros n Hn. rewrite app_assoc. apply field_ignores_tag.
    rewrite lacks_app, Hn. reflexivity. }
  assert (Ha : forall n, lacks 58%N n = true ->
             index (split (lit ":::")
                      (lit "ANSWER_" ++ n ++ lit ":::" ++ value)) 1
             = index (split (lit ":::") value) 0).
  { intros n Hn. rewrite app_assoc. apply field_ignores_tag.
    rewrite lacks_app, Hn. reflexivity. }
  assert (SQ : forall n,
             startsWith (lit "QUESTION_")
                        (lit "QUESTION_" ++ n ++ lit ":::" ++ value) = true)
    by (intros n; apply startsWith_app).
  assert (SA : forall n,
             startsWith (lit "ANSWER_")
                        (lit "ANSWER_" ++ n ++ lit ":::" ++ value) = true)
    by (intros n; apply startsWith_app).
  assert (SQA : forall n,
             startsWith (lit "QUESTION_")
                        (lit "ANSWER_" ++ n ++ lit ":::" ++ value) = false)
    by (intros n; reflexivity).
  repeat split; intros st.
  - unfold Telegram.scanLine, Telegram.field.
    rewrite !SQ, (Hq n1 H1), (Hq n2 H2). reflexivity.
  - unfold Telegram.scanLine, Telegram.field.
    rewrite !SQA, !SA, (Ha n1 H1), (Ha n2 H2). reflexivity.
  - unfold Discord.scanLine, Discord.field.
    rewrite !SQ, (Hq n1 H1), (Hq n2 H2). reflexivity.
  - unfold Discord.scanLine, Discord.field.
    rewrite !SQA, !SA, (Ha n1 H1), (Ha n2 H2). reflexivity.
Qed.

Lemma tag_number_ignored_witness :
  lacks 58%N (lit "1") = true /\ lacks 58%N (lit "27") = true
  /\ (forall st,
         Telegram.scanLine st
           (lit "QUESTION_" ++ lit "1" ++ lit ":::" ++ lit "Q")
         = Telegram.scanLine st
             (lit "QUESTION_" ++ lit "27" ++ lit ":::" ++ lit "Q"))
  /\ (forall st,
         Telegram.scanLine st (lit "ANSWER_" ++ lit "1" ++ lit ":::" ++ lit "Q")
         = Telegram.scanLine st
             (lit "ANSWER_" ++ lit "27" ++ lit ":::" ++ lit "Q"))
  /\ (forall qa,
         Discord.scanLine qa
           (lit "QUESTION_" ++ lit "1" ++ lit ":::" ++ lit "Q")
         = Discord.scanLine qa
             (lit "QUESTION_" ++ lit "27" ++ lit ":::" ++ lit "Q"))
  /\ (forall qa,
         Discord.scanLine qa (lit "ANSWER_" ++ lit "1" ++ lit ":::" ++ lit "Q")
         = Discord.scanLine qa
             (lit "ANSWER_" ++ lit "27" ++ lit ":::" ++ lit "Q")).
Proof.
  split; [reflexivity |]. split; [reflexivity |].
  exact (@tag_number_ignored (lit "1") (lit "27") (lit "Q") eq_refl eq_refl).
Defined.

(** ** The image action *)

Lemma filter_nil_existsb {A : Type} (f : A -> bool) (l : list A) :
  filter f l = [] <-> existsb f l = false.
Proof.
  induction l as [| x l IH]; [split; reflexivity |].
  cbn [filter existsb]. destruct (f x); cbn [orb].
  - split; discriminate.
  - exact IH.
Qed.

(** X13. The handler calls the callback once when [validate] accepts the
    message and never when it does not, however the callback settles; it
    reports success exactly when [validate] accepts the message and the
    callback resolves, and a rejecting callback gives the failure text
    after the one call. *)
Theorem image_validate_matches_handler :
  forall attachments outcome,
    length (ImageAction.sent (ImageAction.handler attachments outcome))
    = (if ImageAction.validate attachments then 1 else 0)
    /\ ImageAction.success (ImageAction.handler attachments outcome)
       = ImageAction.validate attachments
         && match outcome with
            | ImageAction.Resolved => true
            | ImageAction.Rejected => false
            end
    /\ ImageAction.resultText
         (ImageAction.handler attachments ImageAction.Rejected)
       = if ImageAction.validate attachments
         then lit "Failed to process image"
         else ImageAction.resultText
                (ImageAction.handler attachments ImageAction.Resolved).
Proof.
  intros [| | items] outcome;
    [repeat split; reflexivity | repeat split; reflexivity |].
  unfold ImageAction.handler, ImageAction.validate.
  destruct (existsb ImageAction.isImage items) eqn:E.
  - destruct (filter ImageAction.isImage items) as [| x l] eqn:F.
    + apply filter_nil_existsb in F. congruence.
    + destruct outcome; repeat split; reflexivity.
  - apply filter_nil_existsb in E. rewrite E. repeat split; reflexivity.
Qed.
